(** * QNN softmax: type relation and canonicalization

    A shallow embedding of [src/relay/qnn/op/softmax.cc]: the type relation
    [QnnSoftmaxRel] and the lowering [QnnSoftmaxCanonicalize], which
    rewrites a [qnn.softmax] call into an integer-only expression
    (Algorithm 1 of arXiv:2207.01405) ending in a requantize call.

    The lowering builds Relay expressions; they are embedded as the
    inductive type [Expr].  To speak about what the built expression
    computes, the file also carries a small evaluator for the integer and
    float32 operators the lowering emits, over row-major tensors. *)

From Stdlib Require Import ZArith List String Bool Lia QArith.
From Stdlib Require Import Floats.SpecFloat.
Import ListNotations.

Set Warnings "-register-all".

Local Open Scope string_scope.
Local Open Scope Z_scope.

(** ** Failure *)

(** Everything that makes a call of this file's functions, or the evaluation
    of an expression they build, stop without a value. *)
Inductive error : Type :=
| CheckFailed (what : string)      (* ICHECK / ICHECK_EQ failed *)
| NullDeref (what : string)        (* member access through a failed as<T>() *)
| IndexError (what : string)       (* Array::operator[] outside the array *)
| UnifyFailed                      (* the reporter cannot unify two types *)
| Unbound (x : string)             (* evaluation: free variable without a value *)
| IllTyped (what : string)         (* evaluation: operand dtypes do not fit *)
| ShapeMismatch                    (* evaluation: shapes do not broadcast *)
| AxisOutOfRange                   (* evaluation: reduction axis outside the rank *)
| IndexOutOfRange                  (* evaluation: buffer shorter than its shape *)
| DivideByZero                     (* evaluation: integer division by zero *)
| ShiftOutOfRange                  (* evaluation: shift amount negative or >= width *)
| CastOutOfRange                   (* evaluation: float not representable in the integer type *)
| Unsupported (what : string).     (* evaluation: operator outside this model *)

Inductive result (A : Type) : Type :=
| Ok (a : A)
| Fatal (e : error).

Arguments Ok {A} a.
Arguments Fatal {A} e.

Definition bind {A B : Type} (r : result A) (f : A -> result B) : result B :=
  match r with
  | Ok a => f a
  | Fatal e => Fatal e
  end.

Declare Scope result_scope.
Delimit Scope result_scope with result.
Notation "x <- c ;; k" := (bind c (fun x => k))
  (at level 61, c at next level, right associativity) : result_scope.
Notation "c ;;; k" := (bind c (fun _ => k))
  (at level 61, right associativity) : result_scope.
Local Open Scope result_scope.

(** ICHECK(cond) << what *)
Definition ICHECK (cond : bool) (what : string) : result unit :=
  if cond then Ok tt else Fatal (CheckFailed what).

Fixpoint mapM {A B : Type} (f : A -> result B) (l : list A) : result (list B) :=
  match l with
  | [] => Ok []
  | a :: l' => b <- f a ;; bs <- mapM f l' ;; Ok (b :: bs)
  end.

(** ** Data types and types *)

(** [DataType::Int(bits)], [DataType::UInt(bits)], [DataType::Float(bits)]. *)
Inductive DataType : Type :=
| Int (bits : Z)
| UInt (bits : Z)
| Float (bits : Z).

Definition DataType_eqb (a b : DataType) : bool :=
  match a, b with
  | Int x, Int y => x =? y
  | UInt x, UInt y => x =? y
  | Float x, Float y => x =? y
  | _, _ => false
  end.

(** A dimension of a tensor type: concrete or symbolic. *)
Inductive IndexExpr : Type :=
| IntImm (v : Z)
| Any.

Definition IndexExpr_eqb (a b : IndexExpr) : bool :=
  match a, b with
  | IntImm x, IntImm y => x =? y
  | Any, Any => true
  | _, _ => false
  end.

(** Relay types, as far as the relation tells them apart: tensor types,
    placeholders still to be inferred, and the rest (tuples). *)
Inductive Type_ : Type :=
| TensorType (shape : list IndexExpr) (dtype : DataType)
| IncompleteType (id : nat)
| TupleType (fields : list Type_).

Fixpoint list_eqb {A : Type} (eqb : A -> A -> bool) (l1 l2 : list A) : bool :=
  match l1, l2 with
  | [], [] => true
  | a :: l1', b :: l2' => eqb a b && list_eqb eqb l1' l2'
  | _, _ => false
  end.

Fixpoint Type_eqb (a b : Type_) {struct a} : bool :=
  match a, b with
  | TensorType s1 d1, TensorType s2 d2 =>
      list_eqb IndexExpr_eqb s1 s2 && DataType_eqb d1 d2
  | IncompleteType n1, IncompleteType n2 => Nat.eqb n1 n2
  | TupleType f1, TupleType f2 =>
      (fix go (l1 l2 : list Type_) {struct l1} : bool :=
         match l1, l2 with
         | [], [] => true
         | x :: l1', y :: l2' => Type_eqb x y && go l1' l2'
         | _, _ => false
         end) f1 f2
  | _, _ => false
  end.

(** types[i].as<IncompleteTypeNode>() *)
Definition as_IncompleteType (t : Type_) : bool :=
  match t with
  | IncompleteType _ => true
  | _ => false
  end.

(** Operator attributes.  [qnn.softmax] carries [SoftmaxAttrs]; its [axis]
    is a C++ [int]. *)
Inductive Attrs : Type :=
| SoftmaxAttrs (axis : Z)
| OtherAttrs.

(** attrs.as<SoftmaxAttrs>()->axis *)
Definition SoftmaxAttrs_axis (attrs : Attrs) : result Z :=
  match attrs with
  | SoftmaxAttrs axis => Ok axis
  | OtherAttrs => Fatal (NullDeref "attrs.as<SoftmaxAttrs>()")
  end.

(** ** The type reporter *)

(** [TypeReporter] is an interface of the host compiler; the relation only
    calls [Assign].  [resolve] reads back the type a slot stands for once
    the relation has run. *)
Class TypeReporter (R : Type) : Type := {
  Assign : Type_ -> Type_ -> R -> result R;
  resolve : R -> Type_ -> Type_
}.

(** Type relation functions: [bool f(types, num_inputs, attrs, reporter)]. *)
Definition TypeRelationFn (R : Type) : Type :=
  list Type_ -> Z -> Attrs -> R -> result (bool * R).

(** Modelled from the spec: [IsScalarType] of the qnn utilities is not in
    this file's source; the spec asks for a rank-0 tensor type of the given
    dtype. *)
Definition IsScalarType (t : Type_) (dtype : DataType) : bool :=
  match t with
  | TensorType [] d => DataType_eqb d dtype
  | _ => false
  end.

(** The shape of a tensor type ([None] for the other types). *)
Definition shape_of (t : Type_) : option (list IndexExpr) :=
  match t with
  | TensorType s _ => Some s
  | _ => None
  end.

Section Relation.
Context {R : Type} `{TypeReporter R}.

(** [IdentityRel] belongs to the host's type relations and is taken as a
    parameter. *)
Variable IdentityRel : TypeRelationFn R.

Definition QnnSoftmaxRel (types : list Type_) (num_inputs : Z)
    (attrs : Attrs) (reporter : R) : result (bool * R) :=
  (* Expected Types: input, scale, zero_point, output_scale,
     output_zero_point, output *)
  ICHECK (Nat.eqb (List.length types) 6) "types.size() == 6" ;;;
  match types with
  | [t0; t1; t2; t3; t4; t5] =>
      match t0 with
      | TensorType x_shape x_dtype =>
          ICHECK (DataType_eqb x_dtype (Int 8))
            "Expected quantized softmax type(int8) for input" ;;;
          (* Check the types of scale and zero points. *)
          if existsb as_IncompleteType [t1; t2; t3; t4] then
            Ok (false, reporter)
          else
            ICHECK (IsScalarType t1 (Float 32)) "IsScalarType(types[1], Float(32))" ;;;
            ICHECK (IsScalarType t2 (Int 32)) "IsScalarType(types[2], Int(32))" ;;;
            ICHECK (IsScalarType t3 (Float 32)) "IsScalarType(types[3], Float(32))" ;;;
            ICHECK (IsScalarType t4 (Int 32)) "IsScalarType(types[4], Int(32))" ;;;
            (* Assign types for scale and zero points. *)
            r1 <- Assign t1 (TensorType [] (Float 32)) reporter ;;
            r2 <- Assign t2 (TensorType [] (Int 32)) r1 ;;
            r3 <- Assign t3 (TensorType [] (Float 32)) r2 ;;
            r4 <- Assign t4 (TensorType [] (Int 32)) r3 ;;
            (* Reuse the identity relation on input and output. *)
            IdentityRel [t0; t5] 2 attrs r4
      | _ => Ok (false, reporter)
      end
  | _ => Fatal (CheckFailed "types.size() == 6")
  end.
End Relation.

(** *** A concrete reporter *)

(** Modelled from the spec: the host's type solver is not in this file's
    source.  Placeholders are resolved through a substitution; assigning to
    an unresolved placeholder binds it, assigning between resolved types
    succeeds when they are equal and is a fatal type error otherwise. *)
Definition Solver : Type := list (nat * Type_).

Fixpoint solver_lookup (n : nat) (s : Solver) : option Type_ :=
  match s with
  | [] => None
  | (k, t) :: s' => if Nat.eqb k n then Some t else solver_lookup n s'
  end.

Definition solver_resolve (s : Solver) (t : Type_) : Type_ :=
  match t with
  | IncompleteType n =>
      match solver_lookup n s with
      | Some t' => t'
      | None => t
      end
  | _ => t
  end.

(** Binding placeholder [n] to [t] also rewrites the placeholders already
    bound to [n], so that one lookup resolves a slot. *)
Definition solver_subst (n : nat) (t u : Type_) : Type_ :=
  match u with
  | IncompleteType j => if Nat.eqb j n then t else u
  | _ => u
  end.

Definition solver_bind (n : nat) (t : Type_) (s : Solver) : Solver :=
  (n, t) :: map (fun p => (fst p, solver_subst n t (snd p))) s.

Definition solver_assign (dst src : Type_) (s : Solver) : result Solver :=
  match solver_resolve s dst, solver_resolve s src with
  | IncompleteType n, IncompleteType k =>
      if Nat.eqb n k then Ok s else Ok (solver_bind n (IncompleteType k) s)
  | IncompleteType n, t => Ok (solver_bind n t s)
  | t, IncompleteType k => Ok (solver_bind k t s)
  | t1, t2 => if Type_eqb t1 t2 then Ok s else Fatal UnifyFailed
  end.

#[export] Instance Solver_reporter : TypeReporter Solver := {
  Assign := solver_assign;
  resolve := solver_resolve
}.

(** Modelled from the spec: the identity-shape rule of the host ("output
    must have the same shape as input").  Every later slot is assigned the
    type of the first; the attributes are not read. *)
Definition IdentityRel : TypeRelationFn Solver :=
  fun types num_inputs attrs reporter =>
    match types with
    | [] => Ok (true, reporter)
    | t0 :: rest =>
        r <- fold_left (fun acc ti => r <- acc ;; Assign ti t0 r) rest (Ok reporter) ;;
        Ok (true, r)
    end.

(** ** Integers and floats of the generated code *)

(** Two's complement wrap-around of [z] to a signed [bits]-wide integer. *)
Definition wrap (bits z : Z) : Z :=
  (z + 2 ^ (bits - 1)) mod 2 ^ bits - 2 ^ (bits - 1).

Definition in_range (bits z : Z) : bool :=
  (- 2 ^ (bits - 1) <=? z) && (z <? 2 ^ (bits - 1)).

(** IEEE binary32, on the Standard Library's specification floats. *)
Definition float32 : Type := spec_float.
Definition prec32 : Z := 24.
Definition emax32 : Z := 128.

Definition f32_of_Z (z : Z) : float32 := binary_normalize prec32 emax32 z 0 false.
Definition f32_one : float32 := SFone prec32 emax32.
Definition f32_div : float32 -> float32 -> float32 := SFdiv prec32 emax32.

(** The rational a finite float stands for. *)
Definition f32_to_Q (f : float32) : option Q :=
  match f with
  | S754_zero _ => Some (0 # 1)
  | S754_finite s m e =>
      let mag := if 0 <=? e then (Zpos m * 2 ^ e) # 1
                 else Zpos m # Z.to_pos (2 ^ (- e)) in
      Some (if s then Qopp mag else mag)
  | _ => None
  end.

(** Conversion to an integer: the fraction is dropped (toward zero);
    infinities and NaN have no integer value. *)
Definition f32_to_Z (f : float32) : option Z :=
  match f with
  | S754_zero _ => Some 0
  | S754_finite s m e =>
      let mag := Z.shiftl (Zpos m) e in
      Some (if s then - mag else mag)
  | _ => None
  end.

(** Modelled from the spec: the [round] operator is not in this file's
    source and the spec only says "round"; nearest integer, a tie going
    away from zero as C's [roundf] does. *)
Definition f32_round (f : float32) : float32 :=
  match f with
  | S754_finite s m e =>
      if 0 <=? e then f
      else
        let i := Z.shiftr (Zpos m + Z.shiftl 1 (- e - 1)) (- e) in
        binary_normalize prec32 emax32 (if s then - i else i) 0 s
  | _ => f
  end.

(** ** Tensors: a shape and a row-major buffer *)

Record tensor (A : Type) : Type := mkTensor {
  shape : list nat;
  data : list A
}.

Arguments mkTensor {A} shape data.
Arguments shape {A} t.
Arguments data {A} t.

Definition scalar {A : Type} (a : A) : tensor A := mkTensor [] [a].

Definition numel (s : list nat) : nat := fold_right Nat.mul 1%nat s.

(** A buffer fits its shape. *)
Definition well_formed {A : Type} (t : tensor A) : Prop :=
  List.length (data t) = numel (shape t).

(** Flat position to multi-index and back. *)
Fixpoint unravel (s : list nat) (i : nat) : list nat :=
  match s with
  | [] => []
  | d :: s' => ((i / numel s') mod d)%nat :: unravel s' (i mod numel s')%nat
  end.

Fixpoint ravel (s idx : list nat) : nat :=
  match s, idx with
  | d :: s', j :: idx' => (j * numel s' + ravel s' idx')%nat
  | _, _ => 0%nat
  end.

Fixpoint set_nth {A : Type} (k : nat) (a : A) (l : list A) : list A :=
  match k, l with
  | O, _ :: l' => a :: l'
  | S k', x :: l' => x :: set_nth k' a l'
  | _, [] => []
  end.

(** Modelled from the spec: the runtime's broadcasting is not in this
    file's source ("broadcasting the reduced axis back with size 1 where
    needed").  Shapes are aligned at their last dimension; a dimension of
    size 1 stretches. *)
Definition pad_shape (n : nat) (s : list nat) : list nat :=
  repeat 1%nat (n - List.length s) ++ s.

Fixpoint broadcast_dims (a b : list nat) : option (list nat) :=
  match a, b with
  | [], [] => Some []
  | x :: a', y :: b' =>
      match broadcast_dims a' b' with
      | None => None
      | Some r =>
          if Nat.eqb x y then Some (x :: r)
          else if Nat.eqb x 1 then Some (y :: r)
          else if Nat.eqb y 1 then Some (x :: r)
          else None
      end
  | _, _ => None
  end.

Definition broadcast_shape (a b : list nat) : option (list nat) :=
  let n := Nat.max (List.length a) (List.length b) in
  broadcast_dims (pad_shape n a) (pad_shape n b).

Fixpoint clamp (s idx : list nat) : list nat :=
  match s, idx with
  | d :: s', j :: idx' => (if Nat.eqb d 1 then O else j) :: clamp s' idx'
  | _, _ => []
  end.

(** The index into an operand of shape [s] that feeds output index [idx]. *)
Definition bidx (s idx : list nat) : list nat :=
  clamp s (skipn (List.length idx - List.length s) idx).

Definition tget {A : Type} (t : tensor A) (idx : list nat) : result A :=
  match nth_error (data t) (ravel (shape t) (bidx (shape t) idx)) with
  | Some a => Ok a
  | None => Fatal IndexOutOfRange
  end.

(** The tensor of shape [s] whose element at [idx] is [g idx]; it fails as
    soon as one element does. *)
Definition build {A : Type} (s : list nat) (g : list nat -> result A)
  : result (tensor A) :=
  l <- mapM (fun i => g (unravel s i)) (seq 0 (numel s)) ;;
  Ok (mkTensor s l).

Definition tmapM {A B : Type} (f : A -> result B) (t : tensor A)
  : result (tensor B) :=
  l <- mapM f (data t) ;; Ok (mkTensor (shape t) l).

Definition broadcast2 {A B C : Type} (f : A -> B -> result C)
    (a : tensor A) (b : tensor B) : result (tensor C) :=
  match broadcast_shape (shape a) (shape b) with
  | None => Fatal ShapeMismatch
  | Some s => build s (fun idx => x <- tget a idx ;; y <- tget b idx ;; f x y)
  end.

(** Modelled from the spec: the reduction kernels are not in this file's
    source.  Reduction over one axis, the axis kept with size 1. *)
Definition reduce {A : Type} (f : A -> A -> A) (init : A) (axis : nat)
    (t : tensor A) : result (tensor A) :=
  match nth_error (shape t) axis with
  | None => Fatal AxisOutOfRange
  | Some d =>
      build (set_nth axis 1%nat (shape t))
        (fun idx =>
           vs <- mapM (fun j => tget t (set_nth axis j idx)) (seq 0 d) ;;
           Ok (fold_left f vs init))
  end.

(** A negative axis counts from the last dimension. *)
Definition real_axis (rank : nat) (axis : Z) : result nat :=
  let a := if axis <? 0 then axis + Z.of_nat rank else axis in
  if (0 <=? a) && (a <? Z.of_nat rank) then Ok (Z.to_nat a)
  else Fatal AxisOutOfRange.

(** ** Values and operators of the generated code *)

(** A runtime value: a signed integer tensor of some width, or a float32
    tensor. *)
Inductive Value : Type :=
| VInt (bits : Z) (t : tensor Z)
| VFloat (t : tensor float32).

Inductive Literal : Type :=
| LInt (v : Z)
| LFloat (v : float32).

Inductive BinOp : Type :=
| OpAdd | OpSubtract | OpMultiply | OpDivide | OpLeftShift | OpRightShift.

Inductive ReduceOp : Type :=
| RMax | RSum.

(** Modelled from the spec: the operators' kernels are not in this file's
    source.  Integer arithmetic wraps around; division truncates toward
    zero and a zero divisor is an error; shifts are arithmetic and defined
    for amounts from 0 to the width less one. *)
Definition int_binop (op : BinOp) (bits a b : Z) : result Z :=
  match op with
  | OpAdd => Ok (wrap bits (a + b))
  | OpSubtract => Ok (wrap bits (a - b))
  | OpMultiply => Ok (wrap bits (a * b))
  | OpDivide =>
      if b =? 0 then Fatal DivideByZero else Ok (wrap bits (Z.quot a b))
  | OpLeftShift =>
      if (0 <=? b) && (b <? bits) then Ok (wrap bits (Z.shiftl a b))
      else Fatal ShiftOutOfRange
  | OpRightShift =>
      if (0 <=? b) && (b <? bits) then Ok (Z.shiftr a b)
      else Fatal ShiftOutOfRange
  end.

Definition float_binop (op : BinOp) (a b : float32) : result float32 :=
  match op with
  | OpAdd => Ok (SFadd prec32 emax32 a b)
  | OpSubtract => Ok (SFsub prec32 emax32 a b)
  | OpMultiply => Ok (SFmul prec32 emax32 a b)
  | OpDivide => Ok (f32_div a b)
  | _ => Fatal (IllTyped "shift of floats")
  end.

Definition binary (op : BinOp) (va vb : Value) : result Value :=
  match va, vb with
  | VInt b1 t1, VInt b2 t2 =>
      if b1 =? b2 then
        t <- broadcast2 (int_binop op b1) t1 t2 ;; Ok (VInt b1 t)
      else Fatal (IllTyped "operand widths differ")
  | VFloat t1, VFloat t2 =>
      t <- broadcast2 (float_binop op) t1 t2 ;; Ok (VFloat t)
  | _, _ => Fatal (IllTyped "integer and float operands")
  end.

Definition negative (v : Value) : result Value :=
  match v with
  | VInt b t => t' <- tmapM (fun a => Ok (wrap b (- a))) t ;; Ok (VInt b t')
  | VFloat t => t' <- tmapM (fun a => Ok (SFopp a)) t ;; Ok (VFloat t')
  end.

Definition round (v : Value) : result Value :=
  match v with
  | VInt b t => Ok (VInt b t)
  | VFloat t => t' <- tmapM (fun a => Ok (f32_round a)) t ;; Ok (VFloat t')
  end.

(** Modelled from the spec: the cast kernel is not in this file's source.
    Integers are widened or wrapped to the target width; a float becomes
    the integer it holds when that fits the target, and the conversion is
    an error otherwise. *)
Definition cast_f32_to_int (bits : Z) (f : float32) : result Z :=
  match f32_to_Z f with
  | Some z => if in_range bits z then Ok z else Fatal CastOutOfRange
  | None => Fatal CastOutOfRange
  end.

Definition cast (v : Value) (dtype : DataType) : result Value :=
  match v, dtype with
  | VInt _ t, Int b => t' <- tmapM (fun a => Ok (wrap b a)) t ;; Ok (VInt b t')
  | VFloat t, Int b => t' <- tmapM (cast_f32_to_int b) t ;; Ok (VInt b t')
  | VInt _ t, Float 32 => t' <- tmapM (fun a => Ok (f32_of_Z a)) t ;; Ok (VFloat t')
  | VFloat t, Float 32 => Ok (VFloat t)
  | _, _ => Fatal (Unsupported "cast target")
  end.

(** Modelled from the spec: [max] and [sum] as the lowering calls them, over
    one axis with [keepdims = true] and [exclude = false]; other settings
    are outside this model.  The sum wraps around like every other 64-bit
    addition. *)
Definition reduce_value (op : ReduceOp) (axis : list Z) (keepdims exclude : bool)
    (v : Value) : result Value :=
  match v, axis, keepdims, exclude with
  | VInt b t, [ax], true, false =>
      k <- real_axis (List.length (shape t)) ax ;;
      t' <- match op with
            | RMax => reduce Z.max (- 2 ^ (b - 1)) k t
            | RSum => reduce (fun acc a => wrap b (acc + a)) 0 k t
            end ;;
      Ok (VInt b t')
  | VFloat _, [ax], true, false => Fatal (Unsupported "float reduction")
  | _, _, _, _ => Fatal (Unsupported "reduction attributes")
  end.

Definition literal_int (bits : Z) (l : Literal) : result Z :=
  match l with
  | LInt v => Ok (wrap bits v)
  | LFloat f => cast_f32_to_int bits f
  end.

Definition literal_f32 (l : Literal) : result float32 :=
  match l with
  | LInt v => Ok (f32_of_Z v)
  | LFloat f => Ok f
  end.

Definition constant_value (dtype : DataType) (s : list nat) (l : list Literal)
  : result Value :=
  match dtype with
  | Int b => l' <- mapM (literal_int b) l ;; Ok (VInt b (mkTensor s l'))
  | Float 32 => l' <- mapM literal_f32 l ;; Ok (VFloat (mkTensor s l'))
  | _ => Fatal (Unsupported "constant dtype")
  end.

(** ** Expressions *)

(** The Relay expressions the lowering handles and builds.  [Requantize] is
    the call of the external requantization helper, kept with its
    arguments. *)
Inductive Expr : Type :=
| Var (name : string)
| Constant (dtype : DataType) (shape : list nat) (data : list Literal)
| Cast (e : Expr) (dtype : DataType)
| Add (a b : Expr)
| Subtract (a b : Expr)
| Multiply (a b : Expr)
| Divide (a b : Expr)
| LeftShift (a b : Expr)
| RightShift (a b : Expr)
| Negative (a : Expr)
| Round (a : Expr)
| Max (e : Expr) (axis : list Z) (keepdims exclude : bool)
| Sum (e : Expr) (axis : list Z) (keepdims exclude : bool)
| Requantize (data : Expr) (input_shape : list IndexExpr)
    (input_scale input_zero_point output_scale output_zero_point : Expr)
    (out_dtype : DataType) (axis : Z).

(** MakeConstantScalar(dtype, value): a rank-0 constant. *)
Definition MakeConstantScalar (dtype : DataType) (value : Literal) : Expr :=
  Constant dtype [] [value].

Definition Env : Type := string -> option Value.

(** Modelled from the spec: the executor is not in this file's source.  An
    expression is evaluated operands first, left to right; the first
    failure ends the evaluation. *)
Fixpoint eval (env : Env) (e : Expr) : result Value :=
  match e with
  | Var name =>
      match env name with
      | Some v => Ok v
      | None => Fatal (Unbound name)
      end
  | Constant dtype s l => constant_value dtype s l
  | Cast a dtype => v <- eval env a ;; cast v dtype
  | Add a b => va <- eval env a ;; vb <- eval env b ;; binary OpAdd va vb
  | Subtract a b => va <- eval env a ;; vb <- eval env b ;; binary OpSubtract va vb
  | Multiply a b => va <- eval env a ;; vb <- eval env b ;; binary OpMultiply va vb
  | Divide a b => va <- eval env a ;; vb <- eval env b ;; binary OpDivide va vb
  | LeftShift a b => va <- eval env a ;; vb <- eval env b ;; binary OpLeftShift va vb
  | RightShift a b => va <- eval env a ;; vb <- eval env b ;; binary OpRightShift va vb
  | Negative a => v <- eval env a ;; negative v
  | Round a => v <- eval env a ;; round v
  | Max a axis keepdims exclude =>
      v <- eval env a ;; reduce_value RMax axis keepdims exclude v
  | Sum a axis keepdims exclude =>
      v <- eval env a ;; reduce_value RSum axis keepdims exclude v
  | Requantize _ _ _ _ _ _ _ _ => Fatal (Unsupported "qnn.requantize")
  end.

(** Modelled from the spec: Relay's typing of these operators is not in
    this file's source.  Binary operators want operands of one dtype and
    give it back; [Cast] gives its target; unary operators and reductions
    keep the dtype. *)
Definition dtype_binary (d1 d2 : option DataType) : option DataType :=
  match d1, d2 with
  | Some a, Some b => if DataType_eqb a b then Some a else None
  | _, _ => None
  end.

Fixpoint dtype_of (tenv : string -> option DataType) (e : Expr)
  : option DataType :=
  match e with
  | Var name => tenv name
  | Constant dtype _ _ => Some dtype
  | Cast a dtype =>
      match dtype_of tenv a with
      | Some _ => Some dtype
      | None => None
      end
  | Add a b | Subtract a b | Multiply a b | Divide a b
  | LeftShift a b | RightShift a b =>
      dtype_binary (dtype_of tenv a) (dtype_of tenv b)
  | Negative a | Round a => dtype_of tenv a
  | Max a _ _ _ | Sum a _ _ _ => dtype_of tenv a
  | Requantize d _ _ _ _ _ out_dtype _ =>
      match dtype_of tenv d with
      | Some _ => Some out_dtype
      | None => None
      end
  end.

(** The target dtypes of the [Cast] nodes of an expression, outermost
    first. *)
Fixpoint cast_targets (e : Expr) : list DataType :=
  match e with
  | Var _ | Constant _ _ _ => []
  | Cast a dtype => dtype :: cast_targets a
  | Add a b | Subtract a b | Multiply a b | Divide a b
  | LeftShift a b | RightShift a b => cast_targets a ++ cast_targets b
  | Negative a | Round a => cast_targets a
  | Max a _ _ _ | Sum a _ _ _ => cast_targets a
  | Requantize d _ s z os oz _ _ =>
      cast_targets d ++ cast_targets s ++ cast_targets z
        ++ cast_targets os ++ cast_targets oz
  end.

(** Every node of an expression, the expression itself first. *)
Fixpoint subterms (e : Expr) : list Expr :=
  e :: match e with
       | Var _ | Constant _ _ _ => []
       | Cast a _ | Negative a | Round a | Max a _ _ _ | Sum a _ _ _ => subterms a
       | Add a b | Subtract a b | Multiply a b | Divide a b
       | LeftShift a b | RightShift a b => subterms a ++ subterms b
       | Requantize d _ s z os oz _ _ =>
           subterms d ++ subterms s ++ subterms z ++ subterms os ++ subterms oz
       end.

(** ** The lowering *)

Module Softmax.

Section Locals.
(* new_args[0], new_args[1], new_args[2], new_args[3], new_args[4] *)
Variables data input_scale input_zero_point output_scale output_zero_point : Expr.
(* attrs.as<SoftmaxAttrs>()->axis *)
Variable axis : Z.
(* arg_types[0].as<TensorTypeNode>()->shape *)
Variable input_shape : list IndexExpr.

Definition const_i64 (val : Z) : Expr := MakeConstantScalar (Int 64) (LInt val).

Definition quantized_data : Expr :=
  Subtract (Cast data (Int 64)) (Cast input_zero_point (Int 64)).

Definition x_0 : Expr :=
  Cast (Round (Divide (MakeConstantScalar (Float 32) (LFloat f32_one)) input_scale))
       (Int 64).
Definition max : Expr := Max quantized_data [axis] true false.
Definition x : Expr := Subtract quantized_data max.

Definition n : Z := 30.
Definition m : Z := 60.
Definition bits : Z := 8.
Definition x_p : Expr :=
  Subtract (Add x (RightShift x (const_i64 1))) (RightShift x (const_i64 4)).
Definition q : Expr := Divide x_p (Negative x_0).
Definition r : Expr := Subtract x_p (Multiply q (Negative x_0)).
Definition x_b : Expr := Add (RightShift r (const_i64 1)) x_0.
Definition exps : Expr := LeftShift x_b (Subtract (const_i64 n) q).
Definition sums : Expr := Sum exps [axis] true false.
Definition output : Expr :=
  RightShift (Multiply (Divide (const_i64 (Z.shiftl 1 m)) sums) exps)
             (const_i64 (m - bits)).
Definition requantized : Expr :=
  Requantize (Cast output (Int 32)) input_shape
    (MakeConstantScalar (Float 32)
       (LFloat (f32_div f32_one (f32_of_Z (Z.shiftl 1 bits)))))
    (const_i64 0) output_scale output_zero_point (Int bits) 0.
End Locals.

End Softmax.

(** Canonicalizes the QNN softmax op. *)
Definition QnnSoftmaxCanonicalize (attrs : Attrs) (new_args : list Expr)
    (arg_types : list Type_) : result Expr :=
  (* Expected: input, scale, zero_point, output_scale, output_zero_point *)
  ICHECK (Nat.eqb (List.length new_args) 5) "new_args.size() == 5" ;;;
  match new_args with
  | [data; input_scale; input_zero_point; output_scale; output_zero_point] =>
      axis <- SoftmaxAttrs_axis attrs ;;
      input_shape <-
        match nth_error arg_types 0 with
        | None => Fatal (IndexError "arg_types[0]")
        | Some (TensorType s _) => Ok s
        | Some _ => Fatal (NullDeref "arg_types[0].as<TensorTypeNode>()")
        end ;;
      Ok (Softmax.requantized data input_scale input_zero_point
            output_scale output_zero_point axis input_shape)
  | _ => Fatal (CheckFailed "new_args.size() == 5")
  end.

(** ** The algorithm as the specification words it *)

(** The integer sequence of the specification, step by step, on runtime
    values in the 64-bit signed domain; every step is kept so that the
    stages of the lowered expression can be compared with it. *)
Module Spec.

Definition n : Z := 30.
Definition m : Z := 60.
Definition bits : Z := 8.

Definition i64 (c : Z) : Value := VInt 64 (scalar c).
Definition int64 (v : Value) : result Value := cast v (Int 64).
Definition sub : Value -> Value -> result Value := binary OpSubtract.
Definition add : Value -> Value -> result Value := binary OpAdd.
Definition mul : Value -> Value -> result Value := binary OpMultiply.
Definition div : Value -> Value -> result Value := binary OpDivide.
Definition shr : Value -> Value -> result Value := binary OpRightShift.
Definition shl : Value -> Value -> result Value := binary OpLeftShift.
Definition reduce_max (v : Value) (axis : Z) : result Value :=
  reduce_value RMax [axis] true false v.
Definition reduce_sum (v : Value) (axis : Z) : result Value :=
  reduce_value RSum [axis] true false v.

Record stages : Type := {
  centered : Value;
  x : Value;
  x_p : Value;
  x0 : Value;
  q : Value;
  r : Value;
  x_b : Value;
  exps : Value;
  output_wide : Value
}.

Definition softmax (operand scale_in zero_point_in : Value) (axis : Z)
  : result stages :=
  (* centered = int64(data) - int64(zero_point_in) *)
  wide_operand <- int64 operand ;;
  wide_zero_point <- int64 zero_point_in ;;
  centered <- sub wide_operand wide_zero_point ;;
  (* x = centered - reduce_max(centered, axis, keepdims) *)
  mx <- reduce_max centered axis ;;
  x <- sub centered mx ;;
  (* x_p = x + (x >> 1) - (x >> 4) *)
  x1 <- shr x (i64 1) ;;
  s1 <- add x x1 ;;
  x4 <- shr x (i64 4) ;;
  x_p <- sub s1 x4 ;;
  (* x0 = int64(round(1 / scale_in)) *)
  inv <- div (VFloat (scalar f32_one)) scale_in ;;
  rnd <- round inv ;;
  x0 <- int64 rnd ;;
  (* q = x_p / (-x0), r = x_p - q * (-x0) *)
  neg_x0 <- negative x0 ;;
  q <- div x_p neg_x0 ;;
  qd <- mul q neg_x0 ;;
  r <- sub x_p qd ;;
  (* x_b = (r >> 1) + x0 *)
  r1 <- shr r (i64 1) ;;
  x_b <- add r1 x0 ;;
  (* exps = x_b << (n - q) *)
  sh <- sub (i64 n) q ;;
  exps <- shl x_b sh ;;
  (* output_wide = ((1 << m) / reduce_sum(exps, axis, keepdims)) * exps
                   >> (m - bits) *)
  sum_exp <- reduce_sum exps axis ;;
  recip <- div (i64 (Z.shiftl 1 m)) sum_exp ;;
  scaled <- mul recip exps ;;
  out <- shr scaled (i64 (m - bits)) ;;
  Ok {| centered := centered; x := x; x_p := x_p; x0 := x0; q := q; r := r;
        x_b := x_b; exps := exps; output_wide := out |}.

End Spec.

(** ** The stages at one element *)

(** What the evaluator computes at one element of the stages after the
    maximum has been subtracted, from the shifted value [v] there and the
    reciprocal-scale constant [x0]. *)
Module Elem.

Definition x_p (v : Z) : Z :=
  wrap 64 (wrap 64 (v + Z.shiftr v 1) - Z.shiftr v 4).
Definition q (x0 v : Z) : Z := wrap 64 (Z.quot (x_p v) (wrap 64 (- x0))).
Definition r (x0 v : Z) : Z :=
  wrap 64 (x_p v - wrap 64 (q x0 v * wrap 64 (- x0))).
Definition x_b (x0 v : Z) : Z := wrap 64 (Z.shiftr (r x0 v) 1 + x0).
Definition shift (x0 v : Z) : Z := wrap 64 (Softmax.n - q x0 v).
Definition exps (x0 v : Z) : Z := wrap 64 (Z.shiftl (x_b x0 v) (shift x0 v)).

End Elem.

(** ** Auxiliary definitions for the statements *)

(** The call stopped on a failed ICHECK. *)
Definition check_fails {A : Type} (r : result A) : Prop :=
  exists what, r = Fatal (CheckFailed what).

(** The contract of an identity-shape rule: when it accepts an input tensor
    type and an output slot, the slot resolves to a type of the input's
    shape. *)
Definition identity_shape_rule {R : Type} `{TypeReporter R}
    (rel : TypeRelationFn R) : Prop :=
  forall s d tout num_inputs attrs r r',
    rel [TensorType s d; tout] num_inputs attrs r = Ok (true, r') ->
    shape_of (resolve r' tout) = Some s.

(** A relation that does not read its attributes. *)
Definition ignores_attrs {R : Type} (rel : TypeRelationFn R) : Prop :=
  forall types num_inputs attrs1 attrs2 r,
    rel types num_inputs attrs1 r = rel types num_inputs attrs2 r.

(** The canonical scalar types of the four quantization parameters, and
    the four assignments the relation makes itself. *)
Definition scalar_f32 : Type_ := TensorType [] (Float 32).
Definition scalar_i32 : Type_ := TensorType [] (Int 32).

Definition assign_parameters {R : Type} `{TypeReporter R}
    (t1 t2 t3 t4 : Type_) (reporter : R) : result R :=
  r1 <- Assign t1 scalar_f32 reporter ;;
  r2 <- Assign t2 scalar_i32 r1 ;;
  r3 <- Assign t3 scalar_f32 r2 ;;
  Assign t4 scalar_i32 r3.

(** [idx] is an index into a tensor of shape [s]. *)
Definition valid_index (s idx : list nat) : Prop :=
  Forall2 (fun d j => (j < d)%nat) s idx.

(** [s2] is [s] with some dimensions collapsed to 1. *)
Definition stretches_to (s2 s : list nat) : Prop :=
  Forall2 (fun a b => b = a \/ b = 1%nat) s s2.

Definition int64_range (z : Z) : Prop :=
  - 9223372036854775808 <= z < 9223372036854775808.

(** The element at position [i] is strictly larger than every other. *)
Definition largest_at (i : nat) (l : list Z) : bool :=
  match nth_error l i with
  | Some a =>
      forallb (fun p => Nat.eqb (fst p) i || (snd p <? a))
              (combine (seq 0 (List.length l)) l)
  | None => false
  end.

(** *** Inputs of the examples *)

(** The environment in which the operand is the free variable [data]. *)
Definition env_data (v : Value) : Env :=
  fun name => if String.eqb name "data" then Some v else None.

Definition int8_tensor (s : list nat) (l : list Z) : Value := VInt 8 (mkTensor s l).

Definition f32_const (f : float32) : Expr := MakeConstantScalar (Float 32) (LFloat f).
Definition i32_const (z : Z) : Expr := MakeConstantScalar (Int 32) (LInt z).

(** float32 scales: 1/256, 1/16, 1 and 4. *)
Definition scale_1_256 : float32 := f32_div f32_one (f32_of_Z 256).
Definition scale_1_16 : float32 := f32_div f32_one (f32_of_Z 16).
Definition scale_1 : float32 := f32_one.
Definition scale_4 : float32 := f32_of_Z 4.

(** A node of the lowered expression is a node of one of the three
    arguments the integer part reads, or it is typed Int(64), or it belongs
    to the float32 reciprocal 1/scale that is rounded and cast into x_0. *)
Definition int64_node (tenv : string -> option DataType)
    (operand input_scale input_zero_point : Expr) (t : Expr) : Prop :=
  In t (subterms operand ++ subterms input_scale ++ subterms input_zero_point)
  \/ dtype_of tenv t = Some (Int 64)
  \/ In t [MakeConstantScalar (Float 32) (LFloat f32_one);
           Divide (MakeConstantScalar (Float 32) (LFloat f32_one)) input_scale;
           Round (Divide (MakeConstantScalar (Float 32) (LFloat f32_one))
                    input_scale)].

(** A well-typed list of relation arguments for an operand type [t0] and
    an output slot still to be inferred. *)
Definition relation_types (t0 : Type_) : list Type_ :=
  [t0; scalar_f32; scalar_i32; scalar_f32; scalar_i32; IncompleteType 0].
(** ** The constructor and the registration *)

(** A call node: Call(op, args, attrs, type_args).  The operator is named
    as Op::Get finds it. *)
Record CallNode : Type := Call {
  call_op : string;
  call_args : list Expr;
  call_attrs : Attrs;
  call_type_args : list Type_
}.

(** Positional relay function to create quantized softmax operator used by
    frontend FFI. *)
Definition MakeQuantizedSoftmax (x : Expr) (axis : Z)
    (scale zero_point output_scale output_zero_point : Expr) : CallNode :=
  let attrs := SoftmaxAttrs axis in
  Call "qnn.softmax" [x; scale; zero_point; output_scale; output_zero_point]
       attrs [].

(** What RELAY_REGISTER_OP("qnn.softmax") records. *)
Record OpRegistration : Type := {
  reg_name : string;
  reg_description : string;
  reg_num_inputs : nat;
  reg_arguments : list (string * string * string);
  reg_support_level : Z;
  reg_type_rel : string;
  reg_TNonComputational : bool;
  reg_FTVMQnnCanonicalize : Attrs -> list Expr -> list Type_ -> result Expr
}.

Definition qnn_softmax_registration : OpRegistration := {|
  reg_name := "qnn.softmax";
  reg_description := "Softmax for quantized tensors.";
  reg_num_inputs := 5;
  reg_arguments :=
    [("data", "Quantized Tensor", "The input data.");
     ("scale", "Tensor", "The quantization scale of the input tensor.");
     ("zero_point", "Tensor", "The quantization zero_point of the input tensor.");
     ("output_scale", "Tensor", "The quantization scale of the output tensor.");
     ("output_zero_point", "Tensor",
      "The quantization zero_point of the output tensor.")];
  reg_support_level := 11;
  reg_type_rel := "QSoftmax";
  reg_TNonComputational := true;
  reg_FTVMQnnCanonicalize := QnnSoftmaxCanonicalize
|}.

(** ** The stages in unbounded integers *)

(** The stages after the maximum has been subtracted, written with
    mathematical integers (floor division, no wrap-around), from the
    shifted value [v] and the reciprocal-scale constant [x0]. *)
Module Exact.

Definition x_p (v : Z) : Z := v + v / 2 - v / 16.
Definition q (x0 v : Z) : Z := (- x_p v) / x0.
Definition r (x0 v : Z) : Z := x_p v + q x0 v * x0.
Definition x_b (x0 v : Z) : Z := r x0 v / 2 + x0.
Definition exps (x0 v : Z) : Z := x_b x0 v * 2 ^ (Softmax.n - q x0 v).
(* the normalized value of an element [e] of a lane whose sum is [sum] *)
Definition output (sum e : Z) : Z :=
  Z.shiftr (2 ^ Softmax.m / sum * e) (Softmax.m - Softmax.bits).

End Exact.

Definition Zsum (l : list Z) : Z := fold_right Z.add 0 l.

(** * Properties *)

(** ** The type relation *)

Lemma list_eqb_IndexExpr_eq (s1 s2 : list IndexExpr) :
  list_eqb IndexExpr_eqb s1 s2 = true -> s1 = s2.
Proof.
  revert s2; induction s1 as [|a s1 IH]; intros [|b s2]; simpl;
    try discriminate; auto.
  intros E; apply andb_prop in E as [Eab E].
  f_equal; auto.
  destruct a, b; simpl in Eab; try discriminate; auto.
  apply Z.eqb_eq in Eab; congruence.
Qed.

Lemma DataType_eqb_eq (a b : DataType) : DataType_eqb a b = true <-> a = b.
Proof.
  split.
  - destruct a, b; simpl; try discriminate; intros E;
      apply Z.eqb_eq in E; congruence.
  - intros ->; destruct b; simpl; apply Z.eqb_refl.
Qed.

Lemma ICHECK_true (what : string) : ICHECK true what = Ok tt.
Proof. reflexivity. Qed.

Lemma ICHECK_false (what : string) : ICHECK false what = Fatal (CheckFailed what).
Proof. reflexivity. Qed.

Section RelationFacts.
Context {R : Type} `{TypeReporter R}.
Variable rel : TypeRelationFn R.

(** An input that is no tensor type leaves the relation unresolved. *)
Lemma QnnSoftmaxRel_not_tensor t0 t1 t2 t3 t4 t5 num_inputs attrs reporter :
  (forall s d, t0 <> TensorType s d) ->
  QnnSoftmaxRel rel [t0; t1; t2; t3; t4; t5] num_inputs attrs reporter
  = Ok (false, reporter).
Proof.
  intros Hnt. unfold QnnSoftmaxRel. simpl.
  destruct t0 as [s d| |]; [exfalso; eapply Hnt; reflexivity| |]; reflexivity.
Qed.

(** A tensor input of another dtype than int8 stops on the ICHECK. *)
Lemma QnnSoftmaxRel_wrong_dtype s d rest num_inputs attrs reporter :
  d <> Int 8 ->
  check_fails (QnnSoftmaxRel rel (TensorType s d :: rest) num_inputs attrs reporter).
Proof.
  intros Hd. unfold QnnSoftmaxRel.
  destruct (Nat.eqb (List.length (TensorType s d :: rest)) 6) eqn:E.
  - rewrite ICHECK_true. cbn [bind].
    destruct rest as [|t1 [|t2 [|t3 [|t4 [|t5 [|t6 rest]]]]]];
      try discriminate E.
    destruct (DataType_eqb d (Int 8)) eqn:Ed.
    + apply DataType_eqb_eq in Ed. contradiction.
    + rewrite ICHECK_false. eexists; reflexivity.
  - rewrite ICHECK_false. eexists; reflexivity.
Qed.

(** With an int8 input and all four parameter slots known, a scale that
    is not a float32 scalar stops on the ICHECK. *)
Lemma QnnSoftmaxRel_bad_scale s t1 t2 t3 t4 t5 num_inputs attrs reporter :
  existsb as_IncompleteType [t1; t2; t3; t4] = false ->
  IsScalarType t1 (Float 32) = false ->
  check_fails
    (QnnSoftmaxRel rel [TensorType s (Int 8); t1; t2; t3; t4; t5]
       num_inputs attrs reporter).
Proof.
  intros Hinc Hsc. unfold QnnSoftmaxRel.
  cbn [List.length Nat.eqb]. rewrite ICHECK_true. cbn [bind].
  change (DataType_eqb (Int 8) (Int 8)) with true.
  rewrite ICHECK_true. cbn [bind].
  rewrite Hinc, Hsc, ICHECK_false. eexists; reflexivity.
Qed.

(** What a successful run consists of. *)
Lemma QnnSoftmaxRel_success types num_inputs attrs reporter r' :
  QnnSoftmaxRel rel types num_inputs attrs reporter = Ok (true, r') ->
  exists s t1 t2 t3 t4 t5 r1 r2 r3 r4,
    types = [TensorType s (Int 8); t1; t2; t3; t4; t5]
    /\ Assign t1 scalar_f32 reporter = Ok r1
    /\ Assign t2 scalar_i32 r1 = Ok r2
    /\ Assign t3 scalar_f32 r2 = Ok r3
    /\ Assign t4 scalar_i32 r3 = Ok r4
    /\ rel [TensorType s (Int 8); t5] 2 attrs r4 = Ok (true, r').
Proof.
  unfold QnnSoftmaxRel.
  destruct types as [|t0 [|t1 [|t2 [|t3 [|t4 [|t5 [|t6 rest]]]]]]];
    try (cbn; discriminate).
  cbn [List.length Nat.eqb]. rewrite ICHECK_true. cbn [bind].
  destruct t0 as [s d| |]; try discriminate.
  destruct (DataType_eqb d (Int 8)) eqn:Ed; [|cbn; discriminate].
  apply DataType_eqb_eq in Ed; subst d.
  rewrite ICHECK_true. cbn [bind].
  destruct (existsb as_IncompleteType [t1; t2; t3; t4]); [discriminate|].
  destruct (IsScalarType t1 (Float 32)); [|cbn; discriminate].
  destruct (IsScalarType t2 (Int 32)); [|cbn; discriminate].
  destruct (IsScalarType t3 (Float 32)); [|cbn; discriminate].
  destruct (IsScalarType t4 (Int 32)); [|cbn; discriminate].
  rewrite !ICHECK_true. cbn [bind].
  destruct (Assign t1 _ reporter) as [r1|] eqn:E1; [|cbn; discriminate].
  cbn [bind].
  destruct (Assign t2 _ r1) as [r2|] eqn:E2; [|cbn; discriminate].
  cbn [bind].
  destruct (Assign t3 _ r2) as [r3|] eqn:E3; [|cbn; discriminate].
  cbn [bind].
  destruct (Assign t4 _ r3) as [r4|] eqn:E4; [|cbn; discriminate].
  cbn [bind]. intros Hrel.
  exists s, t1, t2, t3, t4, t5, r1, r2, r3, r4. repeat split; assumption.
Qed.

(** The relation hands its attributes to the identity rule and does
    nothing else with them. *)
Lemma QnnSoftmaxRel_attrs types num_inputs attrs1 attrs2 reporter :
  ignores_attrs rel ->
  QnnSoftmaxRel rel types num_inputs attrs1 reporter
  = QnnSoftmaxRel rel types num_inputs attrs2 reporter.
Proof.
  intros Hrel. unfold QnnSoftmaxRel.
  destruct (ICHECK _ _); cbn [bind]; [|reflexivity].
  destruct types as [|t0 [|t1 [|t2 [|t3 [|t4 [|t5 [|t6 rest]]]]]]];
    try reflexivity.
  destruct t0; try reflexivity.
  destruct (ICHECK _ _); cbn [bind]; [|reflexivity].
  destruct (existsb _ _); [reflexivity|].
  repeat (destruct (ICHECK _ _); cbn [bind]; [|reflexivity]).
  repeat (destruct (Assign _ _ _); cbn [bind]; [|reflexivity]).
  apply Hrel.
Qed.
End RelationFacts.

(** *** The concrete reporter meets the contracts *)

Lemma solver_lookup_subst k n t s :
  solver_lookup k (map (fun p => (fst p, solver_subst n t (snd p))) s)
  = option_map (solver_subst n t) (solver_lookup k s).
Proof.
  induction s as [|[j u] s IH]; simpl; [reflexivity|].
  destruct (Nat.eqb j k); [reflexivity|exact IH].
Qed.

Lemma solver_assign_tensor_shape tout s d r r' :
  solver_assign tout (TensorType s d) r = Ok r' ->
  shape_of (solver_resolve r' tout) = Some s.
Proof.
  unfold solver_assign.
  change (solver_resolve r (TensorType s d)) with (TensorType s d).
  destruct (solver_resolve r tout) as [s' d'|n|f] eqn:Eres.
  - (* the slot already stands for a tensor type *)
    destruct (Type_eqb (TensorType s' d') (TensorType s d)) eqn:Eq;
      [|discriminate].
    intros [= <-]. rewrite Eres. simpl in Eq.
    apply andb_prop in Eq as [Es _].
    apply list_eqb_IndexExpr_eq in Es. now subst.
  - (* the slot is an unresolved placeholder [n] *)
    intros [= <-].
    destruct tout as [s0 d0|k|f0]; try discriminate Eres.
    simpl in Eres. simpl.
    destruct (Nat.eqb n k) eqn:Enk.
    + reflexivity.
    + rewrite solver_lookup_subst.
      destruct (solver_lookup k r) as [u|] eqn:El.
      * subst u. simpl. now rewrite Nat.eqb_refl.
      * injection Eres as ->. now rewrite Nat.eqb_refl in Enk.
  - simpl. discriminate.
Qed.

Lemma IdentityRel_identity_shape_rule : identity_shape_rule IdentityRel.
Proof.
  intros s d tout num_inputs attrs r r'.
  unfold IdentityRel. cbn [fold_left bind Assign Solver_reporter].
  destruct (solver_assign tout (TensorType s d) r) as [r1|] eqn:E;
    [|discriminate].
  intros [= <-]. cbn [resolve Solver_reporter].
  eapply solver_assign_tensor_shape; eassumption.
Qed.

Lemma IdentityRel_ignores_attrs : ignores_attrs IdentityRel.
Proof. intros types num_inputs attrs1 attrs2 r. reflexivity. Qed.

(** ** Row-major indexing *)

Lemma valid_index_length s idx : valid_index s idx -> List.length idx = List.length s.
Proof. intros Hv. symmetry. eapply Forall2_length; eassumption. Qed.

Lemma unravel_valid s i : (i < numel s)%nat -> valid_index s (unravel s i).
Proof.
  revert i; induction s as [|d s IH]; intros i Hi; simpl.
  - constructor.
  - simpl in Hi.
    assert (Hd : (0 < d)%nat) by (destruct d; [simpl in Hi|]; lia).
    assert (Hn : (0 < numel s)%nat) by (destruct (numel s); [|lia]; nia).
    constructor.
    + apply Nat.mod_upper_bound; lia.
    + apply IH. apply Nat.mod_upper_bound; lia.
Qed.

Lemma ravel_lt s idx : valid_index s idx -> (ravel s idx < numel s)%nat.
Proof.
  induction 1 as [|d j s idx Hj _ IH]; simpl; [lia|nia].
Qed.

Lemma unravel_ravel s idx : valid_index s idx -> unravel s (ravel s idx) = idx.
Proof.
  induction 1 as [|d j s idx Hj Hv IH]; simpl; [reflexivity|].
  pose proof (ravel_lt s idx Hv) as Hr.
  assert (Hn : numel s <> 0%nat) by lia.
  f_equal.
  - rewrite Nat.div_add_l by assumption.
    rewrite (Nat.div_small (ravel s idx)) by assumption.
    rewrite Nat.add_0_r. apply Nat.mod_small; assumption.
  - rewrite Nat.add_comm, Nat.Div0.mod_add.
    rewrite Nat.mod_small by assumption. exact IH.
Qed.

Lemma ravel_unravel s i : (i < numel s)%nat -> ravel s (unravel s i) = i.
Proof.
  revert i; induction s as [|d s IH]; intros i Hi; simpl in *.
  - lia.
  - assert (Hn : (0 < numel s)%nat) by (destruct (numel s); [|lia]; nia).
    rewrite IH by (apply Nat.mod_upper_bound; lia).
    rewrite Nat.mod_small.
    + pose proof (Nat.div_mod_eq i (numel s)). lia.
    + apply Nat.Div0.div_lt_upper_bound. lia.
Qed.

Lemma clamp_valid s idx : valid_index s idx -> clamp s idx = idx.
Proof.
  induction 1 as [|d j s idx Hj _ IH]; simpl; [reflexivity|].
  rewrite IH. destruct (Nat.eqb_spec d 1); [|reflexivity].
  f_equal. lia.
Qed.

Lemma bidx_same_length s idx :
  List.length idx = List.length s -> bidx s idx = clamp s idx.
Proof. intros E. unfold bidx. rewrite E, Nat.sub_diag. reflexivity. Qed.

Lemma bidx_valid s idx : valid_index s idx -> bidx s idx = idx.
Proof.
  intros Hv. rewrite bidx_same_length by (apply valid_index_length; exact Hv).
  apply clamp_valid; exact Hv.
Qed.

(** Indices along the reduced axis. *)
Lemma set_nth_length {A : Type} k (a : A) l : List.length (set_nth k a l) = List.length l.
Proof.
  revert k; induction l as [|x l IH]; intros [|k]; simpl; auto.
Qed.

Lemma clamp_reduced_valid k s idx :
  valid_index s idx -> (k < List.length s)%nat ->
  valid_index (set_nth k 1%nat s) (clamp (set_nth k 1%nat s) idx).
Proof.
  intros Hv; revert k; induction Hv as [|d j s idx Hj Hv IH]; intros k Hk;
    simpl in Hk; [lia|].
  destruct k as [|k]; simpl.
  - constructor; [lia|]. rewrite clamp_valid by exact Hv. exact Hv.
  - constructor.
    + destruct (Nat.eqb_spec d 1); lia.
    + apply IH; lia.
Qed.

Lemma set_nth_reduced_valid k s d j idx :
  valid_index (set_nth k 1%nat s) idx -> nth_error s k = Some d -> (j < d)%nat ->
  valid_index s (set_nth k j idx).
Proof.
  revert k idx; induction s as [|e s IH]; intros k idx Hv Hk Hj.
  - destruct k; discriminate Hk.
  - destruct k as [|k]; simpl in *.
    + injection Hk as ->. inversion Hv; subst. constructor; assumption.
    + inversion Hv; subst. constructor; [assumption|]. eapply IH; eassumption.
Qed.

Lemma set_nth_clamp_reduced k s idx j :
  valid_index s idx -> nth_error idx k = Some j ->
  set_nth k j (clamp (set_nth k 1%nat s) idx) = idx.
Proof.
  intros Hv; revert k; induction Hv as [|d i s idx Hi Hv IH]; intros k Hk.
  - destruct k; discriminate Hk.
  - destruct k as [|k]; simpl in *.
    + injection Hk as ->. rewrite clamp_valid by exact Hv. reflexivity.
    + rewrite IH by exact Hk.
      destruct (Nat.eqb_spec d 1); [|reflexivity]. f_equal. lia.
Qed.

Lemma valid_index_nth s idx k d :
  valid_index s idx -> nth_error s k = Some d ->
  exists j, nth_error idx k = Some j /\ (j < d)%nat.
Proof.
  intros Hv; revert k; induction Hv as [|e i s idx Hi Hv IH]; intros k Hk.
  - destruct k; discriminate Hk.
  - destruct k as [|k]; simpl in *.
    + injection Hk as ->. eauto.
    + apply IH; exact Hk.
Qed.

(** ** Building tensors *)

Lemma mapM_Forall2 {A B : Type} (f : A -> result B) l l' :
  mapM f l = Ok l' <-> Forall2 (fun a b => f a = Ok b) l l'.
Proof.
  revert l'; induction l as [|a l IH]; intros l'; simpl.
  - split.
    + intros [= <-]. constructor.
    + intros Hf. inversion Hf. reflexivity.
  - split.
    + destruct (f a) as [b|] eqn:Ea; [|discriminate]. cbn [bind].
      destruct (mapM f l) as [bs|] eqn:El; [|discriminate]. cbn [bind].
      intros [= <-]. constructor; [assumption|]. apply IH. reflexivity.
    + intros Hf. inversion Hf as [|a0 b l0 bs Hab Hrest]; subst.
      rewrite Hab. cbn [bind].
      apply IH in Hrest. rewrite Hrest. reflexivity.
Qed.

Lemma mapM_pure {A B : Type} (h : A -> B) l :
  mapM (fun a => Ok (h a)) l = Ok (map h l).
Proof.
  induction l as [|a l IH]; simpl; [reflexivity|].
  rewrite IH. reflexivity.
Qed.

Lemma mapM_ext_in {A B : Type} (f g : A -> result B) l :
  (forall a, In a l -> f a = g a) -> mapM f l = mapM g l.
Proof.
  induction l as [|a l IH]; intros Hfg; simpl; [reflexivity|].
  rewrite (Hfg a) by (left; reflexivity).
  rewrite IH by (intros b Hb; apply Hfg; right; exact Hb).
  reflexivity.
Qed.

Lemma mapM_length {A B : Type} (f : A -> result B) l l' :
  mapM f l = Ok l' -> List.length l' = List.length l.
Proof.
  intros E. apply mapM_Forall2 in E. symmetry.
  eapply Forall2_length; eassumption.
Qed.

Lemma mapM_total {A B : Type} (f : A -> result B) l :
  (forall a, In a l -> exists b, f a = Ok b) -> exists l', mapM f l = Ok l'.
Proof.
  induction l as [|a l IH]; intros Hf; simpl.
  - eexists; reflexivity.
  - destruct (Hf a) as [b Eb]; [left; reflexivity|].
    destruct IH as [bs Ebs]; [intros c Hc; apply Hf; right; exact Hc|].
    rewrite Eb, Ebs. eexists; reflexivity.
Qed.

(** Mapping over positions is mapping over the buffer. *)
Lemma mapM_seq_nth {A B : Type} (h : nat -> result B) (k : A -> result B) l o :
  (forall i a, nth_error l i = Some a -> h (o + i)%nat = k a) ->
  mapM h (seq o (List.length l)) = mapM k l.
Proof.
  revert o; induction l as [|a l IH]; intros o Hh; simpl; [reflexivity|].
  rewrite <- (Hh 0%nat a eq_refl), Nat.add_0_r.
  rewrite (IH (S o)); [reflexivity|].
  intros i b Hi. rewrite <- (Hh (S i) b Hi). f_equal. lia.
Qed.

Lemma Forall2_nth_error_left {A B : Type} (P : A -> B -> Prop) l l' i a :
  Forall2 P l l' -> nth_error l i = Some a ->
  exists b, nth_error l' i = Some b /\ P a b.
Proof.
  intros Hf; revert i; induction Hf as [|x y l l' Hxy _ IH]; intros i Hi.
  - destruct i; discriminate Hi.
  - destruct i as [|i]; simpl in *.
    + injection Hi as ->. eauto.
    + apply IH; exact Hi.
Qed.

Lemma build_shape {A : Type} s (g : list nat -> result A) t :
  build s g = Ok t -> shape t = s /\ well_formed t.
Proof.
  unfold build. destruct (mapM _ _) as [l|] eqn:E; [|discriminate].
  intros [= <-]. split; [reflexivity|].
  unfold well_formed; simpl.
  apply mapM_length in E. now rewrite length_seq in E.
Qed.

Lemma build_nth {A : Type} s (g : list nat -> result A) t idx :
  build s g = Ok t -> valid_index s idx ->
  exists v, nth_error (data t) (ravel s idx) = Some v /\ g idx = Ok v.
Proof.
  unfold build. destruct (mapM _ _) as [l|] eqn:E; [|discriminate].
  intros [= <-] Hv. simpl.
  apply mapM_Forall2 in E.
  pose proof (ravel_lt s idx Hv) as Hlt.
  assert (Hsome : nth_error (seq 0 (numel s)) (ravel s idx) = Some (ravel s idx)).
  { rewrite nth_error_nth' with (d := 0%nat) by (now rewrite length_seq).
    now rewrite seq_nth. }
  destruct (Forall2_nth_error_left _ _ _ _ _ E Hsome) as [v [Hv1 Hv2]].
  exists v. split; [exact Hv1|].
  now rewrite unravel_ravel in Hv2.
Qed.

Lemma build_Forall {A : Type} (P : A -> Prop) s (g : list nat -> result A) t :
  build s g = Ok t ->
  (forall idx v, valid_index s idx -> g idx = Ok v -> P v) ->
  Forall P (data t).
Proof.
  unfold build. destruct (mapM _ _) as [l|] eqn:E; [|discriminate].
  intros [= <-] HP. simpl.
  apply mapM_Forall2 in E.
  assert (Hin : Forall (fun i => (i < numel s)%nat) (seq 0 (numel s))).
  { apply Forall_forall. intros i Hi. apply in_seq in Hi. lia. }
  revert Hin. induction E as [|i v li lv Hiv _ IH]; intros Hin;
    constructor.
  - inversion Hin; subst. eapply HP; [|exact Hiv].
    apply unravel_valid. assumption.
  - apply IH. inversion Hin; assumption.
Qed.

Lemma build_total {A : Type} s (g : list nat -> result A) :
  (forall idx, valid_index s idx -> exists v, g idx = Ok v) ->
  exists t, build s g = Ok t.
Proof.
  intros Hg. unfold build.
  destruct (mapM_total (fun i => g (unravel s i)) (seq 0 (numel s))) as [l El].
  - intros i Hi. apply in_seq in Hi. apply Hg. apply unravel_valid. lia.
  - rewrite El. eexists; reflexivity.
Qed.

(** Reading a well-formed tensor at one of its own indices. *)
Lemma tget_flat {A : Type} (t : tensor A) i :
  (i < numel (shape t))%nat ->
  tget t (unravel (shape t) i)
  = match nth_error (data t) i with Some a => Ok a | None => Fatal IndexOutOfRange end.
Proof.
  intros Hi. unfold tget.
  rewrite bidx_valid by (apply unravel_valid; exact Hi).
  now rewrite ravel_unravel.
Qed.

(** ** Broadcasting *)

Lemma broadcast_dims_left s s2 :
  stretches_to s2 s -> broadcast_dims s s2 = Some s.
Proof.
  induction 1 as [|a b s s2 Hab _ IH]; simpl; [reflexivity|].
  rewrite IH. destruct (Nat.eqb_spec a b); [reflexivity|].
  destruct Hab as [->| ->]; [contradiction|].
  destruct (Nat.eqb_spec a 1); [congruence|reflexivity].
Qed.

Lemma broadcast_dims_right s s2 :
  stretches_to s2 s -> broadcast_dims s2 s = Some s.
Proof.
  induction 1 as [|a b s s2 Hab _ IH]; simpl; [reflexivity|].
  rewrite IH. destruct (Nat.eqb_spec b a); [now subst|].
  destruct Hab as [->| ->]; [contradiction|reflexivity].
Qed.

Lemma stretches_to_refl s : stretches_to s s.
Proof. induction s; constructor; auto. Qed.

Lemma stretches_to_ones s : stretches_to (repeat 1%nat (List.length s)) s.
Proof. induction s; simpl; constructor; auto. Qed.

Lemma stretches_to_set_nth k s : stretches_to (set_nth k 1%nat s) s.
Proof.
  revert k; induction s as [|d s IH]; intros [|k]; simpl;
    try constructor; auto.
  - apply stretches_to_refl.
  - apply IH.
Qed.

Lemma pad_shape_self s : pad_shape (List.length s) s = s.
Proof. unfold pad_shape. now rewrite Nat.sub_diag. Qed.

Lemma broadcast_shape_same_rank s s2 :
  List.length s2 = List.length s ->
  broadcast_shape s s2 = broadcast_dims s s2.
Proof.
  intros E. unfold broadcast_shape. rewrite E, Nat.max_id.
  rewrite pad_shape_self. rewrite <- E at 1. now rewrite pad_shape_self.
Qed.

Lemma broadcast_shape_scalar_r s : broadcast_shape s [] = Some s.
Proof.
  unfold broadcast_shape. simpl List.length. rewrite Nat.max_0_r.
  rewrite pad_shape_self. unfold pad_shape. simpl List.length.
  rewrite Nat.sub_0_r, app_nil_r.
  apply broadcast_dims_left, stretches_to_ones.
Qed.

Lemma broadcast_shape_scalar_l s : broadcast_shape [] s = Some s.
Proof.
  unfold broadcast_shape. simpl List.length. rewrite Nat.max_0_l.
  rewrite pad_shape_self. unfold pad_shape. simpl List.length.
  rewrite Nat.sub_0_r, app_nil_r.
  apply broadcast_dims_right, stretches_to_ones.
Qed.

Lemma broadcast_shape_refl s : broadcast_shape s s = Some s.
Proof.
  rewrite broadcast_shape_same_rank by reflexivity.
  apply broadcast_dims_left, stretches_to_refl.
Qed.

Lemma broadcast_shape_reduced_r k s :
  broadcast_shape s (set_nth k 1%nat s) = Some s.
Proof.
  rewrite broadcast_shape_same_rank by apply set_nth_length.
  apply broadcast_dims_left, stretches_to_set_nth.
Qed.

Lemma tget_valid {A : Type} (t : tensor A) idx :
  well_formed t -> valid_index (shape t) idx ->
  exists v, tget t idx = Ok v
            /\ nth_error (data t) (ravel (shape t) idx) = Some v.
Proof.
  intros Hwf Hv. unfold tget. rewrite bidx_valid by exact Hv.
  pose proof (ravel_lt _ _ Hv) as Hlt. rewrite <- Hwf in Hlt.
  apply nth_error_Some in Hlt.
  destruct (nth_error (data t) (ravel (shape t) idx)) as [v|];
    [eauto|contradiction].
Qed.

Lemma tget_In {A : Type} (t : tensor A) idx v : tget t idx = Ok v -> In v (data t).
Proof.
  unfold tget. destruct (nth_error _ _) as [a|] eqn:E; [|discriminate].
  intros [= <-]. eapply nth_error_In; eassumption.
Qed.

(** A tensor against a scalar: the operator runs over the buffer. *)
Lemma broadcast2_scalar_r {A B C : Type} (f : A -> B -> result C) a y :
  well_formed a ->
  broadcast2 f a (scalar y)
  = (l <- mapM (fun x => f x y) (data a) ;; Ok (mkTensor (shape a) l)).
Proof.
  intros Hwf. unfold broadcast2. simpl shape at 2.
  rewrite broadcast_shape_scalar_r. unfold build. rewrite <- Hwf.
  rewrite (mapM_seq_nth _ (fun x => f x y)); [reflexivity|].
  intros i x Hi. simpl.
  rewrite tget_flat by (rewrite <- Hwf; apply nth_error_Some; congruence).
  rewrite Hi. reflexivity.
Qed.

Lemma broadcast2_scalar_l {A B C : Type} (f : A -> B -> result C) x b :
  well_formed b ->
  broadcast2 f (scalar x) b
  = (l <- mapM (fun y => f x y) (data b) ;; Ok (mkTensor (shape b) l)).
Proof.
  intros Hwf. unfold broadcast2. simpl shape at 1.
  rewrite broadcast_shape_scalar_l. unfold build. rewrite <- Hwf.
  rewrite (mapM_seq_nth _ (fun y => f x y)); [reflexivity|].
  intros i y Hi. simpl.
  rewrite tget_flat by (rewrite <- Hwf; apply nth_error_Some; congruence).
  rewrite Hi. reflexivity.
Qed.

Lemma nth_error_combine {A B : Type} (la : list A) (lb : list B) i p :
  nth_error (combine la lb) i = Some p ->
  nth_error la i = Some (fst p) /\ nth_error lb i = Some (snd p).
Proof.
  revert lb i; induction la as [|a la IH]; intros [|b lb] [|i]; simpl;
    try discriminate.
  - intros [= <-]. auto.
  - apply IH.
Qed.

(** Two tensors of one shape: the operator runs over the paired buffers. *)
Lemma broadcast2_same_shape {A B C : Type} (f : A -> B -> result C) a b :
  well_formed a -> well_formed b -> shape b = shape a ->
  broadcast2 f a b
  = (l <- mapM (fun p => f (fst p) (snd p)) (combine (data a) (data b)) ;;
     Ok (mkTensor (shape a) l)).
Proof.
  intros Hwa Hwb Hs. unfold broadcast2. rewrite Hs, broadcast_shape_refl.
  unfold build.
  assert (Hlen : List.length (combine (data a) (data b)) = numel (shape a)).
  { rewrite length_combine, Hwa, Hwb, Hs. apply Nat.min_id. }
  rewrite <- Hlen.
  rewrite (mapM_seq_nth _ (fun p => f (fst p) (snd p))); [reflexivity|].
  intros i p Hi. simpl.
  assert (Hlt : (i < numel (shape a))%nat).
  { rewrite <- Hlen. apply nth_error_Some. congruence. }
  apply nth_error_combine in Hi as [Ha Hb].
  rewrite tget_flat by exact Hlt. rewrite Ha. cbn [bind].
  rewrite <- Hs. rewrite tget_flat by (rewrite Hs; exact Hlt).
  rewrite Hb. reflexivity.
Qed.

Lemma combine_map_self {A B C : Type} (h1 : A -> B) (h2 : A -> C) l :
  combine (map h1 l) (map h2 l) = map (fun a => (h1 a, h2 a)) l.
Proof. induction l; simpl; congruence. Qed.

(** ** Wrap-around and reductions *)

Lemma wrap_small bits v :
  0 < bits -> - 2 ^ (bits - 1) <= v < 2 ^ (bits - 1) -> wrap bits v = v.
Proof.
  intros Hb Hv. unfold wrap.
  assert (E : 2 ^ bits = 2 * 2 ^ (bits - 1)).
  { rewrite <- Z.pow_succ_r by lia. f_equal. lia. }
  rewrite Z.mod_small by lia. lia.
Qed.

Lemma wrap_range bits v :
  0 < bits -> - 2 ^ (bits - 1) <= wrap bits v < 2 ^ (bits - 1).
Proof.
  intros Hb. unfold wrap.
  assert (E : 2 ^ bits = 2 * 2 ^ (bits - 1)).
  { rewrite <- Z.pow_succ_r by lia. f_equal. lia. }
  assert (Hp : 0 < 2 ^ (bits - 1)) by (apply Z.pow_pos_nonneg; lia).
  pose proof (Z.mod_pos_bound (v + 2 ^ (bits - 1)) (2 ^ bits)). lia.
Qed.

Lemma wrap64_small v :
  - 9223372036854775808 <= v < 9223372036854775808 -> wrap 64 v = v.
Proof. intros Hv. apply wrap_small; [lia|]. exact Hv. Qed.

Lemma map_wrap64_small l :
  Forall (fun v => - 9223372036854775808 <= v < 9223372036854775808) l ->
  map (wrap 64) l = l.
Proof.
  induction 1 as [|v l Hv _ IH]; simpl; [reflexivity|].
  now rewrite wrap64_small, IH.
Qed.

Lemma fold_left_max_init vs init : init <= fold_left Z.max vs init.
Proof.
  revert init; induction vs as [|v vs IH]; intros init; simpl; [lia|].
  specialize (IH (Z.max init v)). lia.
Qed.

Lemma fold_left_max_ge vs init a : In a vs -> a <= fold_left Z.max vs init.
Proof.
  revert init; induction vs as [|v vs IH]; intros init; simpl; [tauto|].
  intros [->|Hin].
  - pose proof (fold_left_max_init vs (Z.max init a)). lia.
  - apply IH; exact Hin.
Qed.

Lemma fold_left_max_le vs init hi :
  Forall (fun v => v <= hi) vs -> init <= hi -> fold_left Z.max vs init <= hi.
Proof.
  intros Hf; revert init; induction Hf as [|v vs Hv _ IH]; intros init Hi;
    simpl; [exact Hi|].
  apply IH. lia.
Qed.

Lemma reduce_total {A : Type} (f : A -> A -> A) init k (t : tensor A) d :
  well_formed t -> nth_error (shape t) k = Some d ->
  exists tm, reduce f init k t = Ok tm.
Proof.
  intros Hwf Hk. unfold reduce. rewrite Hk.
  apply build_total. intros idx Hv.
  destruct (mapM_total (fun j => tget t (set_nth k j idx)) (seq 0 d))
    as [vs E].
  - intros j Hj. apply in_seq in Hj.
    destruct (tget_valid t (set_nth k j idx)) as [v [Hv1 _]]; eauto.
    eapply set_nth_reduced_valid; eauto. lia.
  - rewrite E. eexists; reflexivity.
Qed.

Lemma reduce_shape {A : Type} (f : A -> A -> A) init k (t tm : tensor A) :
  reduce f init k t = Ok tm ->
  shape tm = set_nth k 1%nat (shape t) /\ well_formed tm.
Proof.
  unfold reduce. destruct (nth_error (shape t) k); [|discriminate].
  apply build_shape.
Qed.

(** The element of a reduction that an index of the operand is paired
    with when the result is broadcast back: the fold over the operand's
    lane through that index. *)
Lemma reduce_elem {A : Type} (f : A -> A -> A) init k (t tm : tensor A) d idx :
  reduce f init k t = Ok tm -> nth_error (shape t) k = Some d ->
  valid_index (shape t) idx ->
  exists vs,
    tget tm idx = Ok (fold_left f vs init)
    /\ Forall2 (fun j v =>
                  tget t (set_nth k j (clamp (set_nth k 1%nat (shape t)) idx)) = Ok v)
               (seq 0 d) vs.
Proof.
  intros Hred Hk Hv.
  pose proof (reduce_shape _ _ _ _ _ Hred) as [Hs Hwf].
  unfold reduce in Hred. rewrite Hk in Hred.
  assert (Hk' : (k < List.length (shape t))%nat)
    by (apply nth_error_Some; congruence).
  pose proof (clamp_reduced_valid k _ _ Hv Hk') as Hv'.
  destruct (build_nth _ _ _ _ Hred Hv') as [b [Hb Hg]].
  destruct (mapM _ (seq 0 d)) as [vs|] eqn:Evs; [|discriminate].
  cbn [bind] in Hg. injection Hg as <-.
  exists vs. split.
  - unfold tget. rewrite Hs.
    rewrite bidx_same_length
      by (rewrite set_nth_length; apply valid_index_length; exact Hv).
    rewrite Hb. reflexivity.
  - apply mapM_Forall2. exact Evs.
Qed.

Lemma shifted_range (t : tensor Z) k d lo hi :
  well_formed t -> nth_error (shape t) k = Some d ->
  Forall (fun v => lo <= v <= hi) (data t) ->
  - 2 ^ 62 <= lo -> hi <= 2 ^ 62 ->
  exists tm tx,
    reduce Z.max (- 2 ^ (64 - 1)) k t = Ok tm
    /\ broadcast2 (int_binop OpSubtract 64) t tm = Ok tx
    /\ shape tx = shape t /\ well_formed tx
    /\ Forall (fun v => lo - hi <= v <= 0) (data tx).
Proof.
  intros Hwf Hk Hr Hlo Hhi.
  destruct (reduce_total Z.max (- 2 ^ (64 - 1)) k t d Hwf Hk) as [tm Hred].
  pose proof (reduce_shape _ _ _ _ _ Hred) as [Hs Hwfm].
  assert (Hsub : forall idx, valid_index (shape t) idx ->
            exists a b, tget t idx = Ok a /\ tget tm idx = Ok b
                        /\ lo <= a <= hi /\ a <= b <= hi).
  { intros idx Hv.
    destruct (tget_valid t idx Hwf Hv) as [a [Ha _]].
    destruct (reduce_elem _ _ _ _ _ _ _ Hred Hk Hv) as [vs [Hb Hvs]].
    pose proof (proj1 (Forall_forall _ _) Hr a (tget_In _ _ _ Ha)) as Hra.
    cbv beta in Hra.
    exists a, (fold_left Z.max vs (- 2 ^ (64 - 1))).
    split; [exact Ha|]. split; [exact Hb|]. split; [exact Hra|]. split.
    - (* the lane through [idx] contains the element at [idx] *)
      destruct (valid_index_nth _ _ _ _ Hv Hk) as [j [Hj Hjd]].
      assert (Hseq : nth_error (seq 0 d) j = Some j).
      { rewrite nth_error_nth' with (d := 0%nat) by (now rewrite length_seq).
        now rewrite seq_nth. }
      destruct (Forall2_nth_error_left _ _ _ _ _ Hvs Hseq) as [v [Hv1 Hv2]].
      rewrite (set_nth_clamp_reduced k _ idx j Hv Hj) in Hv2.
      assert (v = a) by congruence. subst v.
      apply fold_left_max_ge. eapply nth_error_In; eassumption.
    - apply fold_left_max_le.
      + clear - Hvs Hr. induction Hvs as [|j v js vs Hjv _ IH];
          constructor; [|exact IH].
        apply (proj1 (Forall_forall _ _) Hr v (tget_In _ _ _ Hjv)).
      + change (2 ^ (64 - 1)) with 9223372036854775808.
        change (2 ^ 62) with 4611686018427387904 in Hlo. lia. }
  assert (Hbs : broadcast_shape (shape t) (shape tm) = Some (shape t)).
  { rewrite Hs. apply broadcast_shape_reduced_r. }
  destruct (build_total (shape t)
              (fun idx => x <- tget t idx ;; y <- tget tm idx ;;
                          int_binop OpSubtract 64 x y)) as [tx Htx].
  { intros idx Hv. destruct (Hsub idx Hv) as [a [b [Ha [Hb _]]]].
    rewrite Ha, Hb. cbn. eexists; reflexivity. }
  exists tm, tx. split; [exact Hred|]. split.
  { unfold broadcast2. rewrite Hbs. exact Htx. }
  destruct (build_shape _ _ _ Htx) as [Hsx Hwfx].
  split; [exact Hsx|]. split; [exact Hwfx|].
  eapply build_Forall; [exact Htx|].
  intros idx v Hv Hg. destruct (Hsub idx Hv) as [a [b [Ha [Hb [Hra Hrb]]]]].
  cbv beta in Hg. rewrite Ha, Hb in Hg. cbn in Hg. injection Hg as <-.
  change (2 ^ 62) with 4611686018427387904 in *.
  rewrite wrap64_small; lia.
Qed.

(** ** Elementwise operators on 64-bit tensors *)

Lemma mapM_map {A B C : Type} (h : A -> B) (f : B -> result C) l :
  mapM f (map h l) = mapM (fun a => f (h a)) l.
Proof. induction l as [|a l IH]; simpl; [reflexivity|]. now rewrite IH. Qed.

Lemma mapM_pure_in {A B : Type} (f : A -> result B) (h : A -> B) l :
  (forall a, In a l -> f a = Ok (h a)) -> mapM f l = Ok (map h l).
Proof.
  intros Hf. rewrite (mapM_ext_in f (fun a => Ok (h a))) by exact Hf.
  apply mapM_pure.
Qed.

Lemma well_formed_map {A B : Type} s (l : list A) (h : A -> B) :
  List.length l = numel s -> well_formed (mkTensor s (map h l)).
Proof. intros E. unfold well_formed; simpl. now rewrite length_map. Qed.

Lemma binary_map_scalar_r op (opz : Z -> Z -> Z) s l (h : Z -> Z) c :
  List.length l = numel s ->
  (forall v, In v l -> int_binop op 64 (h v) c = Ok (opz (h v) c)) ->
  binary op (VInt 64 (mkTensor s (map h l))) (VInt 64 (scalar c))
  = Ok (VInt 64 (mkTensor s (map (fun v => opz (h v) c) l))).
Proof.
  intros Hl Hop. unfold binary. rewrite Z.eqb_refl.
  rewrite broadcast2_scalar_r by (apply well_formed_map; exact Hl).
  simpl data. simpl shape. rewrite mapM_map.
  rewrite (mapM_pure_in _ (fun v => opz (h v) c)) by exact Hop.
  reflexivity.
Qed.

Lemma binary_map_scalar_l op (opz : Z -> Z -> Z) s l (h : Z -> Z) c :
  List.length l = numel s ->
  (forall v, In v l -> int_binop op 64 c (h v) = Ok (opz c (h v))) ->
  binary op (VInt 64 (scalar c)) (VInt 64 (mkTensor s (map h l)))
  = Ok (VInt 64 (mkTensor s (map (fun v => opz c (h v)) l))).
Proof.
  intros Hl Hop. unfold binary. rewrite Z.eqb_refl.
  rewrite broadcast2_scalar_l by (apply well_formed_map; exact Hl).
  simpl data. simpl shape. rewrite mapM_map.
  rewrite (mapM_pure_in _ (fun v => opz c (h v))) by exact Hop.
  reflexivity.
Qed.

Lemma binary_map_map op (opz : Z -> Z -> Z) s l (h1 h2 : Z -> Z) :
  List.length l = numel s ->
  (forall v, In v l -> int_binop op 64 (h1 v) (h2 v) = Ok (opz (h1 v) (h2 v))) ->
  binary op (VInt 64 (mkTensor s (map h1 l))) (VInt 64 (mkTensor s (map h2 l)))
  = Ok (VInt 64 (mkTensor s (map (fun v => opz (h1 v) (h2 v)) l))).
Proof.
  intros Hl Hop. unfold binary. rewrite Z.eqb_refl.
  rewrite broadcast2_same_shape
    by (try apply well_formed_map; try exact Hl; reflexivity).
  simpl data. simpl shape. rewrite combine_map_self, mapM_map. simpl fst. simpl snd.
  rewrite (mapM_pure_in _ (fun v => opz (h1 v) (h2 v))) by exact Hop.
  reflexivity.
Qed.

Lemma eval_const_i64 env c :
  eval env (Softmax.const_i64 c) = Ok (VInt 64 (scalar (wrap 64 c))).
Proof. reflexivity. Qed.

(** A cast to Int(64) yields 64-bit values. *)
Lemma cast_int64_range v b t :
  cast v (Int 64) = Ok (VInt b t) ->
  b = 64
  /\ Forall (fun z => - 9223372036854775808 <= z < 9223372036854775808) (data t).
Proof.
  destruct v as [b0 t0|t0]; unfold cast, tmapM.
  - rewrite mapM_pure. cbn [bind]. intros [= <- <-]. split; [reflexivity|].
    simpl. apply Forall_forall. intros z Hz. apply in_map_iff in Hz as [a [<- _]].
    apply (wrap_range 64 a). lia.
  - destruct (mapM _ _) as [l|] eqn:E; [|discriminate]. cbn [bind].
    intros [= <- <-]. split; [reflexivity|]. simpl.
    apply mapM_Forall2 in E. induction E as [|f z fs zs Hfz _ IH];
      constructor; [|exact IH].
    unfold cast_f32_to_int in Hfz.
    destruct (f32_to_Z f) as [z'|]; [|discriminate].
    destruct (in_range 64 z') eqn:Er; [|discriminate].
    injection Hfz as ->. unfold in_range in Er.
    apply andb_prop in Er as [E1 E2].
    apply Z.leb_le in E1. apply Z.ltb_lt in E2.
    change (2 ^ (64 - 1)) with 9223372036854775808 in *. lia.
Qed.

(** ** The stages of the lowered expression *)

Lemma Elem_x_p_range v : -255 <= v <= 0 -> -367 <= Elem.x_p v <= 0.
Proof.
  intros Hv. unfold Elem.x_p.
  assert (H1 : Z.shiftr v 1 = v / 2) by (now rewrite Z.shiftr_div_pow2 by lia).
  assert (H4 : Z.shiftr v 4 = v / 16) by (now rewrite Z.shiftr_div_pow2 by lia).
  rewrite H1, H4.
  rewrite (wrap64_small (v + v / 2)) by (Z.to_euclidean_division_equations; lia).
  rewrite wrap64_small by (Z.to_euclidean_division_equations; lia).
  Z.to_euclidean_division_equations; lia.
Qed.

Lemma Elem_q_range x0 v :
  -255 <= v <= 0 -> 12 <= x0 -> int64_range x0 -> 0 <= Elem.q x0 v <= 30.
Proof.
  intros Hv Hx Hr. unfold Elem.q, int64_range in *.
  pose proof (Elem_x_p_range v Hv) as Hp.
  rewrite (wrap64_small (- x0)) by lia.
  assert (Hq : 0 <= Z.quot (Elem.x_p v) (- x0) <= 30).
  { replace (Elem.x_p v) with (- (- Elem.x_p v)) by lia.
    rewrite Z.quot_opp_opp by lia.
    rewrite Z.quot_div_nonneg by lia.
    split; [apply Z.div_pos; lia|].
    assert (- Elem.x_p v / x0 < 31); [|lia].
    apply Z.div_lt_upper_bound; lia. }
  rewrite wrap64_small; lia.
Qed.

Lemma Elem_shift_range x0 v :
  -255 <= v <= 0 -> 12 <= x0 -> int64_range x0 -> 0 <= Elem.shift x0 v <= 30.
Proof.
  intros Hv Hx Hr. pose proof (Elem_q_range x0 v Hv Hx Hr) as Hq.
  unfold Elem.shift, Softmax.n. rewrite wrap64_small; lia.
Qed.

Section Chain.
Variables (env : Env) (operand input_scale input_zero_point : Expr) (axis : Z).
Variables (s : list nat) (l : list Z) (x0 : Z).
Hypothesis Hx : eval env (Softmax.x operand input_zero_point axis)
                = Ok (VInt 64 (mkTensor s l)).
Hypothesis Hl : List.length l = numel s.
Hypothesis Hx0 : eval env (Softmax.x_0 input_scale) = Ok (VInt 64 (scalar x0)).

Lemma eval_x_p :
  eval env (Softmax.x_p operand input_zero_point axis)
  = Ok (VInt 64 (mkTensor s (map Elem.x_p l))).
Proof.
  unfold Softmax.x_p. cbn [eval]. rewrite !Hx, !eval_const_i64. cbn [bind].
  change (wrap 64 1) with 1. change (wrap 64 4) with 4.
  pose proof (binary_map_scalar_r OpRightShift Z.shiftr s l (fun v => v) 1 Hl
                (fun v _ => eq_refl)) as E1.
  pose proof (binary_map_scalar_r OpRightShift Z.shiftr s l (fun v => v) 4 Hl
                (fun v _ => eq_refl)) as E4.
  rewrite map_id in E1, E4. rewrite E1, E4. cbn [bind].
  pose proof (binary_map_map OpAdd (fun a b => wrap 64 (a + b)) s l
                (fun v => v) (fun v => Z.shiftr v 1) Hl (fun v _ => eq_refl)) as Ea.
  rewrite map_id in Ea. rewrite Ea. cbn [bind].
  apply (binary_map_map OpSubtract (fun a b => wrap 64 (a - b)) s l
           (fun v => wrap 64 (v + Z.shiftr v 1)) (fun v => Z.shiftr v 4) Hl
           (fun v _ => eq_refl)).
Qed.

Hypothesis Hrange : Forall (fun v => -255 <= v <= 0) l.
Hypothesis H12 : 12 <= x0.
Hypothesis Hr : int64_range x0.

Lemma negative_x0 :
  negative (VInt 64 (scalar x0)) = Ok (VInt 64 (scalar (wrap 64 (- x0)))).
Proof. reflexivity. Qed.

Lemma wrap_neg_x0 : wrap 64 (- x0) = - x0.
Proof. unfold int64_range in Hr. apply wrap64_small. lia. Qed.

Lemma eval_q :
  eval env (Softmax.q operand input_scale input_zero_point axis)
  = Ok (VInt 64 (mkTensor s (map (Elem.q x0) l))).
Proof.
  unfold Softmax.q. cbn [eval]. rewrite eval_x_p, Hx0. cbn [bind].
  rewrite negative_x0. cbn [bind].
  apply (binary_map_scalar_r OpDivide (fun a b => wrap 64 (Z.quot a b)) s l
           Elem.x_p (wrap 64 (- x0)) Hl).
  intros v _. unfold int_binop. rewrite wrap_neg_x0.
  destruct (Z.eqb_spec (- x0) 0); [lia|reflexivity].
Qed.

Lemma eval_r :
  eval env (Softmax.r operand input_scale input_zero_point axis)
  = Ok (VInt 64 (mkTensor s (map (Elem.r x0) l))).
Proof.
  unfold Softmax.r. cbn [eval]. rewrite eval_x_p, eval_q, Hx0. cbn [bind].
  rewrite negative_x0. cbn [bind].
  rewrite (binary_map_scalar_r OpMultiply (fun a b => wrap 64 (a * b)) s l
             (Elem.q x0) (wrap 64 (- x0)) Hl (fun v _ => eq_refl)).
  cbn [bind].
  apply (binary_map_map OpSubtract (fun a b => wrap 64 (a - b)) s l
           Elem.x_p (fun v => wrap 64 (Elem.q x0 v * wrap 64 (- x0))) Hl
           (fun v _ => eq_refl)).
Qed.

Lemma eval_x_b :
  eval env (Softmax.x_b operand input_scale input_zero_point axis)
  = Ok (VInt 64 (mkTensor s (map (Elem.x_b x0) l))).
Proof.
  unfold Softmax.x_b. cbn [eval]. rewrite eval_r, eval_const_i64, Hx0.
  cbn [bind]. change (wrap 64 1) with 1.
  rewrite (binary_map_scalar_r OpRightShift Z.shiftr s l (Elem.r x0) 1 Hl
             (fun v _ => eq_refl)).
  cbn [bind].
  apply (binary_map_scalar_r OpAdd (fun a b => wrap 64 (a + b)) s l
           (fun v => Z.shiftr (Elem.r x0 v) 1) x0 Hl (fun v _ => eq_refl)).
Qed.

Lemma eval_shift :
  eval env (Subtract (Softmax.const_i64 Softmax.n)
              (Softmax.q operand input_scale input_zero_point axis))
  = Ok (VInt 64 (mkTensor s (map (Elem.shift x0) l))).
Proof.
  cbn [eval]. rewrite eval_q, eval_const_i64. cbn [bind].
  change (wrap 64 Softmax.n) with Softmax.n.
  apply (binary_map_scalar_l OpSubtract (fun a b => wrap 64 (a - b)) s l
           (Elem.q x0) Softmax.n Hl (fun v _ => eq_refl)).
Qed.

Lemma eval_exps :
  eval env (Softmax.exps operand input_scale input_zero_point axis)
  = Ok (VInt 64 (mkTensor s (map (Elem.exps x0) l))).
Proof.
  unfold Softmax.exps. cbn [eval]. fold (eval env).
  change (va <- eval env (Softmax.const_i64 Softmax.n) ;;
          vb <- eval env (Softmax.q operand input_scale input_zero_point axis) ;;
          binary OpSubtract va vb)
    with (eval env (Subtract (Softmax.const_i64 Softmax.n)
                      (Softmax.q operand input_scale input_zero_point axis))).
  rewrite eval_x_b, eval_shift. cbn [bind].
  apply (binary_map_map OpLeftShift (fun a b => wrap 64 (Z.shiftl a b)) s l
           (Elem.x_b x0) (Elem.shift x0) Hl).
  intros v Hv. unfold int_binop.
  pose proof (Elem_shift_range x0 v
                (proj1 (Forall_forall _ _) Hrange v Hv) H12 Hr) as Hs.
  destruct (Z.leb_spec 0 (Elem.shift x0 v)); [|lia].
  destruct (Z.ltb_spec (Elem.shift x0 v) 64); [|lia].
  reflexivity.
Qed.
End Chain.

Lemma real_axis_lt rank axis k : real_axis rank axis = Ok k -> (k < rank)%nat.
Proof.
  unfold real_axis.
  destruct (andb _ _) eqn:E; [|discriminate].
  intros [= <-]. apply andb_prop in E as [E1 E2].
  apply Z.leb_le in E1. apply Z.ltb_lt in E2. lia.
Qed.

Section Shifted.
Variables (env : Env) (operand input_zero_point : Expr) (axis : Z).
Variables (s : list nat) (l : list Z) (z : Z) (k : nat).
Hypothesis Hd : eval env operand = Ok (VInt 8 (mkTensor s l)).
Hypothesis Hl : List.length l = numel s.
Hypothesis Hint8 : Forall (fun v => -128 <= v <= 127) l.
Hypothesis Hz : eval env input_zero_point = Ok (VInt 32 (scalar z)).
Hypothesis Hint32 : - 2147483648 <= z < 2147483648.
Hypothesis Haxis : real_axis (List.length s) axis = Ok k.

Lemma eval_quantized_data :
  eval env (Softmax.quantized_data operand input_zero_point)
  = Ok (VInt 64 (mkTensor s (map (fun v => v - z) l))).
Proof.
  unfold Softmax.quantized_data. cbn [eval]. rewrite Hd, Hz. cbn [bind].
  unfold cast, tmapM. rewrite !mapM_pure. cbn [bind data shape scalar map].
  rewrite map_wrap64_small
    by (eapply Forall_impl; [|exact Hint8]; cbv beta; intros; lia).
  rewrite (wrap64_small z) by lia.
  pose proof (binary_map_scalar_r OpSubtract (fun a b => wrap 64 (a - b)) s l
                (fun v => v) z Hl (fun v _ => eq_refl)) as E.
  rewrite map_id in E. unfold scalar in E. rewrite E. do 3 f_equal.
  apply map_ext_in. intros v Hv.
  pose proof (proj1 (Forall_forall _ _) Hint8 v Hv) as Hr. cbv beta in Hr.
  apply wrap64_small. lia.
Qed.

Lemma eval_x_range :
  exists lx,
    eval env (Softmax.x operand input_zero_point axis) = Ok (VInt 64 (mkTensor s lx))
    /\ List.length lx = numel s
    /\ Forall (fun v => -255 <= v <= 0) lx.
Proof.
  pose proof (real_axis_lt _ _ _ Haxis) as Hk.
  destruct (nth_error s k) as [dk|] eqn:Ek;
    [|apply nth_error_None in Ek; lia].
  destruct (shifted_range (mkTensor s (map (fun v => v - z) l)) k dk
              (-128 - z) (127 - z)) as [tm [tx [Hm [Hx [Hsx [Hwx Hrx]]]]]].
  - apply well_formed_map; exact Hl.
  - exact Ek.
  - cbn [data]. apply Forall_forall. intros v Hv.
    apply in_map_iff in Hv as [a [<- Ha]].
    pose proof (proj1 (Forall_forall _ _) Hint8 a Ha) as Hr. cbv beta in Hr.
    cbv beta. lia.
  - change (2 ^ 62) with 4611686018427387904. lia.
  - change (2 ^ 62) with 4611686018427387904. lia.
  - exists (data tx).
    unfold Softmax.x, Softmax.max. cbn [eval].
    rewrite eval_quantized_data. cbn [bind].
    unfold reduce_value. cbn [shape]. rewrite Haxis. cbn [bind].
    rewrite Hm. cbn [bind]. unfold binary. rewrite Z.eqb_refl, Hx. cbn [bind].
    destruct tx as [sx lx]. unfold well_formed in Hwx.
    cbn [shape data] in *. subst sx.
    split; [reflexivity|]. split; [exact Hwx|].
    eapply Forall_impl; [|exact Hrx]. cbv beta. intros; lia.
Qed.
End Shifted.

Lemma eval_cast_int64_range env e v :
  eval env (Cast e (Int 64)) = Ok v ->
  exists t, v = VInt 64 t /\ Forall int64_range (data t).
Proof.
  change (eval env (Cast e (Int 64)))
    with (bind (eval env e) (fun v => cast v (Int 64))).
  destruct (eval env e) as [v0|]; [|discriminate]. cbn [bind].
  destruct v as [b t|t].
  - intros E. apply cast_int64_range in E as [-> Hr]. eauto.
  - destruct v0 as [b0 t0|t0]; unfold cast; destruct (tmapM _ _); discriminate.
Qed.

(** ** The lowered expression against the specification *)

Lemma eval_const_f32_one env :
  eval env (MakeConstantScalar (Float 32) (LFloat f32_one))
  = Ok (VFloat (scalar f32_one)).
Proof. reflexivity. Qed.

Lemma eval_const_i64_small env c :
  - 9223372036854775808 <= c < 9223372036854775808 ->
  eval env (Softmax.const_i64 c) = Ok (Spec.i64 c).
Proof. intros Hc. rewrite eval_const_i64, wrap64_small by exact Hc. reflexivity. Qed.

Ltac spec_step :=
  match goal with
  | |- context [bind ?t _] =>
      lazymatch t with
      | bind _ _ => fail
      | Ok _ => fail
      | _ => destruct t eqn:?; cbn [bind]
      end
  end.

Section Refinement.
Variables (env : Env) (data input_scale input_zero_point : Expr) (axis : Z).
Variables (d sc z : Value).
Hypothesis Hd : eval env data = Ok d.
Hypothesis Hs : eval env input_scale = Ok sc.
Hypothesis Hz : eval env input_zero_point = Ok z.

Lemma eval_output_spec :
  eval env (Softmax.output data input_scale input_zero_point axis)
  = (st <- Spec.softmax d sc z axis ;; Ok (Spec.output_wide st)).
Proof.
  unfold Softmax.output, Softmax.sums, Softmax.exps, Softmax.x_b, Softmax.r,
    Softmax.q, Softmax.x_p, Softmax.x, Softmax.max, Softmax.quantized_data,
    Softmax.x_0.
  cbn [eval]. rewrite !Hd, !Hz, !Hs, !eval_const_f32_one.
  rewrite !eval_const_i64_small by (cbv; split; congruence).
  unfold Spec.softmax, Spec.int64, Spec.sub, Spec.add, Spec.mul, Spec.div,
    Spec.shr, Spec.shl, Spec.reduce_max, Spec.reduce_sum.
  change Spec.n with Softmax.n. change Spec.m with Softmax.m.
  change Spec.bits with Softmax.bits.
  cbn [bind].
repeat (spec_step; [|reflexivity]).
  reflexivity.
Qed.
End Refinement.

(** *** Stage by stage *)

Ltac spec_step_in H :=
  match type of H with
  | bind ?t _ = Ok _ => destruct t eqn:?; cbn [bind] in H; [|discriminate H]
  end.

Ltac replay :=
  repeat (cbn [bind];
          match goal with
          | E : ?t = Ok _ |- context [?t] => rewrite E
          end);
  cbn [bind]; try reflexivity.

Section RefinementStages.
Variables (env : Env) (operand input_scale input_zero_point : Expr) (axis : Z).
Variables (d sc z : Value).
Hypothesis Hd : eval env operand = Ok d.
Hypothesis Hs : eval env input_scale = Ok sc.
Hypothesis Hz : eval env input_zero_point = Ok z.

Lemma eval_stages_spec st :
  Spec.softmax d sc z axis = Ok st ->
  eval env (Softmax.quantized_data operand input_zero_point) = Ok (Spec.centered st)
  /\ eval env (Softmax.x operand input_zero_point axis) = Ok (Spec.x st)
  /\ eval env (Softmax.x_p operand input_zero_point axis) = Ok (Spec.x_p st)
  /\ eval env (Softmax.x_0 input_scale) = Ok (Spec.x0 st)
  /\ eval env (Softmax.q operand input_scale input_zero_point axis) = Ok (Spec.q st)
  /\ eval env (Softmax.r operand input_scale input_zero_point axis) = Ok (Spec.r st)
  /\ eval env (Softmax.x_b operand input_scale input_zero_point axis) = Ok (Spec.x_b st)
  /\ eval env (Softmax.exps operand input_scale input_zero_point axis) = Ok (Spec.exps st).
Proof.
  intros H.
  unfold Spec.softmax, Spec.int64, Spec.sub, Spec.add, Spec.mul, Spec.div,
    Spec.shr, Spec.shl, Spec.reduce_max, Spec.reduce_sum in H.
  change Spec.n with Softmax.n in H. change Spec.m with Softmax.m in H.
  change Spec.bits with Softmax.bits in H.
  repeat spec_step_in H.
  injection H as <-.
  cbn [Spec.centered Spec.x Spec.x_p Spec.x0 Spec.q Spec.r Spec.x_b Spec.exps].
  unfold Softmax.exps, Softmax.x_b, Softmax.r, Softmax.q, Softmax.x_p,
    Softmax.x, Softmax.max, Softmax.quantized_data, Softmax.x_0.
  cbn [eval]. rewrite !Hd, !Hz, !Hs, !eval_const_f32_one.
  rewrite !eval_const_i64_small by (cbv; split; congruence).
  repeat split; replay.
Qed.
End RefinementStages.

(** ** Further facts about the lowering *)

Lemma real_axis_valid rank axis :
  - Z.of_nat rank <= axis < Z.of_nat rank ->
  exists k, real_axis rank axis = Ok k.
Proof.
  intros Ha. unfold real_axis.
  destruct (Z.ltb_spec axis 0).
  - destruct (Z.leb_spec 0 (axis + Z.of_nat rank)); [|lia].
    destruct (Z.ltb_spec (axis + Z.of_nat rank) (Z.of_nat rank)); [|lia].
    eexists; reflexivity.
  - destruct (Z.leb_spec 0 axis); [|lia].
    destruct (Z.ltb_spec axis (Z.of_nat rank)); [|lia].
    eexists; reflexivity.
Qed.

Lemma Forall_map_range {A : Type} (P : A -> Prop) (Q : Z -> Prop) (h : A -> Z) l :
  Forall P l -> (forall a, P a -> Q (h a)) -> Forall Q (map h l).
Proof.
  intros Hf Hpq. induction Hf; simpl; constructor; auto.
Qed.

(** A zero reciprocal-scale constant makes the quotient step divide by
    zero at its first element. *)
Lemma eval_q_zero_divisor env operand input_scale input_zero_point axis s l :
  eval env (Softmax.x_p operand input_zero_point axis) = Ok (VInt 64 (mkTensor s l)) ->
  List.length l = numel s -> l <> [] ->
  eval env (Softmax.x_0 input_scale) = Ok (VInt 64 (scalar 0)) ->
  eval env (Softmax.q operand input_scale input_zero_point axis) = Fatal DivideByZero.
Proof.
  intros Hp Hl Hne H0. unfold Softmax.q. cbn [eval]. rewrite Hp, H0. cbn [bind].
  change (negative (VInt 64 (scalar 0))) with (Ok (VInt 64 (scalar 0))).
  cbn [bind]. unfold binary. rewrite Z.eqb_refl.
  rewrite broadcast2_scalar_r by exact Hl.
  destruct l as [|a l]; [contradiction|]. reflexivity.
Qed.

Lemma canonicalize_success_iff attrs new_args arg_types :
  (exists e, QnnSoftmaxCanonicalize attrs new_args arg_types = Ok e)
  <-> (List.length new_args = 5%nat
       /\ (exists axis, attrs = SoftmaxAttrs axis)
       /\ (exists s d, nth_error arg_types 0 = Some (TensorType s d))).
Proof.
  unfold QnnSoftmaxCanonicalize. split.
  - intros [e He].
    destruct new_args as [|a0 [|a1 [|a2 [|a3 [|a4 [|a5 rest]]]]]];
      try discriminate He.
    cbn [List.length Nat.eqb] in He. rewrite ICHECK_true in He. cbn [bind] in He.
    destruct attrs as [axis|]; [|discriminate He]. cbn [SoftmaxAttrs_axis bind] in He.
    destruct (nth_error arg_types 0) as [[s d| |]|]; try discriminate He.
    split; [reflexivity|]. split; eauto.
  - intros [Hlen [[axis ->] [s [d Hty]]]].
    destruct new_args as [|a0 [|a1 [|a2 [|a3 [|a4 [|a5 rest]]]]]];
      try discriminate Hlen.
    cbn [List.length Nat.eqb]. rewrite ICHECK_true. cbn [bind SoftmaxAttrs_axis].
    rewrite Hty. cbn [bind]. eexists; reflexivity.
Qed.

(** ** Dtypes of the lowered expression *)

Section Dtypes.
Variable tenv : string -> option DataType.
Variables operand input_scale input_zero_point : Expr.
Variable axis : Z.
Hypothesis Hoperand : dtype_of tenv operand = Some (Int 8).
Hypothesis Hscale : dtype_of tenv input_scale = Some (Float 32).
Hypothesis Hzero : dtype_of tenv input_zero_point = Some (Int 32).

Lemma dtype_quantized_data :
  dtype_of tenv (Softmax.quantized_data operand input_zero_point) = Some (Int 64).
Proof.
  unfold Softmax.quantized_data. cbn [dtype_of]. now rewrite Hoperand, Hzero.
Qed.

Lemma dtype_x_0 : dtype_of tenv (Softmax.x_0 input_scale) = Some (Int 64).
Proof. unfold Softmax.x_0. cbn [dtype_of MakeConstantScalar]. now rewrite Hscale. Qed.

Lemma dtype_max :
  dtype_of tenv (Softmax.max operand input_zero_point axis) = Some (Int 64).
Proof. unfold Softmax.max. cbn [dtype_of]. apply dtype_quantized_data. Qed.

Lemma dtype_x :
  dtype_of tenv (Softmax.x operand input_zero_point axis) = Some (Int 64).
Proof.
  unfold Softmax.x. cbn [dtype_of]. now rewrite dtype_quantized_data, dtype_max.
Qed.

Lemma dtype_x_p :
  dtype_of tenv (Softmax.x_p operand input_zero_point axis) = Some (Int 64).
Proof. unfold Softmax.x_p. cbn [dtype_of]. now rewrite !dtype_x. Qed.

Lemma dtype_q :
  dtype_of tenv (Softmax.q operand input_scale input_zero_point axis) = Some (Int 64).
Proof. unfold Softmax.q. cbn [dtype_of]. now rewrite dtype_x_p, dtype_x_0. Qed.

Lemma dtype_r :
  dtype_of tenv (Softmax.r operand input_scale input_zero_point axis) = Some (Int 64).
Proof. unfold Softmax.r. cbn [dtype_of]. now rewrite dtype_x_p, dtype_q, dtype_x_0. Qed.

Lemma dtype_x_b :
  dtype_of tenv (Softmax.x_b operand input_scale input_zero_point axis) = Some (Int 64).
Proof. unfold Softmax.x_b. cbn [dtype_of]. now rewrite dtype_r, dtype_x_0. Qed.

Lemma dtype_exps :
  dtype_of tenv (Softmax.exps operand input_scale input_zero_point axis) = Some (Int 64).
Proof. unfold Softmax.exps. cbn [dtype_of]. now rewrite dtype_x_b, dtype_q. Qed.

Lemma dtype_sums :
  dtype_of tenv (Softmax.sums operand input_scale input_zero_point axis) = Some (Int 64).
Proof. unfold Softmax.sums. cbn [dtype_of]. apply dtype_exps. Qed.

Lemma dtype_output :
  dtype_of tenv (Softmax.output operand input_scale input_zero_point axis)
  = Some (Int 64).
Proof. unfold Softmax.output. cbn [dtype_of]. now rewrite dtype_sums, dtype_exps. Qed.
End Dtypes.

Lemma cast_targets_output operand input_scale input_zero_point axis :
  cast_targets operand = [] -> cast_targets input_scale = [] ->
  cast_targets input_zero_point = [] ->
  Forall (fun dt => dt = Int 64)
    (cast_targets (Softmax.output operand input_scale input_zero_point axis)).
Proof.
  intros H0 H1 H2.
  unfold Softmax.output, Softmax.sums, Softmax.exps, Softmax.x_b, Softmax.r,
    Softmax.q, Softmax.x_p, Softmax.x, Softmax.max, Softmax.quantized_data,
    Softmax.x_0, Softmax.const_i64, MakeConstantScalar.
  cbn [cast_targets]. rewrite H0, H1, H2. cbn [app].
  repeat constructor.
Qed.

(** ** What the lowering returns *)

Lemma canonicalize_result attrs new_args arg_types e :
  QnnSoftmaxCanonicalize attrs new_args arg_types = Ok e ->
  exists operand input_scale input_zero_point output_scale output_zero_point
         axis input_shape dtype rest,
    new_args = [operand; input_scale; input_zero_point; output_scale;
                output_zero_point]
    /\ attrs = SoftmaxAttrs axis
    /\ arg_types = TensorType input_shape dtype :: rest
    /\ e = Softmax.requantized operand input_scale input_zero_point
             output_scale output_zero_point axis input_shape.
Proof.
  unfold QnnSoftmaxCanonicalize. intros He.
  destruct new_args as [|a0 [|a1 [|a2 [|a3 [|a4 [|a5 rest]]]]]];
    try discriminate He.
  cbn [List.length Nat.eqb] in He. rewrite ICHECK_true in He. cbn [bind] in He.
  destruct attrs as [axis|]; [|discriminate He]. cbn [SoftmaxAttrs_axis bind] in He.
  destruct arg_types as [|[s d| |] rest]; try discriminate He.
  cbn [nth_error bind] in He. injection He as <-.
  exists a0, a1, a2, a3, a4, axis, s, d, rest. repeat split; reflexivity.
Qed.

(** ** Nodes of the lowered expression *)

Lemma subterms_self e : In e (subterms e).
Proof. destruct e; left; reflexivity. Qed.

Lemma subterms_trans a b c :
  In b (subterms c) -> In a (subterms b) -> In a (subterms c).
Proof.
  induction c; intros Hb Ha; destruct Hb as [<-|Hb]; try exact Ha;
    cbn [subterms] in *; right;
    repeat match goal with
           | H : In _ (_ ++ _) |- _ => apply in_app_or in H; destruct H as [H|H]
           | H : In _ [] |- _ => destruct H
           end;
    repeat first
      [ solve [ auto ]
      | apply in_or_app; left; solve [ auto ]
      | apply in_or_app; right ].
Qed.

Ltac in_sub :=
  match goal with
  | |- In ?t (subterms ?t) => apply subterms_self
  | |- In ?t (?t :: _) => left; reflexivity
  | |- In _ (_ :: _) => right; in_sub
  | |- In _ (_ ++ _) => apply in_or_app; left; in_sub
  | |- In _ (_ ++ _) => apply in_or_app; right; in_sub
  end.

Section Nodes.
Variables operand input_scale input_zero_point : Expr.
Variable axis : Z.

Lemma sub_output_exps :
  In (Softmax.exps operand input_scale input_zero_point axis)
     (subterms (Softmax.output operand input_scale input_zero_point axis)).
Proof. unfold Softmax.output. cbn [subterms]. in_sub. Qed.

Lemma sub_output_sums :
  In (Softmax.sums operand input_scale input_zero_point axis)
     (subterms (Softmax.output operand input_scale input_zero_point axis)).
Proof. unfold Softmax.output. cbn [subterms]. in_sub. Qed.

Lemma sub_output_x_b :
  In (Softmax.x_b operand input_scale input_zero_point axis)
     (subterms (Softmax.output operand input_scale input_zero_point axis)).
Proof.
  apply (subterms_trans _ _ _ sub_output_exps).
  unfold Softmax.exps. cbn [subterms]. in_sub.
Qed.

Lemma sub_output_q :
  In (Softmax.q operand input_scale input_zero_point axis)
     (subterms (Softmax.output operand input_scale input_zero_point axis)).
Proof.
  apply (subterms_trans _ _ _ sub_output_exps).
  unfold Softmax.exps. cbn [subterms]. in_sub.
Qed.

Lemma sub_output_r :
  In (Softmax.r operand input_scale input_zero_point axis)
     (subterms (Softmax.output operand input_scale input_zero_point axis)).
Proof.
  apply (subterms_trans _ _ _ sub_output_x_b).
  unfold Softmax.x_b. cbn [subterms]. in_sub.
Qed.

Lemma sub_output_x_0 :
  In (Softmax.x_0 input_scale)
     (subterms (Softmax.output operand input_scale input_zero_point axis)).
Proof.
  apply (subterms_trans _ _ _ sub_output_x_b).
  unfold Softmax.x_b. cbn [subterms]. in_sub.
Qed.

Lemma sub_output_x_p :
  In (Softmax.x_p operand input_zero_point axis)
     (subterms (Softmax.output operand input_scale input_zero_point axis)).
Proof.
  apply (subterms_trans _ _ _ sub_output_q).
  unfold Softmax.q. cbn [subterms]. in_sub.
Qed.

Lemma sub_output_x :
  In (Softmax.x operand input_zero_point axis)
     (subterms (Softmax.output operand input_scale input_zero_point axis)).
Proof.
  apply (subterms_trans _ _ _ sub_output_x_p).
  unfold Softmax.x_p. cbn [subterms]. in_sub.
Qed.

Lemma sub_output_max :
  In (Softmax.max operand input_zero_point axis)
     (subterms (Softmax.output operand input_scale input_zero_point axis)).
Proof.
  apply (subterms_trans _ _ _ sub_output_x).
  unfold Softmax.x. cbn [subterms]. in_sub.
Qed.

Lemma sub_output_quantized_data :
  In (Softmax.quantized_data operand input_zero_point)
     (subterms (Softmax.output operand input_scale input_zero_point axis)).
Proof.
  apply (subterms_trans _ _ _ sub_output_x).
  unfold Softmax.x. cbn [subterms]. in_sub.
Qed.

Lemma sub_output_widened :
  In (Cast operand (Int 64))
     (subterms (Softmax.output operand input_scale input_zero_point axis)).
Proof.
  apply (subterms_trans _ _ _ sub_output_quantized_data).
  unfold Softmax.quantized_data. cbn [subterms]. in_sub.
Qed.
End Nodes.

(** ** Dtypes of every node *)

Ltac node_dtype :=
  right; left; cbn [dtype_of MakeConstantScalar Softmax.const_i64];
  repeat first
    [ rewrite dtype_output by assumption
    | rewrite dtype_sums by assumption
    | rewrite dtype_exps by assumption
    | rewrite dtype_x_b by assumption
    | rewrite dtype_r by assumption
    | rewrite dtype_q by assumption
    | rewrite dtype_x_p by assumption
    | rewrite dtype_x by assumption
    | rewrite dtype_max by assumption
    | rewrite dtype_x_0 by assumption
    | rewrite dtype_quantized_data by assumption ];
  repeat match goal with
         | H : dtype_of _ _ = Some _ |- _ => rewrite H
         end;
  reflexivity.

Ltac nodes known :=
  cbn [subterms];
  repeat first
    [ known
    | apply Forall_nil
    | apply Forall_app; split
    | apply Forall_cons;
      [ first [ solve [ node_dtype ] | solve [ right; right; simpl; auto 6 ] ] | ] ].

Section NodeDtypes.
Variable tenv : string -> option DataType.
Variables operand input_scale input_zero_point : Expr.
Variable axis : Z.
Hypothesis Hoperand : dtype_of tenv operand = Some (Int 8).
Hypothesis Hscale : dtype_of tenv input_scale = Some (Float 32).
Hypothesis Hzero : dtype_of tenv input_zero_point = Some (Int 32).

Lemma nodes_operand :
  Forall (int64_node tenv operand input_scale input_zero_point) (subterms operand).
Proof. apply Forall_forall. intros t Ht. left. apply in_or_app. now left. Qed.

Lemma nodes_input_scale :
  Forall (int64_node tenv operand input_scale input_zero_point)
    (subterms input_scale).
Proof.
  apply Forall_forall. intros t Ht. left.
  apply in_or_app. right. apply in_or_app. now left.
Qed.

Lemma nodes_input_zero_point :
  Forall (int64_node tenv operand input_scale input_zero_point)
    (subterms input_zero_point).
Proof.
  apply Forall_forall. intros t Ht. left.
  apply in_or_app. right. apply in_or_app. now right.
Qed.

Lemma nodes_quantized_data :
  Forall (int64_node tenv operand input_scale input_zero_point)
    (subterms (Softmax.quantized_data operand input_zero_point)).
Proof.
  unfold Softmax.quantized_data.
  nodes ltac:(first [ exact nodes_operand | exact nodes_input_zero_point ]).
Qed.

Lemma nodes_x_0 :
  Forall (int64_node tenv operand input_scale input_zero_point)
    (subterms (Softmax.x_0 input_scale)).
Proof.
  unfold Softmax.x_0. nodes ltac:(exact nodes_input_scale).
Qed.

Lemma nodes_x :
  Forall (int64_node tenv operand input_scale input_zero_point)
    (subterms (Softmax.x operand input_zero_point axis)).
Proof.
  unfold Softmax.x, Softmax.max. nodes ltac:(exact nodes_quantized_data).
Qed.

Lemma nodes_x_p :
  Forall (int64_node tenv operand input_scale input_zero_point)
    (subterms (Softmax.x_p operand input_zero_point axis)).
Proof. unfold Softmax.x_p. nodes ltac:(exact nodes_x). Qed.

Lemma nodes_q :
  Forall (int64_node tenv operand input_scale input_zero_point)
    (subterms (Softmax.q operand input_scale input_zero_point axis)).
Proof.
  unfold Softmax.q. nodes ltac:(first [ exact nodes_x_p | exact nodes_x_0 ]).
Qed.

Lemma nodes_r :
  Forall (int64_node tenv operand input_scale input_zero_point)
    (subterms (Softmax.r operand input_scale input_zero_point axis)).
Proof.
  unfold Softmax.r.
  nodes ltac:(first [ exact nodes_x_p | exact nodes_q | exact nodes_x_0 ]).
Qed.

Lemma nodes_x_b :
  Forall (int64_node tenv operand input_scale input_zero_point)
    (subterms (Softmax.x_b operand input_scale input_zero_point axis)).
Proof.
  unfold Softmax.x_b. nodes ltac:(first [ exact nodes_r | exact nodes_x_0 ]).
Qed.

Lemma nodes_exps :
  Forall (int64_node tenv operand input_scale input_zero_point)
    (subterms (Softmax.exps operand input_scale input_zero_point axis)).
Proof.
  unfold Softmax.exps. nodes ltac:(first [ exact nodes_x_b | exact nodes_q ]).
Qed.

Lemma nodes_output :
  Forall (int64_node tenv operand input_scale input_zero_point)
    (subterms (Softmax.output operand input_scale input_zero_point axis)).
Proof.
  unfold Softmax.output, Softmax.sums. nodes ltac:(exact nodes_exps).
Qed.
End NodeDtypes.

(** * The claims *)

(** C1.  Whatever the lowering returns is a requantize call whose data
    operand is a cast to Int(32) of a wide expression, and that wide
    expression computes exactly the integer sequence of the specification
    with n = 30, m = 60, bits = 8: for every operand value (an int8 tensor
    among them) it evaluates to the specification's [output_wide] and
    fails exactly where the sequence fails; and the wide expression holds,
    as nodes, a stage for each of centered, x, x_p, x0, q, r, x_b and exps
    that evaluates to the stage of the sequence. *)
Theorem lowered_fragment_computes_spec_sequence
    (attrs : Attrs) (new_args : list Expr) (arg_types : list Type_) (e : Expr) :
  QnnSoftmaxCanonicalize attrs new_args arg_types = Ok e ->
  exists operand input_scale input_zero_point output_scale output_zero_point
         axis input_shape wide centered x x_p x0 q r x_b exps,
    new_args = [operand; input_scale; input_zero_point; output_scale;
                output_zero_point]
    /\ attrs = SoftmaxAttrs axis
    /\ e = Requantize (Cast wide (Int 32)) input_shape
             (f32_const (f32_div f32_one (f32_of_Z (Z.shiftl 1 Softmax.bits))))
             (Softmax.const_i64 0) output_scale output_zero_point
             (Int Softmax.bits) 0
    /\ Forall (fun t => In t (subterms wide))
         [centered; x; x_p; x0; q; r; x_b; exps]
    /\ (Spec.n = 30 /\ Spec.m = 60 /\ Spec.bits = 8)
    /\ forall (env : Env) (d sc z : Value),
         eval env operand = Ok d ->
         eval env input_scale = Ok sc ->
         eval env input_zero_point = Ok z ->
         eval env wide = (st <- Spec.softmax d sc z axis ;; Ok (Spec.output_wide st))
         /\ forall st, Spec.softmax d sc z axis = Ok st ->
              eval env centered = Ok (Spec.centered st)
              /\ eval env x = Ok (Spec.x st)
              /\ eval env x_p = Ok (Spec.x_p st)
              /\ eval env x0 = Ok (Spec.x0 st)
              /\ eval env q = Ok (Spec.q st)
              /\ eval env r = Ok (Spec.r st)
              /\ eval env x_b = Ok (Spec.x_b st)
              /\ eval env exps = Ok (Spec.exps st).
Proof.
  intros He.
  destruct (canonicalize_result _ _ _ _ He)
    as [operand [input_scale [input_zero_point [output_scale [output_zero_point
       [axis [input_shape [dtype [rest [-> [-> [-> ->]]]]]]]]]]]].
  exists operand, input_scale, input_zero_point, output_scale, output_zero_point,
    axis, input_shape,
    (Softmax.output operand input_scale input_zero_point axis),
    (Softmax.quantized_data operand input_zero_point),
    (Softmax.x operand input_zero_point axis),
    (Softmax.x_p operand input_zero_point axis),
    (Softmax.x_0 input_scale),
    (Softmax.q operand input_scale input_zero_point axis),
    (Softmax.r operand input_scale input_zero_point axis),
    (Softmax.x_b operand input_scale input_zero_point axis),
    (Softmax.exps operand input_scale input_zero_point axis).
  split; [reflexivity|]. split; [reflexivity|]. split; [reflexivity|].
  split.
  { repeat match goal with
           | |- Forall _ (_ :: _) => apply Forall_cons
           | |- Forall _ [] => apply Forall_nil
           end; cbv beta.
    - apply sub_output_quantized_data.
    - apply sub_output_x.
    - apply sub_output_x_p.
    - apply sub_output_x_0.
    - apply sub_output_q.
    - apply sub_output_r.
    - apply sub_output_x_b.
    - apply sub_output_exps. }
  split; [repeat split|].
  intros env d sc z Hd Hs Hz. split.
  - apply eval_output_spec; assumption.
  - intros st Hst. eapply eval_stages_spec; eassumption.
Qed.

Lemma lowered_fragment_computes_spec_sequence_witness :
  exists wide,
    QnnSoftmaxCanonicalize (SoftmaxAttrs 0)
      [Var "data"; f32_const scale_1_256; i32_const 0; f32_const scale_1_256;
       i32_const (-128)]
      [TensorType [IntImm 3] (Int 8)]
    = Ok (Requantize (Cast wide (Int 32)) [IntImm 3]
            (f32_const (f32_div f32_one (f32_of_Z (Z.shiftl 1 Softmax.bits))))
            (Softmax.const_i64 0) (f32_const scale_1_256) (i32_const (-128))
            (Int Softmax.bits) 0)
    /\ eval (env_data (int8_tensor [3%nat] [10; 20; 5])) (Var "data")
       = Ok (int8_tensor [3%nat] [10; 20; 5])
    /\ eval (env_data (int8_tensor [3%nat] [10; 20; 5])) wide
       = (st <- Spec.softmax (int8_tensor [3%nat] [10; 20; 5])
                   (VFloat (scalar scale_1_256)) (VInt 32 (scalar 0)) 0 ;;
          Ok (Spec.output_wide st)).
Proof.
  destruct (lowered_fragment_computes_spec_sequence (SoftmaxAttrs 0)
              [Var "data"; f32_const scale_1_256; i32_const 0;
               f32_const scale_1_256; i32_const (-128)]
              [TensorType [IntImm 3] (Int 8)] _ eq_refl)
    as [operand [input_scale [input_zero_point [output_scale [output_zero_point
       [axis [input_shape [wide [centered [x [x_p [x0 [q [r [x_b [exps
       [Hargs [Hattrs [He [_ [_ Hsem]]]]]]]]]]]]]]]]]]]]].
  injection Hargs as <- <- <- <- <-. injection Hattrs as <-.
  unfold Softmax.requantized in He. inversion He; subst.
  eexists. split; [reflexivity|]. split; [reflexivity|].
  apply (Hsem (env_data (int8_tensor [3%nat] [10; 20; 5]))
           (int8_tensor [3%nat] [10; 20; 5]) (VFloat (scalar scale_1_256))
           (VInt 32 (scalar 0))); reflexivity.
Defined.

(** C2 (counterexample).  With the float32 scale 4.0 the constant
    round(1/scale_in) evaluates to 0; the lowering still returns the
    complete fragment, and evaluating its quotient step divides by zero. *)
Lemma zero_reciprocal_is_not_rejected :
  eval (env_data (int8_tensor [3%nat] [10; 20; 5])) (Softmax.x_0 (f32_const scale_4))
  = Ok (VInt 64 (scalar 0))
  /\ QnnSoftmaxCanonicalize (SoftmaxAttrs 0)
       [Var "data"; f32_const scale_4; i32_const 0; f32_const scale_1_256; i32_const (-128)]
       [TensorType [IntImm 3] (Int 8)]
     = Ok (Softmax.requantized (Var "data") (f32_const scale_4) (i32_const 0)
             (f32_const scale_1_256) (i32_const (-128)) 0 [IntImm 3])
  /\ eval (env_data (int8_tensor [3%nat] [10; 20; 5]))
       (Softmax.q (Var "data") (f32_const scale_4) (i32_const 0) 0)
     = Fatal DivideByZero.
Proof. repeat split; vm_compute; reflexivity. Qed.

(** C2 (amended).  The lowering does not look at scale_in.  It returns a
    fragment exactly when it is given five arguments, softmax attributes
    and a tensor type for the operand, whatever the scale is; and when the
    reciprocal-scale constant of that fragment evaluates to 0, evaluating
    the quotient step over a non-empty operand is an integer division by
    zero. *)
Theorem lowering_does_not_check_reciprocal_scale
    (attrs : Attrs) (new_args : list Expr) (arg_types : list Type_) :
  ((exists e, QnnSoftmaxCanonicalize attrs new_args arg_types = Ok e)
   <-> (List.length new_args = 5%nat
        /\ (exists axis, attrs = SoftmaxAttrs axis)
        /\ (exists s d, nth_error arg_types 0 = Some (TensorType s d))))
  /\ forall env operand input_scale input_zero_point axis s l,
       eval env (Softmax.x_p operand input_zero_point axis)
       = Ok (VInt 64 (mkTensor s l)) ->
       List.length l = numel s -> l <> [] ->
       eval env (Softmax.x_0 input_scale) = Ok (VInt 64 (scalar 0)) ->
       eval env (Softmax.q operand input_scale input_zero_point axis)
       = Fatal DivideByZero.
Proof.
  split.
  - apply canonicalize_success_iff.
  - intros. eapply eval_q_zero_divisor; eassumption.
Qed.

Lemma lowering_does_not_check_reciprocal_scale_witness :
  (exists e,
      QnnSoftmaxCanonicalize (SoftmaxAttrs 0)
        [Var "data"; f32_const scale_4; i32_const 0; f32_const scale_1_256;
         i32_const (-128)]
        [TensorType [IntImm 3] (Int 8)] = Ok e)
  /\ eval (env_data (int8_tensor [3%nat] [10; 20; 5]))
       (Softmax.q (Var "data") (f32_const scale_4) (i32_const 0) 0)
     = Fatal DivideByZero.
Proof.
  pose proof (lowering_does_not_check_reciprocal_scale (SoftmaxAttrs 0)
                [Var "data"; f32_const scale_4; i32_const 0;
                 f32_const scale_1_256; i32_const (-128)]
                [TensorType [IntImm 3] (Int 8)]) as [Hiff Hdiv].
  split.
  - apply Hiff. split; [reflexivity|]. split; [exists 0; reflexivity|].
    exists [IntImm 3], (Int 8). reflexivity.
  - apply (Hdiv (env_data (int8_tensor [3%nat] [10; 20; 5])) (Var "data")
             (f32_const scale_4) (i32_const 0) 0 [3%nat] [-14; 0; -22]).
    + reflexivity.
    + reflexivity.
    + discriminate.
    + reflexivity.
Defined.

(** C3 (counterexample).  The int8 operand [127, -128] with scale 1.0
    (x0 = 1 > 0) and zero point 0 is a valid input; at its second element
    the quotient is 367 > n = 30, and the left shift by n - q = -337 is
    outside the defined range. *)
Lemma quotient_exceeds_shift_width :
  eval (env_data (int8_tensor [2%nat] [127; -128])) (Softmax.x_0 (f32_const scale_1))
  = Ok (VInt 64 (scalar 1))
  /\ eval (env_data (int8_tensor [2%nat] [127; -128]))
       (Softmax.q (Var "data") (f32_const scale_1) (i32_const 0) 0)
     = Ok (VInt 64 (mkTensor [2%nat] [0; 367]))
  /\ Softmax.n < 367
  /\ eval (env_data (int8_tensor [2%nat] [127; -128]))
       (Subtract (Softmax.const_i64 Softmax.n)
          (Softmax.q (Var "data") (f32_const scale_1) (i32_const 0) 0))
     = Ok (VInt 64 (mkTensor [2%nat] [30; -337]))
  /\ eval (env_data (int8_tensor [2%nat] [127; -128]))
       (Softmax.exps (Var "data") (f32_const scale_1) (i32_const 0) 0)
     = Fatal ShiftOutOfRange.
Proof. repeat split; vm_compute; reflexivity. Qed.

(** C3 (amended).  For every int8 operand, int32 zero point and valid axis,
    if the reciprocal-scale constant x0 = round(1/scale_in) is at least 12,
    every element of the quotient q = x_p / (-x0) lies between 0 and
    n = 30, every elementwise shift amount n - q lies between 0 and 30, and
    the exponent-approximation step evaluates without a shift error. *)
Theorem quotient_within_shift_width_from_x0_12
    (env : Env) (operand input_scale input_zero_point : Expr) (axis : Z)
    (s : list nat) (l : list Z) (z x0 : Z) :
  eval env operand = Ok (VInt 8 (mkTensor s l)) ->
  List.length l = numel s ->
  Forall (fun v => -128 <= v <= 127) l ->
  eval env input_zero_point = Ok (VInt 32 (scalar z)) ->
  - 2147483648 <= z < 2147483648 ->
  - Z.of_nat (List.length s) <= axis < Z.of_nat (List.length s) ->
  eval env (Softmax.x_0 input_scale) = Ok (VInt 64 (scalar x0)) ->
  12 <= x0 ->
  exists lq lsh lexp,
    eval env (Softmax.q operand input_scale input_zero_point axis)
    = Ok (VInt 64 (mkTensor s lq))
    /\ Forall (fun v => 0 <= v <= Softmax.n) lq
    /\ eval env (Subtract (Softmax.const_i64 Softmax.n)
                   (Softmax.q operand input_scale input_zero_point axis))
       = Ok (VInt 64 (mkTensor s lsh))
    /\ Forall (fun v => 0 <= v <= Softmax.n) lsh
    /\ eval env (Softmax.exps operand input_scale input_zero_point axis)
       = Ok (VInt 64 (mkTensor s lexp)).
Proof.
  intros Hd Hl Hint8 Hz Hint32 Haxis Hx0 H12.
  destruct (real_axis_valid _ _ Haxis) as [k Hk].
  destruct (eval_x_range env operand input_zero_point axis s l z k
              Hd Hl Hint8 Hz Hint32 Hk) as [lx [Hx [Hlx Hrx]]].
  destruct (eval_cast_int64_range env _ _ Hx0) as [t [Et Hr0]].
  injection Et as <-. apply Forall_inv in Hr0. cbn [data scalar] in Hr0.
  exists (map (Elem.q x0) lx), (map (Elem.shift x0) lx), (map (Elem.exps x0) lx).
  split; [eapply eval_q; eassumption|].
  split; [eapply Forall_map_range; [exact Hrx|];
          intros v Hv; apply Elem_q_range; assumption|].
  split; [eapply eval_shift; eassumption|].
  split; [eapply Forall_map_range; [exact Hrx|];
          intros v Hv; apply Elem_shift_range; assumption|].
  eapply eval_exps; eassumption.
Qed.

Lemma quotient_within_shift_width_from_x0_12_witness :
  exists lq lsh lexp,
    eval (env_data (int8_tensor [2%nat] [127; -128]))
      (Softmax.q (Var "data") (f32_const scale_1_16) (i32_const 0) 0)
    = Ok (VInt 64 (mkTensor [2%nat] lq))
    /\ Forall (fun v => 0 <= v <= Softmax.n) lq
    /\ eval (env_data (int8_tensor [2%nat] [127; -128]))
         (Subtract (Softmax.const_i64 Softmax.n)
            (Softmax.q (Var "data") (f32_const scale_1_16) (i32_const 0) 0))
       = Ok (VInt 64 (mkTensor [2%nat] lsh))
    /\ Forall (fun v => 0 <= v <= Softmax.n) lsh
    /\ eval (env_data (int8_tensor [2%nat] [127; -128]))
         (Softmax.exps (Var "data") (f32_const scale_1_16) (i32_const 0) 0)
       = Ok (VInt 64 (mkTensor [2%nat] lexp)).
Proof.
  apply (quotient_within_shift_width_from_x0_12
           (env_data (int8_tensor [2%nat] [127; -128])) (Var "data")
           (f32_const scale_1_16) (i32_const 0) 0 [2%nat] [127; -128] 0 16).
  - reflexivity.
  - reflexivity.
  - repeat constructor; discriminate.
  - reflexivity.
  - lia.
  - simpl. lia.
  - reflexivity.
  - lia.
Defined.

(** C4.  For the 1-D int8 operand [10, 20, 5] with scale_in = 1/256,
    zero_point_in = 0 and axis = 0, the fragment the lowering returns is a
    requantize call on the wide output narrowed to Int(32); the wide
    output is ((1 << m) / sum(exps)) * exps >> (m - bits) for a stage exps
    that is largest at the element 20, and the wide output is largest at
    that element too. *)
Theorem rank_order_of_example_is_kept
    (output_scale output_zero_point : Expr) (rest : list Type_) :
  f32_to_Q scale_1_256 = Some (8388608 # 2147483648)
  /\ (8388608 # 2147483648 == 1 # 256)%Q
  /\ largest_at 1 [10; 20; 5] = true
  /\ exists wide exps requantize_scale requantize_zero_point,
       QnnSoftmaxCanonicalize (SoftmaxAttrs 0)
         [Var "data"; f32_const scale_1_256; i32_const 0; output_scale;
          output_zero_point]
         (TensorType [IntImm 3] (Int 8) :: rest)
       = Ok (Requantize (Cast wide (Int 32)) [IntImm 3] requantize_scale
               requantize_zero_point output_scale output_zero_point (Int 8) 0)
       /\ wide
          = RightShift
              (Multiply
                 (Divide (Softmax.const_i64 (Z.shiftl 1 60))
                    (Sum exps [0] true false))
                 exps)
              (Softmax.const_i64 (60 - 8))
       /\ eval (env_data (int8_tensor [3%nat] [10; 20; 5])) exps
          = Ok (VInt 64
                  (mkTensor [3%nat] [267361714176; 274877906944; 263066746880]))
       /\ largest_at 1 [267361714176; 274877906944; 263066746880] = true
       /\ eval (env_data (int8_tensor [3%nat] [10; 20; 5])) wide
          = Ok (VInt 64 (mkTensor [3%nat] [84; 87; 83]))
       /\ largest_at 1 [84; 87; 83] = true.
Proof.
  split; [vm_compute; reflexivity|]. split; [vm_compute; reflexivity|].
  split; [vm_compute; reflexivity|].
  exists (Softmax.output (Var "data") (f32_const scale_1_256) (i32_const 0) 0),
    (Softmax.exps (Var "data") (f32_const scale_1_256) (i32_const 0) 0),
    (f32_const (f32_div f32_one (f32_of_Z (Z.shiftl 1 Softmax.bits)))),
    (Softmax.const_i64 0).
  split; [reflexivity|]. split; [reflexivity|].
  repeat split; vm_compute; reflexivity.
Qed.




(** C6 (counterexample).  The first type is a tensor type whose dtype is
    uint8, hence not an int8 tensor type; the relation does not return
    false, it stops on the failed dtype check. *)
Lemma non_int8_tensor_is_not_unresolved :
  QnnSoftmaxRel IdentityRel (relation_types (TensorType [IntImm 3] (UInt 8)))
    5 (SoftmaxAttrs 0) []
  = Fatal (CheckFailed "Expected quantized softmax type(int8) for input").
Proof. reflexivity. Qed.

(** C6 (amended).  For every list of six types whose first element is not
    a tensor type, the relation is unresolved: it returns false without
    raising and leaves the reporter as it was.  When the first element is
    a tensor type of another dtype than int8, it stops on a failed check
    instead. *)
Theorem validator_unresolved_only_for_non_tensor_input
    {R : Type} `{TypeReporter R} (rel : TypeRelationFn R)
    (t0 t1 t2 t3 t4 t5 : Type_) (num_inputs : Z) (attrs : Attrs) (reporter : R) :
  ((forall s d, t0 <> TensorType s d) ->
   QnnSoftmaxRel rel [t0; t1; t2; t3; t4; t5] num_inputs attrs reporter
   = Ok (false, reporter))
  /\ (forall s d, t0 = TensorType s d -> d <> Int 8 ->
      check_fails
        (QnnSoftmaxRel rel [t0; t1; t2; t3; t4; t5] num_inputs attrs reporter)).
Proof.
  split.
  - apply QnnSoftmaxRel_not_tensor.
  - intros s d -> Hd. apply QnnSoftmaxRel_wrong_dtype. exact Hd.
Qed.

Lemma validator_unresolved_only_for_non_tensor_input_witness :
  QnnSoftmaxRel IdentityRel (relation_types (IncompleteType 7)) 5 (SoftmaxAttrs 0) []
  = Ok (false, [])
  /\ check_fails
       (QnnSoftmaxRel IdentityRel (relation_types (TensorType [IntImm 3] (UInt 8)))
          5 (SoftmaxAttrs 0) []).
Proof.
  split.
  - apply (proj1 (validator_unresolved_only_for_non_tensor_input IdentityRel
                    (IncompleteType 7) scalar_f32 scalar_i32 scalar_f32 scalar_i32
                    (IncompleteType 0) 5 (SoftmaxAttrs 0) [])).
    discriminate.
  - apply (proj2 (validator_unresolved_only_for_non_tensor_input IdentityRel
                    (TensorType [IntImm 3] (UInt 8)) scalar_f32 scalar_i32
                    scalar_f32 scalar_i32 (IncompleteType 0) 5 (SoftmaxAttrs 0) [])
             [IntImm 3] (UInt 8)).
    + reflexivity.
    + discriminate.
Defined.

(** C7.  Every lowering of five arguments with softmax attributes and a
    tensor operand type returns exactly the requantize call on the wide
    output narrowed to Int(32), the operand's shape, the float32 constant
    that is exactly 1/256 = 1/(1 << bits), the zero point 0, the node's
    output scale and zero point, and the target dtype Int(bits) = Int(8). *)
Theorem lowering_ends_in_requantize
    (axis : Z) (operand input_scale input_zero_point output_scale
     output_zero_point : Expr) (input_shape : list IndexExpr) (dtype : DataType)
    (rest : list Type_) :
  QnnSoftmaxCanonicalize (SoftmaxAttrs axis)
    [operand; input_scale; input_zero_point; output_scale; output_zero_point]
    (TensorType input_shape dtype :: rest)
  = Ok (Requantize
          (Cast (Softmax.output operand input_scale input_zero_point axis) (Int 32))
          input_shape
          (Constant (Float 32) [] [LFloat (S754_finite false 8388608 (-31))])
          (Constant (Int 64) [] [LInt 0])
          output_scale output_zero_point (Int 8) 0)
  /\ f32_to_Q (S754_finite false 8388608 (-31)) = Some (8388608 # 2147483648)
  /\ (8388608 # 2147483648 == 1 # Z.to_pos (Z.shiftl 1 Softmax.bits))%Q
  /\ Int Softmax.bits = Int 8.
Proof. repeat split; reflexivity. Qed.

(** C8.  Whenever the relation succeeds with an identity rule that meets
    the identity-shape contract, the output slot resolves to a type of
    exactly the operand's shape.  The relation itself assigns only the
    four parameter slots; the operand and the output slot are handed to
    the identity rule, whose answer is the relation's answer. *)
Theorem validator_output_has_input_shape
    {R : Type} `{TypeReporter R} (rel : TypeRelationFn R)
    (types : list Type_) (num_inputs : Z) (attrs : Attrs) (reporter r' : R) :
  identity_shape_rule rel ->
  QnnSoftmaxRel rel types num_inputs attrs reporter = Ok (true, r') ->
  exists s t1 t2 t3 t4 t5 r4,
    types = [TensorType s (Int 8); t1; t2; t3; t4; t5]
    /\ shape_of (resolve r' t5) = Some s
    /\ assign_parameters t1 t2 t3 t4 reporter = Ok r4
    /\ rel [TensorType s (Int 8); t5] 2 attrs r4 = Ok (true, r').
Proof.
  intros Hrule Hrun.
  destruct (QnnSoftmaxRel_success rel _ _ _ _ _ Hrun)
    as [s [t1 [t2 [t3 [t4 [t5 [r1 [r2 [r3 [r4 [-> [E1 [E2 [E3 [E4 Hrel]]]]]]]]]]]]]]].
  exists s, t1, t2, t3, t4, t5, r4.
  split; [reflexivity|]. split; [eapply Hrule; exact Hrel|].
  split; [|exact Hrel].
  unfold assign_parameters. rewrite E1. cbn [bind]. rewrite E2. cbn [bind].
  rewrite E3. cbn [bind]. exact E4.
Qed.

Lemma validator_output_has_input_shape_witness :
  QnnSoftmaxRel IdentityRel
    (relation_types (TensorType [IntImm 2; IntImm 3] (Int 8))) 5 (SoftmaxAttrs 1) []
  = Ok (true, [(0%nat, TensorType [IntImm 2; IntImm 3] (Int 8))])
  /\ exists s t1 t2 t3 t4 t5 r4,
       relation_types (TensorType [IntImm 2; IntImm 3] (Int 8))
       = [TensorType s (Int 8); t1; t2; t3; t4; t5]
       /\ shape_of (resolve [(0%nat, TensorType [IntImm 2; IntImm 3] (Int 8))] t5)
          = Some s
       /\ assign_parameters t1 t2 t3 t4 [] = Ok r4
       /\ IdentityRel [TensorType s (Int 8); t5] 2 (SoftmaxAttrs 1) r4
          = Ok (true, [(0%nat, TensorType [IntImm 2; IntImm 3] (Int 8))]).
Proof.
  split; [reflexivity|].
  apply (validator_output_has_input_shape IdentityRel
           (relation_types (TensorType [IntImm 2; IntImm 3] (Int 8))) 5
           (SoftmaxAttrs 1) []
           [(0%nat, TensorType [IntImm 2; IntImm 3] (Int 8))]).
  - exact IdentityRel_identity_shape_rule.
  - reflexivity.
Defined.

(** C9 (counterexample).  The operand has rank 2 and the node asks for
    axis = 2; the relation succeeds. *)
Lemma axis_out_of_bounds_passes_validation :
  QnnSoftmaxRel IdentityRel
    (relation_types (TensorType [IntImm 2; IntImm 3] (Int 8))) 5 (SoftmaxAttrs 2) []
  = Ok (true, [(0%nat, TensorType [IntImm 2; IntImm 3] (Int 8))]).
Proof. reflexivity. Qed.

(** C9 (amended).  The relation never reads the axis: with an identity
    rule that does not read the attributes, its result is the same for
    every attribute value, so a node whose axis is outside the operand's
    rank is validated exactly like one whose axis is inside. *)
Theorem validator_does_not_read_axis
    {R : Type} `{TypeReporter R} (rel : TypeRelationFn R)
    (types : list Type_) (num_inputs : Z) (attrs1 attrs2 : Attrs) (reporter : R) :
  ignores_attrs rel ->
  QnnSoftmaxRel rel types num_inputs attrs1 reporter
  = QnnSoftmaxRel rel types num_inputs attrs2 reporter.
Proof. intros Hrel. apply QnnSoftmaxRel_attrs. exact Hrel. Qed.

Lemma validator_does_not_read_axis_witness :
  QnnSoftmaxRel IdentityRel
    (relation_types (TensorType [IntImm 2; IntImm 3] (Int 8))) 5 (SoftmaxAttrs 2) []
  = QnnSoftmaxRel IdentityRel
      (relation_types (TensorType [IntImm 2; IntImm 3] (Int 8))) 5 (SoftmaxAttrs 1) [].
Proof.
  apply (validator_does_not_read_axis IdentityRel
           (relation_types (TensorType [IntImm 2; IntImm 3] (Int 8))) 5
           (SoftmaxAttrs 2) (SoftmaxAttrs 1) []).
  exact IdentityRel_ignores_attrs.
Defined.



(** * Further properties *)

(** ** The type relation: deferral and rejection *)

Section RelationMore.
Context {R : Type} `{TypeReporter R}.
Variable rel : TypeRelationFn R.

Lemma IsScalarType_true t dtype :
  IsScalarType t dtype = true -> t = TensorType [] dtype.
Proof.
  destruct t as [[|i s] d| |]; simpl; try discriminate.
  intros E. apply DataType_eqb_eq in E. now subst.
Qed.

Lemma QnnSoftmaxRel_int8_six s t1 t2 t3 t4 t5 num_inputs attrs reporter :
  QnnSoftmaxRel rel [TensorType s (Int 8); t1; t2; t3; t4; t5]
    num_inputs attrs reporter
  = if existsb as_IncompleteType [t1; t2; t3; t4] then Ok (false, reporter)
    else
      ICHECK (IsScalarType t1 (Float 32)) "IsScalarType(types[1], Float(32))" ;;;
      ICHECK (IsScalarType t2 (Int 32)) "IsScalarType(types[2], Int(32))" ;;;
      ICHECK (IsScalarType t3 (Float 32)) "IsScalarType(types[3], Float(32))" ;;;
      ICHECK (IsScalarType t4 (Int 32)) "IsScalarType(types[4], Int(32))" ;;;
      r4 <- assign_parameters t1 t2 t3 t4 reporter ;;
      rel [TensorType s (Int 8); t5] 2 attrs r4.
Proof.
  unfold QnnSoftmaxRel. cbn [List.length Nat.eqb]. rewrite ICHECK_true.
  cbn [bind]. change (DataType_eqb (Int 8) (Int 8)) with true.
  rewrite ICHECK_true. cbn [bind].
  destruct (existsb _ _); [reflexivity|].
  repeat (destruct (ICHECK _ _); cbn [bind]; [|reflexivity]).
  unfold assign_parameters.
  repeat (destruct (Assign _ _ _); cbn [bind]; [|reflexivity]).
  reflexivity.
Qed.
End RelationMore.

(** X1.  With an int8 operand type, a quantization-parameter slot that is
    still an unresolved placeholder makes the relation return false and
    leave the reporter untouched; this comes before the scalar checks, so
    it holds even when another parameter slot is ill-typed. *)
Theorem validator_defers_on_unresolved_parameter
    {R : Type} `{TypeReporter R} (rel : TypeRelationFn R)
    (s : list IndexExpr) (t1 t2 t3 t4 t5 : Type_) (num_inputs : Z)
    (attrs : Attrs) (reporter : R) :
  existsb as_IncompleteType [t1; t2; t3; t4] = true ->
  QnnSoftmaxRel rel [TensorType s (Int 8); t1; t2; t3; t4; t5]
    num_inputs attrs reporter
  = Ok (false, reporter).
Proof. intros Hinc. rewrite QnnSoftmaxRel_int8_six, Hinc. reflexivity. Qed.

Lemma validator_defers_on_unresolved_parameter_witness :
  QnnSoftmaxRel IdentityRel
    [TensorType [IntImm 3] (Int 8); TensorType [IntImm 2] (Float 32);
     IncompleteType 1; scalar_f32; scalar_i32; IncompleteType 0]
    5 (SoftmaxAttrs 0) []
  = Ok (false, []).
Proof.
  apply (validator_defers_on_unresolved_parameter IdentityRel [IntImm 3]
           (TensorType [IntImm 2] (Float 32)) (IncompleteType 1) scalar_f32
           scalar_i32 (IncompleteType 0) 5 (SoftmaxAttrs 0) []).
  reflexivity.
Defined.

(** X2.  A type list that does not have exactly six entries (the empty
    list among them) stops the relation on the failed size check, whatever
    the entries, attributes and reporter are. *)
Theorem validator_rejects_wrong_arity
    {R : Type} `{TypeReporter R} (rel : TypeRelationFn R)
    (types : list Type_) (num_inputs : Z) (attrs : Attrs) (reporter : R) :
  List.length types <> 6%nat ->
  QnnSoftmaxRel rel types num_inputs attrs reporter
  = Fatal (CheckFailed "types.size() == 6").
Proof.
  intros Hlen. unfold QnnSoftmaxRel.
  destruct (Nat.eqb_spec (List.length types) 6) as [E|E]; [contradiction|].
  reflexivity.
Qed.

Lemma validator_rejects_wrong_arity_witness :
  QnnSoftmaxRel IdentityRel [] 5 (SoftmaxAttrs 0) []
  = Fatal (CheckFailed "types.size() == 6")
  /\ QnnSoftmaxRel IdentityRel
       [TensorType [IntImm 3] (Int 8); scalar_f32; scalar_i32; scalar_f32;
        scalar_i32]
       5 (SoftmaxAttrs 0) []
     = Fatal (CheckFailed "types.size() == 6").
Proof.
  split.
  - apply (validator_rejects_wrong_arity IdentityRel [] 5 (SoftmaxAttrs 0) []).
    discriminate.
  - apply (validator_rejects_wrong_arity IdentityRel
             [TensorType [IntImm 3] (Int 8); scalar_f32; scalar_i32; scalar_f32;
              scalar_i32] 5 (SoftmaxAttrs 0) []).
    discriminate.
Defined.

(** X3.  With an int8 operand type and no placeholder among the four
    parameter slots, the relation stops on a failed check as soon as one of
    the four is not its canonical scalar type: a scale that is not a rank-0
    float32 tensor or a zero point that is not a rank-0 int32 tensor, for
    the input and for the output alike. *)
Theorem validator_rejects_non_canonical_parameter
    {R : Type} `{TypeReporter R} (rel : TypeRelationFn R)
    (s : list IndexExpr) (t1 t2 t3 t4 t5 : Type_) (num_inputs : Z)
    (attrs : Attrs) (reporter : R) :
  existsb as_IncompleteType [t1; t2; t3; t4] = false ->
  t1 <> scalar_f32 \/ t2 <> scalar_i32 \/ t3 <> scalar_f32 \/ t4 <> scalar_i32 ->
  check_fails
    (QnnSoftmaxRel rel [TensorType s (Int 8); t1; t2; t3; t4; t5]
       num_inputs attrs reporter).
Proof.
  intros Hinc Hbad. rewrite QnnSoftmaxRel_int8_six, Hinc.
  destruct (IsScalarType t1 (Float 32)) eqn:E1;
    [|rewrite ICHECK_false; eexists; reflexivity].
  destruct (IsScalarType t2 (Int 32)) eqn:E2;
    [|rewrite ICHECK_true, ICHECK_false; eexists; reflexivity].
  destruct (IsScalarType t3 (Float 32)) eqn:E3;
    [|rewrite !ICHECK_true, ICHECK_false; eexists; reflexivity].
  destruct (IsScalarType t4 (Int 32)) eqn:E4;
    [|rewrite !ICHECK_true, ICHECK_false; eexists; reflexivity].
  apply IsScalarType_true in E1, E2, E3, E4.
  unfold scalar_f32, scalar_i32 in Hbad. tauto.
Qed.

Lemma validator_rejects_non_canonical_parameter_witness :
  check_fails
    (QnnSoftmaxRel IdentityRel
       [TensorType [IntImm 3] (Int 8); scalar_f32; scalar_i32; scalar_f32;
        TensorType [] (Int 64); IncompleteType 0]
       5 (SoftmaxAttrs 0) []).
Proof.
  apply (validator_rejects_non_canonical_parameter IdentityRel [IntImm 3]
           scalar_f32 scalar_i32 scalar_f32 (TensorType [] (Int 64))
           (IncompleteType 0) 5 (SoftmaxAttrs 0) []).
  - reflexivity.
  - right. right. right. discriminate.
Defined.

(** X4.  Whenever the relation succeeds, the six types were an int8 tensor
    type, the four canonical scalar types (float32, int32, float32, int32)
    and the output slot: each of the four assignments the relation makes
    gives a slot the type it already is. *)
Theorem validator_success_means_canonical_types
    {R : Type} `{TypeReporter R} (rel : TypeRelationFn R)
    (types : list Type_) (num_inputs : Z) (attrs : Attrs) (reporter r' : R) :
  QnnSoftmaxRel rel types num_inputs attrs reporter = Ok (true, r') ->
  exists s t5,
    types = [TensorType s (Int 8); scalar_f32; scalar_i32; scalar_f32;
             scalar_i32; t5].
Proof.
  intros Hrun.
  destruct (QnnSoftmaxRel_success rel _ _ _ _ _ Hrun)
    as [s [t1 [t2 [t3 [t4 [t5 [r1 [r2 [r3 [r4 [-> _]]]]]]]]]]].
  rewrite QnnSoftmaxRel_int8_six in Hrun.
  destruct (existsb _ _); [discriminate|].
  destruct (IsScalarType t1 (Float 32)) eqn:E1; [|discriminate].
  destruct (IsScalarType t2 (Int 32)) eqn:E2; [|discriminate].
  destruct (IsScalarType t3 (Float 32)) eqn:E3; [|discriminate].
  destruct (IsScalarType t4 (Int 32)) eqn:E4; [|discriminate].
  apply IsScalarType_true in E1, E2, E3, E4. subst.
  exists s, t5. reflexivity.
Qed.

Lemma validator_success_means_canonical_types_witness :
  exists s t5,
    relation_types (TensorType [IntImm 2; IntImm 3] (Int 8))
    = [TensorType s (Int 8); scalar_f32; scalar_i32; scalar_f32; scalar_i32; t5].
Proof.
  apply (validator_success_means_canonical_types IdentityRel
           (relation_types (TensorType [IntImm 2; IntImm 3] (Int 8))) 5
           (SoftmaxAttrs 1) []
           [(0%nat, TensorType [IntImm 2; IntImm 3] (Int 8))]).
  reflexivity.
Defined.

(** X5.  On fully resolved, well-typed inputs the relation is the identity
    rule on the operand and the output slot: with a reporter for which
    assigning a canonical scalar type to itself changes nothing, the
    relation's result is exactly the identity rule's result on the
    original reporter. *)
Theorem validator_on_resolved_inputs_is_identity_rule
    {R : Type} `{TypeReporter R} (rel : TypeRelationFn R)
    (s : list IndexExpr) (t5 : Type_) (num_inputs : Z) (attrs : Attrs)
    (reporter : R) :
  (forall r, Assign scalar_f32 scalar_f32 r = Ok r) ->
  (forall r, Assign scalar_i32 scalar_i32 r = Ok r) ->
  QnnSoftmaxRel rel
    [TensorType s (Int 8); scalar_f32; scalar_i32; scalar_f32; scalar_i32; t5]
    num_inputs attrs reporter
  = rel [TensorType s (Int 8); t5] 2 attrs reporter.
Proof.
  intros Hf Hi. rewrite QnnSoftmaxRel_int8_six.
  cbn [existsb as_IncompleteType scalar_f32 scalar_i32 orb].
  change (IsScalarType (TensorType [] (Float 32)) (Float 32)) with true.
  change (IsScalarType (TensorType [] (Int 32)) (Int 32)) with true.
  rewrite !ICHECK_true. cbn [bind].
  unfold assign_parameters. fold scalar_f32. fold scalar_i32.
  rewrite Hf. cbn [bind]. rewrite Hi. cbn [bind]. rewrite Hf. cbn [bind].
  rewrite Hi. cbn [bind]. reflexivity.
Qed.

Lemma validator_on_resolved_inputs_is_identity_rule_witness :
  QnnSoftmaxRel IdentityRel
    [TensorType [IntImm 2; IntImm 3] (Int 8); scalar_f32; scalar_i32;
     scalar_f32; scalar_i32; IncompleteType 0]
    5 (SoftmaxAttrs 1) []
  = IdentityRel [TensorType [IntImm 2; IntImm 3] (Int 8); IncompleteType 0]
      2 (SoftmaxAttrs 1) [].
Proof.
  apply (validator_on_resolved_inputs_is_identity_rule IdentityRel
           [IntImm 2; IntImm 3] (IncompleteType 0) 5 (SoftmaxAttrs 1) []).
  - intros r. reflexivity.
  - intros r. reflexivity.
Defined.

(** ** The constructor, the registration and the lowering together *)

(** X6.  The call built by MakeQuantizedSoftmax names the registered
    operator and carries exactly the registered number of inputs, in the
    order the lowering reads them: handing its attributes and arguments to
    the registered canonicalizer, with a tensor type for the operand, gives
    the requantize fragment over the same operand, scales, zero points and
    axis. *)
Theorem made_call_lowers_to_requantize
    (x : Expr) (axis : Z) (scale zero_point output_scale output_zero_point : Expr)
    (input_shape : list IndexExpr) (dtype : DataType) (rest : list Type_) :
  call_op (MakeQuantizedSoftmax x axis scale zero_point output_scale
             output_zero_point)
  = reg_name qnn_softmax_registration
  /\ List.length
       (call_args (MakeQuantizedSoftmax x axis scale zero_point output_scale
                     output_zero_point))
     = reg_num_inputs qnn_softmax_registration
  /\ reg_FTVMQnnCanonicalize qnn_softmax_registration
       (call_attrs (MakeQuantizedSoftmax x axis scale zero_point output_scale
                      output_zero_point))
       (call_args (MakeQuantizedSoftmax x axis scale zero_point output_scale
                     output_zero_point))
       (TensorType input_shape dtype :: rest)
     = Ok (Softmax.requantized x scale zero_point output_scale
             output_zero_point axis input_shape).
Proof. repeat split; reflexivity. Qed.

(** X7.  A call built by MakeQuantizedSoftmax whose types the relation has
    accepted always lowers: the lowering, given the call's attributes and
    arguments and the five argument types, returns the requantize fragment
    with the validated operand's shape, without any failed check or null
    access. *)
Theorem validated_call_always_lowers
    {R : Type} `{TypeReporter R} (rel : TypeRelationFn R)
    (x : Expr) (axis : Z) (scale zero_point output_scale output_zero_point : Expr)
    (types : list Type_) (num_inputs : Z) (reporter r' : R) :
  QnnSoftmaxRel rel types num_inputs
    (call_attrs (MakeQuantizedSoftmax x axis scale zero_point output_scale
                   output_zero_point))
    reporter
  = Ok (true, r') ->
  exists s,
    nth_error types 0 = Some (TensorType s (Int 8))
    /\ QnnSoftmaxCanonicalize
         (call_attrs (MakeQuantizedSoftmax x axis scale zero_point output_scale
                        output_zero_point))
         (call_args (MakeQuantizedSoftmax x axis scale zero_point output_scale
                       output_zero_point))
         (firstn 5 types)
       = Ok (Softmax.requantized x scale zero_point output_scale
               output_zero_point axis s).
Proof.
  intros Hrun.
  destruct (QnnSoftmaxRel_success rel _ _ _ _ _ Hrun)
    as [s [t1 [t2 [t3 [t4 [t5 [r1 [r2 [r3 [r4 [-> _]]]]]]]]]]].
  exists s. split; reflexivity.
Qed.

Lemma validated_call_always_lowers_witness :
  exists s,
    nth_error (relation_types (TensorType [IntImm 2; IntImm 3] (Int 8))) 0
    = Some (TensorType s (Int 8))
    /\ QnnSoftmaxCanonicalize
         (call_attrs (MakeQuantizedSoftmax (Var "data") 1 (f32_const scale_1_16)
                        (i32_const 0) (f32_const scale_1_256) (i32_const (-128))))
         (call_args (MakeQuantizedSoftmax (Var "data") 1 (f32_const scale_1_16)
                       (i32_const 0) (f32_const scale_1_256) (i32_const (-128))))
         (firstn 5 (relation_types (TensorType [IntImm 2; IntImm 3] (Int 8))))
       = Ok (Softmax.requantized (Var "data") (f32_const scale_1_16) (i32_const 0)
               (f32_const scale_1_256) (i32_const (-128)) 1 s).
Proof.
  apply (validated_call_always_lowers IdentityRel (Var "data") 1
           (f32_const scale_1_16) (i32_const 0) (f32_const scale_1_256)
           (i32_const (-128))
           (relation_types (TensorType [IntImm 2; IntImm 3] (Int 8))) 5 []
           [(0%nat, TensorType [IntImm 2; IntImm 3] (Int 8))]).
  reflexivity.
Defined.

(** ** The stages without wrap-around *)

Lemma pow2_62 : 2 ^ 62 = 4611686018427387904.
Proof. reflexivity. Qed.

Lemma Exact_x_p_range v : -255 <= v <= 0 -> -367 <= Exact.x_p v <= 0.
Proof.
  intros Hv. unfold Exact.x_p. Z.to_euclidean_division_equations. lia.
Qed.

Lemma Elem_x_p_exact v : -255 <= v <= 0 -> Elem.x_p v = Exact.x_p v.
Proof.
  intros Hv. unfold Elem.x_p, Exact.x_p.
  assert (H1 : Z.shiftr v 1 = v / 2) by (now rewrite Z.shiftr_div_pow2 by lia).
  assert (H4 : Z.shiftr v 4 = v / 16) by (now rewrite Z.shiftr_div_pow2 by lia).
  rewrite H1, H4.
  rewrite (wrap64_small (v + v / 2)) by (Z.to_euclidean_division_equations; lia).
  apply wrap64_small. Z.to_euclidean_division_equations. lia.
Qed.

Section ExactStages.
Variables x0 v : Z.
Hypothesis Hv : -255 <= v <= 0.
Hypothesis Hx0 : 1 <= x0 < 8589934592.

Lemma Exact_q_range : 0 <= Exact.q x0 v <= 367.
Proof.
  pose proof (Exact_x_p_range v Hv) as Hp. unfold Exact.q. split.
  - apply Z.div_pos; lia.
  - assert (- Exact.x_p v / x0 < 368); [|lia].
    apply Z.div_lt_upper_bound; nia.
Qed.

Lemma Elem_q_exact : Elem.q x0 v = Exact.q x0 v.
Proof.
  pose proof (Exact_x_p_range v Hv) as Hp. pose proof Exact_q_range as Hq.
  unfold Elem.q. rewrite Elem_x_p_exact by exact Hv.
  rewrite (wrap64_small (- x0)) by lia.
  assert (E : Z.quot (Exact.x_p v) (- x0) = Exact.q x0 v).
  { unfold Exact.q.
    replace (Exact.x_p v) with (- (- Exact.x_p v)) at 1 by lia.
    rewrite Z.quot_opp_opp by lia. apply Z.quot_div_nonneg; lia. }
  rewrite E. apply wrap64_small. lia.
Qed.

Lemma Exact_r_range : - x0 < Exact.r x0 v <= 0.
Proof.
  pose proof (Exact_x_p_range v Hv) as Hp.
  unfold Exact.r, Exact.q.
  pose proof (Z.div_mod (- Exact.x_p v) x0 ltac:(lia)) as Hdm.
  pose proof (Z.mod_pos_bound (- Exact.x_p v) x0 ltac:(lia)) as Hm.
  nia.
Qed.

Lemma Elem_r_exact : Elem.r x0 v = Exact.r x0 v.
Proof.
  pose proof (Exact_x_p_range v Hv) as Hp. pose proof Exact_q_range as Hq.
  pose proof Exact_r_range as Hr.
  unfold Elem.r. rewrite Elem_q_exact, Elem_x_p_exact by exact Hv.
  rewrite (wrap64_small (- x0)) by lia.
  unfold Exact.r in *.
  rewrite (wrap64_small (Exact.q x0 v * - x0)) by nia.
  replace (Exact.x_p v - Exact.q x0 v * - x0)
    with (Exact.x_p v + Exact.q x0 v * x0) by ring.
  apply wrap64_small. lia.
Qed.

Lemma Exact_x_b_range : x0 <= 2 * Exact.x_b x0 v <= 2 * x0.
Proof.
  pose proof Exact_r_range as Hr. unfold Exact.x_b.
  Z.to_euclidean_division_equations. lia.
Qed.

Lemma Elem_x_b_exact : Elem.x_b x0 v = Exact.x_b x0 v.
Proof.
  pose proof Exact_r_range as Hr. pose proof Exact_x_b_range as Hb.
  unfold Elem.x_b. rewrite Elem_r_exact.
  rewrite Z.shiftr_div_pow2 by lia. change (2 ^ 1) with 2.
  unfold Exact.x_b in *. apply wrap64_small. lia.
Qed.
End ExactStages.

Section ExactExps.
Variables x0 v : Z.
Hypothesis Hv : -255 <= v <= 0.
Hypothesis Hx0 : 12 <= x0 < 8589934592.

Lemma Exact_q_range_12 : 0 <= Exact.q x0 v <= Softmax.n.
Proof.
  pose proof (Exact_x_p_range v Hv) as Hp. unfold Exact.q, Softmax.n. split.
  - apply Z.div_pos; lia.
  - assert (- Exact.x_p v / x0 < 31); [|lia].
    apply Z.div_lt_upper_bound; lia.
Qed.

Lemma Exact_exps_range : 0 < Exact.exps x0 v <= x0 * 2 ^ Softmax.n.
Proof.
  pose proof Exact_q_range_12 as Hq.
  pose proof (Exact_x_b_range x0 v Hv ltac:(lia)) as Hb.
  unfold Exact.exps, Softmax.n in *.
  assert (Hpos : 0 < 2 ^ (30 - Exact.q x0 v)) by (apply Z.pow_pos_nonneg; lia).
  assert (Hle : 2 ^ (30 - Exact.q x0 v) <= 2 ^ 30)
    by (apply Z.pow_le_mono_r; lia).
  change (2 ^ 30) with 1073741824 in *. nia.
Qed.

Lemma Elem_exps_exact : Elem.exps x0 v = Exact.exps x0 v.
Proof.
  pose proof Exact_q_range_12 as Hq. pose proof Exact_exps_range as He.
  unfold Elem.exps, Elem.shift.
  rewrite Elem_x_b_exact, Elem_q_exact by (try exact Hv; lia).
  unfold Softmax.n in *.
  rewrite (wrap64_small (30 - Exact.q x0 v)) by lia.
  rewrite Z.shiftl_mul_pow2 by lia.
  unfold Exact.exps, Softmax.n in *. change (2 ^ 30) with 1073741824 in He.
  apply wrap64_small. lia.
Qed.
End ExactExps.

Lemma Exact_exps_at_max x0 : 1 <= x0 -> Exact.exps x0 0 = x0 * 2 ^ Softmax.n.
Proof.
  intros Hx.
  assert (Hq : Exact.q x0 0 = 0).
  { unfold Exact.q. change (- Exact.x_p 0) with 0. apply Z.div_0_l. lia. }
  unfold Exact.exps, Exact.x_b, Exact.r. rewrite Hq.
  change (Exact.x_p 0) with 0.
  replace ((0 + 0 * x0) / 2 + x0) with x0 by (rewrite Z.mul_0_l; reflexivity).
  now rewrite Z.sub_0_r.
Qed.

Lemma eval_stages_exact
    (env : Env) (operand input_scale input_zero_point : Expr) (axis : Z)
    (s : list nat) (l : list Z) (z x0 : Z) :
  eval env operand = Ok (VInt 8 (mkTensor s l)) ->
  List.length l = numel s ->
  Forall (fun v => -128 <= v <= 127) l ->
  eval env input_zero_point = Ok (VInt 32 (scalar z)) ->
  - 2147483648 <= z < 2147483648 ->
  - Z.of_nat (List.length s) <= axis < Z.of_nat (List.length s) ->
  eval env (Softmax.x_0 input_scale) = Ok (VInt 64 (scalar x0)) ->
  12 <= x0 < 8589934592 ->
  exists lx,
    eval env (Softmax.x operand input_zero_point axis)
    = Ok (VInt 64 (mkTensor s lx))
    /\ List.length lx = numel s
    /\ Forall (fun v => -255 <= v <= 0) lx
    /\ eval env (Softmax.x_p operand input_zero_point axis)
       = Ok (VInt 64 (mkTensor s (map Exact.x_p lx)))
    /\ eval env (Softmax.q operand input_scale input_zero_point axis)
       = Ok (VInt 64 (mkTensor s (map (Exact.q x0) lx)))
    /\ eval env (Softmax.r operand input_scale input_zero_point axis)
       = Ok (VInt 64 (mkTensor s (map (Exact.r x0) lx)))
    /\ eval env (Softmax.x_b operand input_scale input_zero_point axis)
       = Ok (VInt 64 (mkTensor s (map (Exact.x_b x0) lx)))
    /\ eval env (Softmax.exps operand input_scale input_zero_point axis)
       = Ok (VInt 64 (mkTensor s (map (Exact.exps x0) lx))).
Proof.
  intros Hd Hl Hint8 Hz Hint32 Haxis Hx0 Hx0r.
  destruct (real_axis_valid _ _ Haxis) as [k Hk].
  destruct (eval_x_range env operand input_zero_point axis s l z k
              Hd Hl Hint8 Hz Hint32 Hk) as [lx [Hx [Hlx Hrx]]].
  assert (H12 : 12 <= x0) by lia.
  assert (Hr0 : int64_range x0) by (unfold int64_range; lia).
  assert (Hin : forall v, In v lx -> -255 <= v <= 0)
    by (apply Forall_forall; exact Hrx).
  exists lx. split; [exact Hx|]. split; [exact Hlx|]. split; [exact Hrx|].
  split.
  { rewrite (eval_x_p env operand input_zero_point axis s lx Hx Hlx).
    do 3 f_equal. apply map_ext_in. intros v Hv.
    apply Elem_x_p_exact. auto. }
  split.
  { rewrite (eval_q env operand input_scale input_zero_point axis s lx x0
               Hx Hlx Hx0 H12 Hr0).
    do 3 f_equal. apply map_ext_in. intros v Hv.
    apply Elem_q_exact; [auto|lia]. }
  split.
  { rewrite (eval_r env operand input_scale input_zero_point axis s lx x0
               Hx Hlx Hx0 H12 Hr0).
    do 3 f_equal. apply map_ext_in. intros v Hv.
    apply Elem_r_exact; [auto|lia]. }
  split.
  { rewrite (eval_x_b env operand input_scale input_zero_point axis s lx x0
               Hx Hlx Hx0 H12 Hr0).
    do 3 f_equal. apply map_ext_in. intros v Hv.
    apply Elem_x_b_exact; [auto|lia]. }
  rewrite (eval_exps env operand input_scale input_zero_point axis s lx x0
             Hx Hlx Hx0 Hrx H12 Hr0).
  do 3 f_equal. apply map_ext_in. intros v Hv.
  apply Elem_exps_exact; [auto|lia].
Qed.

(** ** Lanes and their sums *)

Lemma tget_map {A B : Type} (h : A -> B) s (l : list A) idx :
  tget (mkTensor s (map h l)) idx
  = match tget (mkTensor s l) idx with
    | Ok a => Ok (h a)
    | Fatal e => Fatal e
    end.
Proof.
  unfold tget. cbn [shape data]. rewrite nth_error_map.
  destruct (nth_error l _); reflexivity.
Qed.

Lemma Forall_of_tget {A : Type} (P : A -> Prop) (t : tensor A) :
  well_formed t ->
  (forall idx v, valid_index (shape t) idx -> tget t idx = Ok v -> P v) ->
  Forall P (data t).
Proof.
  intros Hwf HP. apply Forall_forall. intros v Hin.
  apply In_nth_error in Hin as [i Hi].
  assert (Hlt : (i < numel (shape t))%nat).
  { rewrite <- Hwf. apply nth_error_Some. congruence. }
  apply (HP (unravel (shape t) i) v).
  - apply unravel_valid. exact Hlt.
  - rewrite tget_flat by exact Hlt. now rewrite Hi.
Qed.

Lemma broadcast_shape_reduced_l k s :
  broadcast_shape (set_nth k 1%nat s) s = Some s.
Proof.
  unfold broadcast_shape. rewrite set_nth_length, Nat.max_id.
  rewrite pad_shape_self.
  rewrite <- (set_nth_length k 1%nat s) at 1. rewrite pad_shape_self.
  apply broadcast_dims_right, stretches_to_set_nth.
Qed.

Lemma Zsum_bounds lo hi vs :
  Forall (fun v => lo <= v <= hi) vs ->
  Z.of_nat (List.length vs) * lo <= Zsum vs <= Z.of_nat (List.length vs) * hi.
Proof.
  induction 1 as [|v vs Hv _ IH]; [simpl; lia|].
  cbn [Zsum fold_right List.length] in *. fold (Zsum vs). lia.
Qed.

Lemma fold_sum_exact hi vs acc :
  Forall (fun v => 0 <= v <= hi) vs -> 0 <= acc ->
  acc + Z.of_nat (List.length vs) * hi < 9223372036854775808 ->
  fold_left (fun a v => wrap 64 (a + v)) vs acc = acc + Zsum vs.
Proof.
  intros Hf; revert acc; induction Hf as [|v vs Hv _ IH]; intros acc Ha Hb.
  - simpl. lia.
  - cbn [fold_left Zsum fold_right List.length] in *. fold (Zsum vs).
    rewrite wrap64_small by nia.
    rewrite IH by nia. lia.
Qed.

Lemma Zsum_repeat e vs :
  Forall (fun v => v = e) vs -> Zsum vs = Z.of_nat (List.length vs) * e.
Proof.
  induction 1 as [|v vs Hv _ IH]; [reflexivity|].
  cbn [Zsum fold_right List.length] in *. fold (Zsum vs). subst v. lia.
Qed.

Lemma reduce_Forall {A : Type} (P : A -> Prop) (f : A -> A -> A) init k
    (t tm : tensor A) d :
  reduce f init k t = Ok tm -> nth_error (shape t) k = Some d ->
  (forall vs, List.length vs = d -> Forall (fun v => In v (data t)) vs ->
              P (fold_left f vs init)) ->
  Forall P (data tm).
Proof.
  intros Hred Hk HP. unfold reduce in Hred. rewrite Hk in Hred.
  eapply build_Forall; [exact Hred|].
  intros idx v Hv Hg. cbv beta in Hg.
  destruct (mapM _ (seq 0 d)) as [vs|] eqn:Evs; [|discriminate].
  cbn [bind] in Hg. injection Hg as <-. apply HP.
  - apply mapM_length in Evs. now rewrite length_seq in Evs.
  - apply mapM_Forall2 in Evs. clear - Evs.
    induction Evs as [|j v js vs Hjv _ IH]; constructor; [|exact IH].
    eapply tget_In; exact Hjv.
Qed.

Lemma set_nth_same {A : Type} k (a : A) l :
  nth_error l k = Some a -> set_nth k a l = l.
Proof.
  revert k; induction l as [|x l IH]; intros [|k]; simpl; try discriminate.
  - intros [= ->]. reflexivity.
  - intros E. now rewrite IH.
Qed.

Lemma set_nth_clamp_reduced_any k s idx j :
  valid_index s idx ->
  set_nth k j (clamp (set_nth k 1%nat s) idx) = set_nth k j idx.
Proof.
  intros Hv; revert k; induction Hv as [|d i s idx Hi Hv IH]; intros k.
  - destruct k; reflexivity.
  - destruct k as [|k]; simpl.
    + rewrite clamp_valid by exact Hv. reflexivity.
    + rewrite IH. destruct (Nat.eqb_spec d 1); [|reflexivity]. f_equal. lia.
Qed.

Lemma clamp_reduced_set_nth k s idx j :
  List.length idx = List.length s -> (k < List.length s)%nat ->
  clamp (set_nth k 1%nat s) (set_nth k j idx) = clamp (set_nth k 1%nat s) idx.
Proof.
  revert k idx; induction s as [|d s IH]; intros k idx Hlen Hk;
    simpl in Hk; [lia|].
  destruct idx as [|i idx]; [discriminate|]. simpl in Hlen.
  destruct k as [|k]; simpl.
  - reflexivity.
  - rewrite IH by lia. reflexivity.
Qed.

Lemma Forall2_tget_map {A B J : Type} (h : A -> B) s (l : list A)
    (I : J -> list nat) js vsq :
  Forall2 (fun j v => tget (mkTensor s (map h l)) (I j) = Ok v) js vsq ->
  exists vs,
    Forall2 (fun j v => tget (mkTensor s l) (I j) = Ok v) js vs
    /\ vsq = map h vs.
Proof.
  induction 1 as [|j v js vsq Hjv _ [vs [Hvs ->]]].
  - exists []. split; [constructor|reflexivity].
  - rewrite tget_map in Hjv.
    destruct (tget (mkTensor s l) (I j)) as [a|] eqn:Ea; [|discriminate].
    injection Hjv as <-. exists (a :: vs). split; [|reflexivity].
    constructor; assumption.
Qed.

Lemma Forall2_functional {J A : Type} (F : J -> result A) js vs vs' :
  Forall2 (fun j v => F j = Ok v) js vs ->
  Forall2 (fun j v => F j = Ok v) js vs' -> vs = vs'.
Proof.
  intros H1; revert vs'; induction H1 as [|j v js vs Hjv _ IH]; intros vs' H2;
    inversion H2; subst; [reflexivity|].
  f_equal; [congruence|]. apply IH. assumption.
Qed.

(** The lane of a reduction through an index: the values folded into the
    element the index is paired with; the element at the index is one of
    them. *)
Lemma reduce_lane {A : Type} (f : A -> A -> A) init k (t tm : tensor A) d idx :
  well_formed t -> reduce f init k t = Ok tm ->
  nth_error (shape t) k = Some d -> valid_index (shape t) idx ->
  exists e vs,
    tget t idx = Ok e /\ In e vs /\ List.length vs = d
    /\ Forall (fun v => In v (data t)) vs
    /\ Forall2 (fun j v => tget t (set_nth k j idx) = Ok v) (seq 0 d) vs
    /\ tget tm idx = Ok (fold_left f vs init).
Proof.
  intros Hwf Hred Hk Hv.
  destruct (tget_valid t idx Hwf Hv) as [e [He _]].
  destruct (reduce_elem _ _ _ _ _ _ _ Hred Hk Hv) as [vs [Hm Hvs]].
  assert (Hpos : Forall2 (fun j v => tget t (set_nth k j idx) = Ok v) (seq 0 d) vs).
  { eapply Forall2_impl; [|exact Hvs]. cbv beta. intros j v E.
    now rewrite set_nth_clamp_reduced_any in E by exact Hv. }
  exists e, vs. split; [exact He|].
  destruct (valid_index_nth _ _ _ _ Hv Hk) as [j [Hj Hjd]].
  assert (Hseq : nth_error (seq 0 d) j = Some j).
  { rewrite nth_error_nth' with (d := 0%nat) by (now rewrite length_seq).
    now rewrite seq_nth. }
  destruct (Forall2_nth_error_left _ _ _ _ _ Hvs Hseq) as [v [Hv1 Hv2]].
  rewrite (set_nth_clamp_reduced k _ idx j Hv Hj) in Hv2.
  assert (v = e) by congruence. subst v.
  split; [eapply nth_error_In; exact Hv1|].
  split; [apply Forall2_length in Hvs; now rewrite length_seq in Hvs|].
  split; [|split; [exact Hpos|exact Hm]].
  clear - Hvs. induction Hvs as [|j v js vs Hjv _ IH]; constructor; [|exact IH].
  eapply tget_In; exact Hjv.
Qed.

Lemma Zsum_nonneg vs : Forall (fun v => 0 <= v) vs -> 0 <= Zsum vs.
Proof.
  induction 1 as [|v vs Hv _ IH]; [simpl; lia|].
  cbn [Zsum fold_right]. fold (Zsum vs). lia.
Qed.

Lemma Zsum_ge_In e vs : Forall (fun v => 0 <= v) vs -> In e vs -> e <= Zsum vs.
Proof.
  induction 1 as [|v vs Hv Hf IH]; [intros []|].
  cbn [Zsum fold_right]. fold (Zsum vs).
  pose proof (Zsum_nonneg vs Hf).
  intros [->|Hin]; [lia|]. specialize (IH Hin). lia.
Qed.

(** ** The normalization step *)

Section Normalize.
Variables (env : Env) (operand input_scale input_zero_point : Expr) (axis : Z).
Variables (s : list nat) (le : list Z) (k d : nat) (hi : Z).
Hypothesis He :
  eval env (Softmax.exps operand input_scale input_zero_point axis)
  = Ok (VInt 64 (mkTensor s le)).
Hypothesis Hl : List.length le = numel s.
Hypothesis Hk : real_axis (List.length s) axis = Ok k.
Hypothesis Hd : nth_error s k = Some d.
Hypothesis Hd1 : (1 <= d)%nat.
Hypothesis Hpos : Forall (fun v => 0 < v <= hi) le.
Hypothesis Hhi : Z.of_nat d * hi < 9223372036854775808.

Lemma lane_sum_exact vs :
  List.length vs = d -> Forall (fun v => In v le) vs ->
  fold_left (fun a v => wrap 64 (a + v)) vs 0 = Zsum vs
  /\ 0 < Zsum vs <= Z.of_nat d * hi.
Proof.
  intros Hlen Hin.
  assert (Hr : Forall (fun v => 1 <= v <= hi) vs).
  { eapply Forall_impl; [|exact Hin]. cbv beta. intros v Hv.
    pose proof (proj1 (Forall_forall _ _) Hpos v Hv) as Hp. cbv beta in Hp. lia. }
  pose proof (Zsum_bounds 1 hi vs Hr) as Hb. rewrite Hlen in Hb.
  split; [|lia].
  rewrite (fold_sum_exact hi) by
    (try (eapply Forall_impl; [|exact Hr]; cbv beta; intros; lia);
     rewrite ?Hlen; lia).
  lia.
Qed.

Lemma eval_sums_lanes :
  exists ls,
    eval env (Softmax.sums operand input_scale input_zero_point axis)
    = Ok (VInt 64 (mkTensor (set_nth k 1%nat s) ls))
    /\ List.length ls = numel (set_nth k 1%nat s)
    /\ Forall (fun v => 0 < v <= Z.of_nat d * hi) ls
    /\ forall idx, valid_index s idx ->
         exists e vs,
           tget (mkTensor s le) idx = Ok e /\ In e vs /\ List.length vs = d
           /\ Forall (fun v => In v le) vs
           /\ Forall2 (fun j v => tget (mkTensor s le) (set_nth k j idx) = Ok v)
                (seq 0 d) vs
           /\ tget (mkTensor (set_nth k 1%nat s) ls) idx = Ok (Zsum vs).
Proof.
  destruct (reduce_total (fun a v => wrap 64 (a + v)) 0 k (mkTensor s le) d Hl Hd)
    as [ts Hred].
  destruct (reduce_shape _ _ _ _ _ Hred) as [Hs Hwf].
  destruct ts as [ss ls]. cbn [shape] in Hs. subst ss.
  exists ls. split.
  { unfold Softmax.sums. cbn [eval]. rewrite He. cbn [bind].
    unfold reduce_value. cbn [shape]. rewrite Hk. cbn [bind].
    rewrite Hred. reflexivity. }
  split; [exact Hwf|]. split.
  { apply (reduce_Forall _ _ _ _ _ _ _ Hred Hd).
    intros vs Hlen Hin. cbn [data] in Hin.
    destruct (lane_sum_exact vs Hlen Hin) as [-> Hb]. exact Hb. }
  intros idx Hv.
  destruct (reduce_lane _ _ _ (mkTensor s le) _ _ idx Hl Hred Hd Hv)
    as [e [vs [Het [Hin [Hlen [Hall [Hlane2 Hts]]]]]]].
  exists e, vs. cbn [data] in Hall.
  destruct (lane_sum_exact vs Hlen Hall) as [Esum _].
  rewrite Esum in Hts. repeat split; assumption.
Qed.

Lemma recip_exact S :
  0 < S -> wrap 64 (Z.quot (Z.shiftl 1 Softmax.m) S) = 2 ^ Softmax.m / S
           /\ 0 <= 2 ^ Softmax.m / S <= 2 ^ Softmax.m.
Proof.
  intros HS. change (Z.shiftl 1 Softmax.m) with (2 ^ Softmax.m).
  rewrite Z.quot_div_nonneg by (try lia; now unfold Softmax.m).
  assert (Hb : 0 <= 2 ^ Softmax.m / S <= 2 ^ Softmax.m).
  { unfold Softmax.m. change (2 ^ 60) with 1152921504606846976. split.
    - apply Z.div_pos; lia.
    - apply Z.div_le_upper_bound; nia. }
  split; [|exact Hb].
  apply wrap64_small. unfold Softmax.m in *.
  change (2 ^ 60) with 1152921504606846976 in *. lia.
Qed.

Lemma scaled_exact S e :
  0 < e <= S ->
  wrap 64 (2 ^ Softmax.m / S * e) = 2 ^ Softmax.m / S * e.
Proof.
  intros HeS. destruct (recip_exact S ltac:(lia)) as [_ Hb].
  assert (Hmul : 2 ^ Softmax.m / S * S <= 2 ^ Softmax.m).
  { rewrite Z.mul_comm. apply Z.mul_div_le. lia. }
  apply wrap64_small. unfold Softmax.m in *.
  change (2 ^ 60) with 1152921504606846976 in *. nia.
Qed.

Lemma eval_output_elements :
  exists ls lo,
    eval env (Softmax.sums operand input_scale input_zero_point axis)
    = Ok (VInt 64 (mkTensor (set_nth k 1%nat s) ls))
    /\ eval env (Softmax.output operand input_scale input_zero_point axis)
       = Ok (VInt 64 (mkTensor s lo))
    /\ List.length lo = numel s
    /\ forall idx, valid_index s idx ->
         exists e vs,
           tget (mkTensor s le) idx = Ok e /\ In e vs /\ List.length vs = d
           /\ Forall (fun v => In v le) vs
           /\ Forall2 (fun j v => tget (mkTensor s le) (set_nth k j idx) = Ok v)
                (seq 0 d) vs
           /\ tget (mkTensor (set_nth k 1%nat s) ls) idx = Ok (Zsum vs)
           /\ tget (mkTensor s lo) idx = Ok (Exact.output (Zsum vs) e).
Proof.
  destruct eval_sums_lanes as [ls [Hsums [Hls [Hlspos Hlane]]]].
  exists ls.
  (* the reciprocal *)
  pose proof (binary_map_scalar_l OpDivide (fun a b => wrap 64 (Z.quot a b))
                (set_nth k 1%nat s) ls (fun v => v) (Z.shiftl 1 Softmax.m) Hls)
    as Ediv.
  rewrite map_id in Ediv.
  assert (Hnz : forall v, In v ls ->
            int_binop OpDivide 64 (Z.shiftl 1 Softmax.m) v
            = Ok (wrap 64 (Z.quot (Z.shiftl 1 Softmax.m) v))).
  { intros v Hv.
    pose proof (proj1 (Forall_forall _ _) Hlspos v Hv) as Hp. cbv beta in Hp.
    unfold int_binop. destruct (Z.eqb_spec v 0); [lia|reflexivity]. }
  specialize (Ediv Hnz).
  (* the product, element by element *)
  assert (Hprod : forall idx, valid_index s idx ->
            exists e vs,
              tget (mkTensor s le) idx = Ok e /\ In e vs /\ List.length vs = d
              /\ Forall (fun v => In v le) vs
              /\ Forall2 (fun j v => tget (mkTensor s le) (set_nth k j idx) = Ok v)
                   (seq 0 d) vs
              /\ tget (mkTensor (set_nth k 1%nat s) ls) idx = Ok (Zsum vs)
              /\ (x <- tget (mkTensor (set_nth k 1%nat s)
                               (map (fun v => wrap 64 (Z.quot (Z.shiftl 1 Softmax.m) v)) ls))
                        idx ;;
                  y <- tget (mkTensor s le) idx ;;
                  int_binop OpMultiply 64 x y)
                 = Ok (2 ^ Softmax.m / Zsum vs * e)).
  { intros idx Hv.
    destruct (Hlane idx Hv) as [e [vs [Het [Hin [Hlen [Hall [Hlane2 Hts]]]]]]].
    exists e, vs. repeat (split; [assumption|]).
    rewrite tget_map, Hts, Het. cbn [bind int_binop].
    destruct (lane_sum_exact vs Hlen Hall) as [_ Hb].
    destruct (recip_exact (Zsum vs) ltac:(lia)) as [-> _].
    assert (Hle : e <= Zsum vs).
    { apply Zsum_ge_In; [|exact Hin].
      eapply Forall_impl; [|exact Hall]. cbv beta. intros v Hvin.
      pose proof (proj1 (Forall_forall _ _) Hpos v Hvin) as Hp.
      cbv beta in Hp. lia. }
    pose proof (proj1 (Forall_forall _ _) Hpos e (tget_In _ _ _ Het)) as Hpe.
    cbv beta in Hpe.
    rewrite scaled_exact by lia. reflexivity. }
  destruct (build_total s
              (fun idx =>
                 x <- tget (mkTensor (set_nth k 1%nat s)
                              (map (fun v => wrap 64 (Z.quot (Z.shiftl 1 Softmax.m) v)) ls))
                       idx ;;
                 y <- tget (mkTensor s le) idx ;;
                 int_binop OpMultiply 64 x y)) as [tp Htp].
  { intros idx Hv. destruct (Hprod idx Hv) as [e [vs [_ [_ [_ [_ [_ [_ E]]]]]]]].
    eexists; exact E. }
  destruct (build_shape _ _ _ Htp) as [Hsp Hwfp].
  destruct tp as [sp lp]. cbn [shape] in Hsp. subst sp.
  unfold well_formed in Hwfp. cbn [shape data] in Hwfp.
  exists (map (fun v => Z.shiftr v (Softmax.m - Softmax.bits)) lp).
  split; [exact Hsums|]. split.
  { unfold Softmax.output. cbn [eval].
    rewrite !eval_const_i64_small by (cbv; split; congruence).
    rewrite Hsums, He. cbn [bind]. unfold Spec.i64. rewrite Ediv. cbn [bind].
    unfold binary at 1. rewrite Z.eqb_refl. unfold broadcast2. cbn [shape].
    rewrite broadcast_shape_reduced_l, Htp. cbn [bind].
    pose proof (binary_map_scalar_r OpRightShift Z.shiftr s lp (fun v => v)
                  (Softmax.m - Softmax.bits) Hwfp (fun v _ => eq_refl)) as Eshr.
    rewrite map_id in Eshr. exact Eshr. }
  split; [now rewrite length_map|].
  intros idx Hv.
  destruct (Hprod idx Hv) as [e [vs [Het [Hin [Hlen [Hall [Hlane2 [Hts E]]]]]]]].
  exists e, vs. repeat (split; [assumption|]).
  rewrite tget_map.
  destruct (build_nth _ _ _ _ Htp Hv) as [v [Hnth Hg]]. cbn [data] in Hnth.
  cbv beta in Hg. rewrite E in Hg. injection Hg as <-.
  unfold tget. cbn [shape data]. rewrite bidx_valid by exact Hv.
  rewrite Hnth. reflexivity.
Qed.
End Normalize.

(** ** The stages under their exact side conditions *)

(** The stages from x on, for any reciprocal-scale constant: all that is
    asked is that no element divides by zero or shifts out of range. *)
Section ChainGeneral.
Variables (env : Env) (operand input_scale input_zero_point : Expr) (axis : Z).
Variables (s : list nat) (l : list Z) (x0 : Z).
Hypothesis Hx : eval env (Softmax.x operand input_zero_point axis)
                = Ok (VInt 64 (mkTensor s l)).
Hypothesis Hl : List.length l = numel s.
Hypothesis Hx0 : eval env (Softmax.x_0 input_scale) = Ok (VInt 64 (scalar x0)).
Hypothesis Hdiv : forall v, In v l -> wrap 64 (- x0) <> 0.
Hypothesis Hshift : forall v, In v l -> 0 <= Elem.shift x0 v < 64.

Lemma eval_q_general :
  eval env (Softmax.q operand input_scale input_zero_point axis)
  = Ok (VInt 64 (mkTensor s (map (Elem.q x0) l))).
Proof.
  unfold Softmax.q. cbn [eval].
  rewrite (eval_x_p env operand input_zero_point axis s l Hx Hl), Hx0.
  cbn [bind]. rewrite negative_x0. cbn [bind].
  apply (binary_map_scalar_r OpDivide (fun a b => wrap 64 (Z.quot a b)) s l
           Elem.x_p (wrap 64 (- x0)) Hl).
  intros v Hv. unfold int_binop.
  destruct (Z.eqb_spec (wrap 64 (- x0)) 0) as [E|E]; [|reflexivity].
  exfalso. exact (Hdiv v Hv E).
Qed.

Lemma eval_r_general :
  eval env (Softmax.r operand input_scale input_zero_point axis)
  = Ok (VInt 64 (mkTensor s (map (Elem.r x0) l))).
Proof.
  unfold Softmax.r. cbn [eval].
  rewrite (eval_x_p env operand input_zero_point axis s l Hx Hl), eval_q_general,
    Hx0.
  cbn [bind]. rewrite negative_x0. cbn [bind].
  rewrite (binary_map_scalar_r OpMultiply (fun a b => wrap 64 (a * b)) s l
             (Elem.q x0) (wrap 64 (- x0)) Hl (fun v _ => eq_refl)).
  cbn [bind].
  apply (binary_map_map OpSubtract (fun a b => wrap 64 (a - b)) s l
           Elem.x_p (fun v => wrap 64 (Elem.q x0 v * wrap 64 (- x0))) Hl
           (fun v _ => eq_refl)).
Qed.

Lemma eval_x_b_general :
  eval env (Softmax.x_b operand input_scale input_zero_point axis)
  = Ok (VInt 64 (mkTensor s (map (Elem.x_b x0) l))).
Proof.
  unfold Softmax.x_b. cbn [eval]. rewrite eval_r_general, eval_const_i64, Hx0.
  cbn [bind]. change (wrap 64 1) with 1.
  rewrite (binary_map_scalar_r OpRightShift Z.shiftr s l (Elem.r x0) 1 Hl
             (fun v _ => eq_refl)).
  cbn [bind].
  apply (binary_map_scalar_r OpAdd (fun a b => wrap 64 (a + b)) s l
           (fun v => Z.shiftr (Elem.r x0 v) 1) x0 Hl (fun v _ => eq_refl)).
Qed.

Lemma eval_exps_general :
  eval env (Softmax.exps operand input_scale input_zero_point axis)
  = Ok (VInt 64 (mkTensor s (map (Elem.exps x0) l))).
Proof.
  unfold Softmax.exps. cbn [eval].
  rewrite eval_x_b_general, eval_q_general, eval_const_i64. cbn [bind].
  change (wrap 64 Softmax.n) with Softmax.n.
  rewrite (binary_map_scalar_l OpSubtract (fun a b => wrap 64 (a - b)) s l
             (Elem.q x0) Softmax.n Hl (fun v _ => eq_refl)).
  cbn [bind].
  apply (binary_map_map OpLeftShift (fun a b => wrap 64 (Z.shiftl a b)) s l
           (Elem.x_b x0) (Elem.shift x0) Hl).
  intros v Hv. unfold int_binop. pose proof (Hshift v Hv) as Hs.
  destruct (Z.leb_spec 0 (Elem.shift x0 v)); [|lia].
  destruct (Z.ltb_spec (Elem.shift x0 v) 64); [|lia].
  reflexivity.
Qed.
End ChainGeneral.

Lemma real_axis_range rank axis k :
  real_axis rank axis = Ok k ->
  - Z.of_nat rank <= axis < Z.of_nat rank.
Proof.
  unfold real_axis. destruct (Z.ltb_spec axis 0).
  - destruct (andb _ _) eqn:E; [|discriminate]. intros _.
    apply andb_prop in E as [E1 E2].
    apply Z.leb_le in E1. apply Z.ltb_lt in E2. lia.
  - destruct (andb _ _) eqn:E; [|discriminate]. intros _.
    apply andb_prop in E as [E1 E2].
    apply Z.leb_le in E1. apply Z.ltb_lt in E2. lia.
Qed.

(** The shifted stage for an operand whose elements lie in [lo, hi]. *)
Lemma eval_x_spread
    (env : Env) (operand input_zero_point : Expr) (axis : Z)
    (s : list nat) (l : list Z) (z lo hi : Z) (k : nat) :
  eval env operand = Ok (VInt 8 (mkTensor s l)) ->
  List.length l = numel s ->
  Forall (fun v => lo <= v <= hi) l -> -128 <= lo -> hi <= 127 ->
  eval env input_zero_point = Ok (VInt 32 (scalar z)) ->
  - 2147483648 <= z < 2147483648 ->
  real_axis (List.length s) axis = Ok k ->
  exists lx,
    eval env (Softmax.x operand input_zero_point axis) = Ok (VInt 64 (mkTensor s lx))
    /\ List.length lx = numel s
    /\ Forall (fun v => lo - hi <= v <= 0) lx.
Proof.
  intros Hd Hl Hr Hlo Hhi Hz Hint32 Haxis.
  assert (Hint8 : Forall (fun v => -128 <= v <= 127) l)
    by (eapply Forall_impl; [|exact Hr]; cbv beta; intros; lia).
  pose proof (real_axis_lt _ _ _ Haxis) as Hk.
  destruct (nth_error s k) as [dk|] eqn:Ek;
    [|apply nth_error_None in Ek; lia].
  destruct (shifted_range (mkTensor s (map (fun v => v - z) l)) k dk
              (lo - z) (hi - z)) as [tm [tx [Hm [Hx [Hsx [Hwx Hrx]]]]]].
  - apply well_formed_map; exact Hl.
  - exact Ek.
  - cbn [data]. apply Forall_forall. intros v Hv.
    apply in_map_iff in Hv as [a [<- Ha]].
    pose proof (proj1 (Forall_forall _ _) Hr a Ha) as Hra. cbv beta in Hra.
    cbv beta. lia.
  - rewrite pow2_62. lia.
  - rewrite pow2_62. lia.
  - exists (data tx).
    unfold Softmax.x, Softmax.max. cbn [eval].
    rewrite (eval_quantized_data env operand input_zero_point s l z
               Hd Hl Hint8 Hz Hint32).
    cbn [bind]. unfold reduce_value. cbn [shape]. rewrite Haxis. cbn [bind].
    rewrite Hm. cbn [bind]. unfold binary. rewrite Z.eqb_refl, Hx. cbn [bind].
    destruct tx as [sx lx]. unfold well_formed in Hwx.
    cbn [shape data] in *. subst sx.
    split; [reflexivity|]. split; [exact Hwx|].
    eapply Forall_impl; [|exact Hrx]. cbv beta. intros; lia.
Qed.

(** ** The shifted stage, element by element *)

Lemma fold_left_max_mem vs acc :
  fold_left Z.max vs acc = acc \/ In (fold_left Z.max vs acc) vs.
Proof.
  revert acc; induction vs as [|v vs IH]; intros acc; simpl; [left; reflexivity|].
  destruct (IH (Z.max acc v)) as [E|Hin]; [|right; right; exact Hin].
  rewrite E. destruct (Z.max_spec acc v) as [[_ ->]|[_ ->]]; auto.
Qed.

Lemma fold_left_max_shift vs a init z :
  In a vs -> Forall (fun v => init <= v - z) vs ->
  fold_left Z.max (map (fun v => v - z) vs) init = fold_left Z.max vs a - z.
Proof.
  intros Ha Hinit.
  assert (Hub1 : forall v, In v vs ->
            v - z <= fold_left Z.max (map (fun v => v - z) vs) init).
  { intros v Hv. apply fold_left_max_ge. apply in_map_iff. eauto. }
  assert (Hub2 : forall v, In v vs -> v <= fold_left Z.max vs a)
    by (intros v Hv; apply fold_left_max_ge; exact Hv).
  assert (Hm2 : In (fold_left Z.max vs a) vs).
  { destruct (fold_left_max_mem vs a) as [->|Hin]; assumption. }
  assert (Hm1 : exists w, In w vs
                          /\ fold_left Z.max (map (fun v => v - z) vs) init = w - z).
  { destruct (fold_left_max_mem (map (fun v => v - z) vs) init) as [E|Hin].
    - exists a. split; [exact Ha|].
      pose proof (Hub1 a Ha) as Hge.
      pose proof (proj1 (Forall_forall _ _) Hinit a Ha) as Hia. cbv beta in Hia.
      lia.
    - apply in_map_iff in Hin as [w [Ew Hw]]. exists w. split; [exact Hw|].
      now rewrite <- Ew. }
  destruct Hm1 as [w [Hw Ew]]. rewrite Ew.
  pose proof (Hub2 w Hw). pose proof (Hub1 _ Hm2). lia.
Qed.

Lemma shifted_elem (s : list nat) (l : list Z) (z : Z) (k d : nat) tm tx idx :
  List.length l = numel s -> nth_error s k = Some d ->
  Forall (fun v => -128 <= v <= 127) l -> - 2147483648 <= z < 2147483648 ->
  reduce Z.max (- 2 ^ (64 - 1)) k (mkTensor s (map (fun v => v - z) l)) = Ok tm ->
  broadcast2 (int_binop OpSubtract 64) (mkTensor s (map (fun v => v - z) l)) tm
  = Ok tx ->
  valid_index s idx ->
  exists a vs,
    tget (mkTensor s l) idx = Ok a /\ In a vs
    /\ Forall2 (fun j v => tget (mkTensor s l) (set_nth k j idx) = Ok v)
         (seq 0 d) vs
    /\ tget tx idx = Ok (a - fold_left Z.max vs a).
Proof.
  intros Hl Hk Hint8 Hz Hred Hsub Hv.
  destruct (tget_valid (mkTensor s l) idx Hl Hv) as [a [Ha _]].
  destruct (reduce_elem _ _ _ _ _ _ idx Hred Hk Hv) as [vsq [Hm Hvsq]].
  cbn [shape] in Hvsq.
  apply Forall2_tget_map in Hvsq as [vs [Hvs ->]].
  assert (Hvs' : Forall2 (fun j v => tget (mkTensor s l) (set_nth k j idx) = Ok v)
                   (seq 0 d) vs).
  { eapply Forall2_impl; [|exact Hvs]. cbv beta. intros j v E.
    now rewrite set_nth_clamp_reduced_any in E by exact Hv. }
  assert (Hin : In a vs).
  { destruct (valid_index_nth _ _ _ _ Hv Hk) as [j [Hj Hjd]].
    assert (Hseq : nth_error (seq 0 d) j = Some j).
    { rewrite nth_error_nth' with (d := 0%nat) by (now rewrite length_seq).
      now rewrite seq_nth. }
    destruct (Forall2_nth_error_left _ _ _ _ _ Hvs' Hseq) as [v [Hv1 Hv2]].
    rewrite (set_nth_same k j idx Hj) in Hv2.
    assert (v = a) by congruence. subst v.
    eapply nth_error_In; exact Hv1. }
  assert (Hall : Forall (fun v => -128 <= v <= 127) vs).
  { clear - Hvs' Hint8. induction Hvs' as [|j v js vs Hjv _ IH];
      constructor; [|exact IH].
    apply (proj1 (Forall_forall _ _) Hint8 v). eapply tget_In in Hjv. exact Hjv. }
  exists a, vs. split; [exact Ha|]. split; [exact Hin|]. split; [exact Hvs'|].
  (* the element of the difference *)
  destruct (reduce_shape _ _ _ _ _ Hred) as [Hsm _]. cbn [shape] in Hsm.
  unfold broadcast2 in Hsub. cbn [shape] in Hsub.
  rewrite Hsm, broadcast_shape_reduced_r in Hsub.
  destruct (build_shape _ _ _ Hsub) as [Hsx _].
  destruct (build_nth _ _ _ _ Hsub Hv) as [v [Hnth Hg]]. cbv beta in Hg.
  rewrite tget_map, Ha, Hm in Hg. cbn [bind int_binop] in Hg.
  rewrite (fold_left_max_shift vs a) in Hg.
  - injection Hg as <-.
    unfold tget. rewrite Hsx, bidx_valid by exact Hv. rewrite Hnth.
    f_equal.
    assert (Hge : a <= fold_left Z.max vs a) by apply fold_left_max_init.
    assert (Hle : fold_left Z.max vs a <= 127).
    { apply fold_left_max_le.
      - eapply Forall_impl; [|exact Hall]. cbv beta. intros; lia.
      - pose proof (proj1 (Forall_forall _ _) Hall a Hin) as Hra.
        cbv beta in Hra. lia. }
    pose proof (proj1 (Forall_forall _ _) Hall a Hin) as Hra. cbv beta in Hra.
    replace (a - z - (fold_left Z.max vs a - z)) with (a - fold_left Z.max vs a)
      by ring.
    apply wrap64_small. lia.
  - exact Hin.
  - eapply Forall_impl; [|exact Hall]. cbv beta. intros w Hw.
    change (2 ^ (64 - 1)) with 9223372036854775808. lia.
Qed.

Lemma tensor_ext {A : Type} (t t' : tensor A) :
  shape t' = shape t -> well_formed t -> well_formed t' ->
  (forall idx, valid_index (shape t) idx -> tget t idx = tget t' idx) ->
  t = t'.
Proof.
  destruct t as [s l], t' as [s' l']. unfold well_formed. cbn [shape data].
  intros -> Hwf Hwf' Hext. f_equal. apply nth_error_ext. intros i.
  destruct (Nat.lt_ge_cases i (numel s)) as [Hlt|Hge].
  - specialize (Hext (unravel s i) (unravel_valid s i Hlt)).
    pose proof (tget_flat (mkTensor s l) i Hlt) as E1.
    pose proof (tget_flat (mkTensor s l') i Hlt) as E2.
    cbn [shape data] in E1, E2. rewrite E1, E2 in Hext.
    assert (H1 : nth_error l i <> None) by (apply nth_error_Some; lia).
    assert (H2 : nth_error l' i <> None) by (apply nth_error_Some; lia).
    destruct (nth_error l i), (nth_error l' i); congruence.
  - assert (H1 : nth_error l i = None) by (apply nth_error_None; lia).
    assert (H2 : nth_error l' i = None) by (apply nth_error_None; lia).
    congruence.
Qed.

Lemma eval_x_elements
    (env : Env) (operand input_zero_point : Expr) (axis : Z)
    (s : list nat) (l : list Z) (z : Z) (k d : nat) :
  eval env operand = Ok (VInt 8 (mkTensor s l)) ->
  List.length l = numel s ->
  Forall (fun v => -128 <= v <= 127) l ->
  eval env input_zero_point = Ok (VInt 32 (scalar z)) ->
  - 2147483648 <= z < 2147483648 ->
  real_axis (List.length s) axis = Ok k ->
  nth_error s k = Some d ->
  exists lx,
    eval env (Softmax.x operand input_zero_point axis) = Ok (VInt 64 (mkTensor s lx))
    /\ List.length lx = numel s
    /\ forall idx, valid_index s idx ->
         exists a vs,
           tget (mkTensor s l) idx = Ok a /\ In a vs
           /\ Forall2 (fun j v => tget (mkTensor s l) (set_nth k j idx) = Ok v)
                (seq 0 d) vs
           /\ tget (mkTensor s lx) idx = Ok (a - fold_left Z.max vs a).
Proof.
  intros Hd Hl Hint8 Hz Hint32 Haxis Ek.
  destruct (shifted_range (mkTensor s (map (fun v => v - z) l)) k d
              (-128 - z) (127 - z)) as [tm [tx [Hm [Hx [Hsx [Hwx Hrx]]]]]].
  - apply well_formed_map; exact Hl.
  - exact Ek.
  - cbn [data]. apply Forall_forall. intros v Hv.
    apply in_map_iff in Hv as [a [<- Ha]].
    pose proof (proj1 (Forall_forall _ _) Hint8 a Ha) as Hra. cbv beta in Hra.
    cbv beta. lia.
  - rewrite pow2_62. lia.
  - rewrite pow2_62. lia.
  - exists (data tx). split.
    { unfold Softmax.x, Softmax.max. cbn [eval].
      rewrite (eval_quantized_data env operand input_zero_point s l z
                 Hd Hl Hint8 Hz Hint32).
      cbn [bind]. unfold reduce_value. cbn [shape]. rewrite Haxis. cbn [bind].
      rewrite Hm. cbn [bind]. unfold binary. rewrite Z.eqb_refl, Hx. cbn [bind].
      destruct tx as [sx lx]. cbn [shape data] in *. now subst sx. }
    split.
    { unfold well_formed in Hwx. cbn [shape] in Hsx. now rewrite Hsx in Hwx. }
    intros idx Hv.
    destruct (shifted_elem s l z k d tm tx idx Hl Ek Hint8 Hint32 Hm Hx Hv)
      as [a [vs [Ha [Hin [Hvs Htx]]]]].
    exists a, vs. repeat (split; [assumption|]).
    destruct tx as [sx lx]. cbn [shape data] in *. now subst sx.
Qed.

(** The shifted stage does not depend on the zero point. *)
Lemma eval_x_zero_point_free
    (env : Env) (operand zero_point1 zero_point2 : Expr) (axis : Z)
    (s : list nat) (l : list Z) (z1 z2 : Z) (k : nat) :
  eval env operand = Ok (VInt 8 (mkTensor s l)) ->
  List.length l = numel s ->
  Forall (fun v => -128 <= v <= 127) l ->
  eval env zero_point1 = Ok (VInt 32 (scalar z1)) ->
  - 2147483648 <= z1 < 2147483648 ->
  eval env zero_point2 = Ok (VInt 32 (scalar z2)) ->
  - 2147483648 <= z2 < 2147483648 ->
  real_axis (List.length s) axis = Ok k ->
  eval env (Softmax.x operand zero_point1 axis)
  = eval env (Softmax.x operand zero_point2 axis).
Proof.
  intros Hd Hl Hint8 Hz1 Hr1 Hz2 Hr2 Haxis.
  pose proof (real_axis_lt _ _ _ Haxis) as Hk.
  destruct (nth_error s k) as [d|] eqn:Ek;
    [|apply nth_error_None in Ek; lia].
  destruct (eval_x_elements env operand zero_point1 axis s l z1 k d
              Hd Hl Hint8 Hz1 Hr1 Haxis Ek) as [lx1 [E1 [Hl1 Hel1]]].
  destruct (eval_x_elements env operand zero_point2 axis s l z2 k d
              Hd Hl Hint8 Hz2 Hr2 Haxis Ek) as [lx2 [E2 [Hl2 Hel2]]].
  rewrite E1, E2. do 2 f_equal.
  apply tensor_ext; try assumption; try reflexivity.
  cbn [shape]. intros idx Hv.
  destruct (Hel1 idx Hv) as [a1 [vs1 [Ha1 [_ [Hvs1 Ht1]]]]].
  destruct (Hel2 idx Hv) as [a2 [vs2 [Ha2 [_ [Hvs2 Ht2]]]]].
  assert (a1 = a2) by congruence. subst a2.
  rewrite (Forall2_functional _ _ _ _ Hvs1 Hvs2) in Ht1.
  congruence.
Qed.

(** ** The normalized output *)

Lemma Exact_output_range S e :
  0 < e <= S -> 0 <= Exact.output S e <= 2 ^ Softmax.bits.
Proof.
  intros HeS. unfold Exact.output.
  assert (Hq : 0 <= 2 ^ Softmax.m / S) by (apply Z.div_pos; [now unfold Softmax.m|lia]).
  assert (Hmul : 2 ^ Softmax.m / S * S <= 2 ^ Softmax.m).
  { rewrite Z.mul_comm. apply Z.mul_div_le. lia. }
  rewrite Z.shiftr_div_pow2 by (now unfold Softmax.m, Softmax.bits).
  unfold Softmax.m, Softmax.bits in *.
  change (60 - 8) with 52. change (2 ^ 60) with 1152921504606846976 in *.
  change (2 ^ 52) with 4503599627370496. change (2 ^ 8) with 256.
  split.
  - apply Z.div_pos; nia.
  - apply Z.div_le_upper_bound; nia.
Qed.

Lemma Exact_output_mono S e e' :
  0 < S -> e' <= e -> Exact.output S e' <= Exact.output S e.
Proof.
  intros HS Hle. unfold Exact.output.
  assert (Hq : 0 <= 2 ^ Softmax.m / S) by (apply Z.div_pos; [now unfold Softmax.m|lia]).
  rewrite !Z.shiftr_div_pow2 by (now unfold Softmax.m, Softmax.bits).
  apply Z.div_le_mono; [now unfold Softmax.m, Softmax.bits|nia].
Qed.

Lemma numel_nth_zero s k : nth_error s k = Some 0%nat -> numel s = 0%nat.
Proof.
  revert k; induction s as [|d s IH]; intros [|k]; simpl; try discriminate.
  - intros [= ->]. reflexivity.
  - intros E. rewrite (IH k E). lia.
Qed.

Lemma set_nth_valid k s idx d j :
  valid_index s idx -> nth_error s k = Some d -> (j < d)%nat ->
  valid_index s (set_nth k j idx).
Proof.
  intros Hv; revert k; induction Hv as [|e i s idx Hi Hv IH]; intros k Hk Hj.
  - destruct k; discriminate Hk.
  - destruct k as [|k]; simpl in *.
    + injection Hk as ->. constructor; assumption.
    + constructor; [assumption|]. apply IH; assumption.
Qed.

Lemma Forall2_seq_bound {A : Type} (P : nat -> A -> Prop) (Q : A -> Prop) d vs :
  Forall2 P (seq 0 d) vs ->
  (forall j v, (j < d)%nat -> P j v -> Q v) -> Forall Q vs.
Proof.
  intros Hf HPQ.
  assert (Hin : Forall (fun j => (j < d)%nat) (seq 0 d)).
  { apply Forall_forall. intros j Hj. apply in_seq in Hj. lia. }
  revert Hin. induction Hf as [|j v js vs Hjv _ IH]; intros Hin;
    constructor.
  - inversion Hin; subst. eapply HPQ; eassumption.
  - apply IH. inversion Hin; assumption.
Qed.

(** Everything the later theorems need about a valid input, in one place:
    the shifted stage, the exponent stage in closed form, the lane sums and
    the wide output, with what each element is. *)
Lemma eval_fragment_elements
    (env : Env) (operand input_scale input_zero_point : Expr) (axis : Z)
    (s : list nat) (l : list Z) (z x0 : Z) (k d : nat) :
  eval env operand = Ok (VInt 8 (mkTensor s l)) ->
  List.length l = numel s ->
  Forall (fun v => -128 <= v <= 127) l ->
  eval env input_zero_point = Ok (VInt 32 (scalar z)) ->
  - 2147483648 <= z < 2147483648 ->
  real_axis (List.length s) axis = Ok k ->
  nth_error s k = Some d -> (1 <= d)%nat ->
  eval env (Softmax.x_0 input_scale) = Ok (VInt 64 (scalar x0)) ->
  12 <= x0 -> Z.of_nat d * x0 < 8589934592 ->
  exists lx ls lo,
    eval env (Softmax.x operand input_zero_point axis) = Ok (VInt 64 (mkTensor s lx))
    /\ List.length lx = numel s
    /\ Forall (fun v => -255 <= v <= 0) lx
    /\ eval env (Softmax.exps operand input_scale input_zero_point axis)
       = Ok (VInt 64 (mkTensor s (map (Exact.exps x0) lx)))
    /\ eval env (Softmax.sums operand input_scale input_zero_point axis)
       = Ok (VInt 64 (mkTensor (set_nth k 1%nat s) ls))
    /\ eval env (Softmax.output operand input_scale input_zero_point axis)
       = Ok (VInt 64 (mkTensor s lo))
    /\ List.length lo = numel s
    /\ forall idx, valid_index s idx ->
         exists e vs,
           tget (mkTensor s (map (Exact.exps x0) lx)) idx = Ok e
           /\ In e vs /\ List.length vs = d
           /\ Forall (fun v => 0 < v <= x0 * 2 ^ Softmax.n) vs
           /\ Forall2 (fun j v => tget (mkTensor s (map (Exact.exps x0) lx))
                                     (set_nth k j idx) = Ok v) (seq 0 d) vs
           /\ tget (mkTensor (set_nth k 1%nat s) ls) idx = Ok (Zsum vs)
           /\ tget (mkTensor s lo) idx = Ok (Exact.output (Zsum vs) e).
Proof.
  intros Hd Hl Hint8 Hz Hint32 Haxis Ek Hd1 Hx0 H12 Hdx.
  assert (Hx0r : 12 <= x0 < 8589934592) by nia.
  destruct (eval_stages_exact env operand input_scale input_zero_point axis
              s l z x0 Hd Hl Hint8 Hz Hint32 (real_axis_range _ _ _ Haxis)
              Hx0 Hx0r)
    as [lx [Hx [Hlx [Hrx [_ [_ [_ [_ He]]]]]]]].
  assert (Hpos : Forall (fun v => 0 < v <= x0 * 2 ^ Softmax.n)
                   (map (Exact.exps x0) lx)).
  { apply Forall_forall. intros e Hin. apply in_map_iff in Hin as [v [<- Hv]].
    apply Exact_exps_range; [|exact Hx0r].
    apply (proj1 (Forall_forall _ _) Hrx v Hv). }
  assert (Hhi : Z.of_nat d * (x0 * 2 ^ Softmax.n) < 9223372036854775808).
  { unfold Softmax.n. change (2 ^ 30) with 1073741824. lia. }
  destruct (eval_output_elements env operand input_scale input_zero_point axis
              s (map (Exact.exps x0) lx) k d (x0 * 2 ^ Softmax.n) He
              ltac:(now rewrite length_map) Haxis Ek Hd1 Hpos Hhi)
    as [ls [lo [Hsums [Hout [Hlo Hel]]]]].
  exists lx, ls, lo. repeat (split; [assumption|]).
  intros idx Hv.
  destruct (Hel idx Hv) as [e [vs [Het [Hin [Hlen [Hall [Hlane [Hts Hto]]]]]]]].
  exists e, vs. repeat (split; [assumption|]).
  split; [|split; [assumption|split; assumption]].
  eapply Forall_impl; [|exact Hall]. cbv beta. intros v Hvin.
  apply (proj1 (Forall_forall _ _) Hpos v Hvin).
Qed.

(** * Further properties of the lowered expression *)

(** X8.  For an int8 operand, an int32 scalar zero point, a valid axis and
    a reciprocal scale x0 with 12 <= x0 < 2^33, no stage from x_p to exps
    wraps around in its 64 bits: each evaluates, element by element, to the
    formula over the unbounded integers (floor shifts, the quotient of
    -x_p by x0, a multiplication by a power of two), applied to a shifted
    operand whose elements lie in [-255, 0]. *)
Theorem stages_do_not_wrap_around
    (env : Env) (operand input_scale input_zero_point : Expr) (axis : Z)
    (s : list nat) (l : list Z) (z x0 : Z) :
  eval env operand = Ok (VInt 8 (mkTensor s l)) ->
  List.length l = numel s ->
  Forall (fun v => -128 <= v <= 127) l ->
  eval env input_zero_point = Ok (VInt 32 (scalar z)) ->
  - 2147483648 <= z < 2147483648 ->
  - Z.of_nat (List.length s) <= axis < Z.of_nat (List.length s) ->
  eval env (Softmax.x_0 input_scale) = Ok (VInt 64 (scalar x0)) ->
  12 <= x0 < 8589934592 ->
  exists lx,
    eval env (Softmax.x operand input_zero_point axis)
    = Ok (VInt 64 (mkTensor s lx))
    /\ Forall (fun v => -255 <= v <= 0) lx
    /\ eval env (Softmax.x_p operand input_zero_point axis)
       = Ok (VInt 64 (mkTensor s (map (fun v => v + v / 2 - v / 16) lx)))
    /\ eval env (Softmax.q operand input_scale input_zero_point axis)
       = Ok (VInt 64 (mkTensor s (map (Exact.q x0) lx)))
    /\ eval env (Softmax.r operand input_scale input_zero_point axis)
       = Ok (VInt 64 (mkTensor s (map (Exact.r x0) lx)))
    /\ eval env (Softmax.x_b operand input_scale input_zero_point axis)
       = Ok (VInt 64 (mkTensor s (map (Exact.x_b x0) lx)))
    /\ eval env (Softmax.exps operand input_scale input_zero_point axis)
       = Ok (VInt 64 (mkTensor s (map (Exact.exps x0) lx)))
    /\ Forall (fun v => 0 < Exact.exps x0 v <= x0 * 2 ^ Softmax.n) lx.
Proof.
  intros Hd Hl Hint8 Hz Hint32 Haxis Hx0 Hx0r.
  destruct (eval_stages_exact env operand input_scale input_zero_point axis
              s l z x0 Hd Hl Hint8 Hz Hint32 Haxis Hx0 Hx0r)
    as [lx [Hx [Hlx [Hrx [Hp [Hq [Hr [Hb He]]]]]]]].
  exists lx. repeat (split; [assumption|]).
  eapply Forall_impl; [|exact Hrx]. cbv beta. intros v Hv.
  apply Exact_exps_range; assumption.
Qed.

Lemma stages_do_not_wrap_around_witness :
  exists lx,
    eval (env_data (int8_tensor [2%nat] [127; -128]))
      (Softmax.x (Var "data") (i32_const 0) 0)
    = Ok (VInt 64 (mkTensor [2%nat] lx))
    /\ Forall (fun v => -255 <= v <= 0) lx
    /\ eval (env_data (int8_tensor [2%nat] [127; -128]))
         (Softmax.x_p (Var "data") (i32_const 0) 0)
       = Ok (VInt 64 (mkTensor [2%nat] (map (fun v => v + v / 2 - v / 16) lx)))
    /\ eval (env_data (int8_tensor [2%nat] [127; -128]))
         (Softmax.q (Var "data") (f32_const scale_1_16) (i32_const 0) 0)
       = Ok (VInt 64 (mkTensor [2%nat] (map (Exact.q 16) lx)))
    /\ eval (env_data (int8_tensor [2%nat] [127; -128]))
         (Softmax.r (Var "data") (f32_const scale_1_16) (i32_const 0) 0)
       = Ok (VInt 64 (mkTensor [2%nat] (map (Exact.r 16) lx)))
    /\ eval (env_data (int8_tensor [2%nat] [127; -128]))
         (Softmax.x_b (Var "data") (f32_const scale_1_16) (i32_const 0) 0)
       = Ok (VInt 64 (mkTensor [2%nat] (map (Exact.x_b 16) lx)))
    /\ eval (env_data (int8_tensor [2%nat] [127; -128]))
         (Softmax.exps (Var "data") (f32_const scale_1_16) (i32_const 0) 0)
       = Ok (VInt 64 (mkTensor [2%nat] (map (Exact.exps 16) lx)))
    /\ Forall (fun v => 0 < Exact.exps 16 v <= 16 * 2 ^ Softmax.n) lx.
Proof.
  apply (stages_do_not_wrap_around
           (env_data (int8_tensor [2%nat] [127; -128])) (Var "data")
           (f32_const scale_1_16) (i32_const 0) 0 [2%nat] [127; -128] 0 16).
  - reflexivity.
  - reflexivity.
  - repeat constructor; discriminate.
  - reflexivity.
  - lia.
  - simpl. lia.
  - reflexivity.
  - lia.
Defined.

(** X9.  For every reciprocal scale x0 with 1 <= x0 < 2^33, also one
    below 12 for which the later left shift may be undefined, the stages q
    and r evaluate and are the quotient and the remainder of the division
    of x_p by -x0: q is not negative, r lies in (-x0, 0], x_p is
    q * (-x0) + r, and x_b = (r >> 1) + x0 lies between x0 / 2 and x0. *)
Theorem quotient_and_remainder_decompose_x_p
    (env : Env) (operand input_scale input_zero_point : Expr) (axis : Z)
    (s : list nat) (l : list Z) (z x0 : Z) :
  eval env operand = Ok (VInt 8 (mkTensor s l)) ->
  List.length l = numel s ->
  Forall (fun v => -128 <= v <= 127) l ->
  eval env input_zero_point = Ok (VInt 32 (scalar z)) ->
  - 2147483648 <= z < 2147483648 ->
  - Z.of_nat (List.length s) <= axis < Z.of_nat (List.length s) ->
  eval env (Softmax.x_0 input_scale) = Ok (VInt 64 (scalar x0)) ->
  1 <= x0 < 8589934592 ->
  exists lx,
    eval env (Softmax.x operand input_zero_point axis)
    = Ok (VInt 64 (mkTensor s lx))
    /\ eval env (Softmax.x_p operand input_zero_point axis)
       = Ok (VInt 64 (mkTensor s (map Exact.x_p lx)))
    /\ eval env (Softmax.q operand input_scale input_zero_point axis)
       = Ok (VInt 64 (mkTensor s (map (Exact.q x0) lx)))
    /\ eval env (Softmax.r operand input_scale input_zero_point axis)
       = Ok (VInt 64 (mkTensor s (map (Exact.r x0) lx)))
    /\ eval env (Softmax.x_b operand input_scale input_zero_point axis)
       = Ok (VInt 64 (mkTensor s (map (Exact.x_b x0) lx)))
    /\ Forall (fun v =>
                 0 <= Exact.q x0 v
                 /\ - x0 < Exact.r x0 v <= 0
                 /\ Exact.x_p v = Exact.q x0 v * (- x0) + Exact.r x0 v
                 /\ x0 <= 2 * Exact.x_b x0 v <= 2 * x0) lx.
Proof.
  intros Hd Hl Hint8 Hz Hint32 Haxis Hx0 Hx0r.
  destruct (real_axis_valid _ _ Haxis) as [k Hk].
  destruct (eval_x_range env operand input_zero_point axis s l z k
              Hd Hl Hint8 Hz Hint32 Hk) as [lx [Hx [Hlx Hrx]]].
  assert (Hin : forall v, In v lx -> -255 <= v <= 0)
    by (apply Forall_forall; exact Hrx).
  assert (Hdiv : forall v, In v lx -> wrap 64 (- x0) <> 0).
  { intros v _. rewrite wrap64_small by lia. lia. }
  exists lx. split; [exact Hx|]. split.
  { rewrite (eval_x_p env operand input_zero_point axis s lx Hx Hlx).
    do 3 f_equal. apply map_ext_in. intros v Hv. apply Elem_x_p_exact. auto. }
  split.
  { rewrite (eval_q_general env operand input_scale input_zero_point axis
               s lx x0 Hx Hlx Hx0 Hdiv).
    do 3 f_equal. apply map_ext_in. intros v Hv. apply Elem_q_exact; auto. }
  split.
  { rewrite (eval_r_general env operand input_scale input_zero_point axis
               s lx x0 Hx Hlx Hx0 Hdiv).
    do 3 f_equal. apply map_ext_in. intros v Hv. apply Elem_r_exact; auto. }
  split.
  { rewrite (eval_x_b_general env operand input_scale input_zero_point axis
               s lx x0 Hx Hlx Hx0 Hdiv).
    do 3 f_equal. apply map_ext_in. intros v Hv. apply Elem_x_b_exact; auto. }
  eapply Forall_impl; [|exact Hrx]. cbv beta. intros v Hv.
  split; [apply Exact_q_range; assumption|].
  split; [apply Exact_r_range; assumption|].
  split; [unfold Exact.r; ring|].
  apply Exact_x_b_range; assumption.
Qed.

Lemma quotient_and_remainder_decompose_x_p_witness :
  exists lx,
    eval (env_data (int8_tensor [2%nat] [127; -128]))
      (Softmax.x (Var "data") (i32_const 0) 0)
    = Ok (VInt 64 (mkTensor [2%nat] lx))
    /\ eval (env_data (int8_tensor [2%nat] [127; -128]))
         (Softmax.x_p (Var "data") (i32_const 0) 0)
       = Ok (VInt 64 (mkTensor [2%nat] (map Exact.x_p lx)))
    /\ eval (env_data (int8_tensor [2%nat] [127; -128]))
         (Softmax.q (Var "data") (f32_const scale_1) (i32_const 0) 0)
       = Ok (VInt 64 (mkTensor [2%nat] (map (Exact.q 1) lx)))
    /\ eval (env_data (int8_tensor [2%nat] [127; -128]))
         (Softmax.r (Var "data") (f32_const scale_1) (i32_const 0) 0)
       = Ok (VInt 64 (mkTensor [2%nat] (map (Exact.r 1) lx)))
    /\ eval (env_data (int8_tensor [2%nat] [127; -128]))
         (Softmax.x_b (Var "data") (f32_const scale_1) (i32_const 0) 0)
       = Ok (VInt 64 (mkTensor [2%nat] (map (Exact.x_b 1) lx)))
    /\ Forall (fun v =>
                 0 <= Exact.q 1 v
                 /\ - 1 < Exact.r 1 v <= 0
                 /\ Exact.x_p v = Exact.q 1 v * (- 1) + Exact.r 1 v
                 /\ 1 <= 2 * Exact.x_b 1 v <= 2 * 1) lx.
Proof.
  apply (quotient_and_remainder_decompose_x_p
           (env_data (int8_tensor [2%nat] [127; -128])) (Var "data")
           (f32_const scale_1) (i32_const 0) 0 [2%nat] [127; -128] 0 1).
  - reflexivity.
  - reflexivity.
  - repeat constructor; discriminate.
  - reflexivity.
  - lia.
  - simpl. lia.
  - reflexivity.
  - lia.
Defined.

Lemma map_wrap32_small l :
  Forall (fun v => - 2147483648 <= v < 2147483648) l -> map (wrap 32) l = l.
Proof.
  induction 1 as [|v l Hv _ IH]; [reflexivity|].
  cbn [map]. rewrite IH. f_equal. apply wrap_small; [lia|exact Hv].
Qed.

Lemma lane_element_le_sum e vs hi :
  In e vs -> Forall (fun v => 0 < v <= hi) vs -> 0 < e <= Zsum vs.
Proof.
  intros Hin Hall.
  pose proof (proj1 (Forall_forall _ _) Hall e Hin) as He. cbv beta in He.
  split; [lia|]. apply Zsum_ge_In; [|exact Hin].
  eapply Forall_impl; [|exact Hall]. cbv beta. intros; lia.
Qed.

(** X10.  For a valid input with reciprocal scale x0 >= 12 and a reduced
    axis of length d >= 1 with d * x0 < 2^33, the wide output evaluates,
    has the operand's shape and every element lies in [0, 2^bits] = [0,
    256]; the cast to Int(32) in front of the requantize call therefore
    changes no value. *)
Theorem wide_output_within_0_and_256
    (env : Env) (operand input_scale input_zero_point : Expr) (axis : Z)
    (s : list nat) (l : list Z) (z x0 : Z) (k d : nat) :
  eval env operand = Ok (VInt 8 (mkTensor s l)) ->
  List.length l = numel s ->
  Forall (fun v => -128 <= v <= 127) l ->
  eval env input_zero_point = Ok (VInt 32 (scalar z)) ->
  - 2147483648 <= z < 2147483648 ->
  real_axis (List.length s) axis = Ok k ->
  nth_error s k = Some d -> (1 <= d)%nat ->
  eval env (Softmax.x_0 input_scale) = Ok (VInt 64 (scalar x0)) ->
  12 <= x0 -> Z.of_nat d * x0 < 8589934592 ->
  exists lo,
    eval env (Softmax.output operand input_scale input_zero_point axis)
    = Ok (VInt 64 (mkTensor s lo))
    /\ List.length lo = numel s
    /\ Forall (fun v => 0 <= v <= 2 ^ Softmax.bits) lo
    /\ eval env (Cast (Softmax.output operand input_scale input_zero_point axis)
                   (Int 32))
       = Ok (VInt 32 (mkTensor s lo)).
Proof.
  intros Hd Hl Hint8 Hz Hint32 Haxis Ek Hd1 Hx0 H12 Hdx.
  destruct (eval_fragment_elements env operand input_scale input_zero_point axis
              s l z x0 k d Hd Hl Hint8 Hz Hint32 Haxis Ek Hd1 Hx0 H12 Hdx)
    as [lx [ls [lo [_ [_ [_ [_ [_ [Hout [Hlo Hel]]]]]]]]]].
  assert (Hr : Forall (fun v => 0 <= v <= 2 ^ Softmax.bits) lo).
  { apply (Forall_of_tget _ (mkTensor s lo) Hlo). cbn [shape].
    intros idx v Hv Hg.
    destruct (Hel idx Hv) as [e [vs [_ [Hin [_ [Hall [_ [_ Hto]]]]]]]].
    rewrite Hto in Hg. injection Hg as <-.
    apply Exact_output_range. eapply lane_element_le_sum; eassumption. }
  exists lo. repeat (split; [assumption|]).
  cbn [eval]. rewrite Hout. cbn [bind cast]. unfold tmapM. cbn [data shape].
  rewrite mapM_pure. cbn [bind]. rewrite map_wrap32_small; [reflexivity|].
  eapply Forall_impl; [|exact Hr]. cbv beta. unfold Softmax.bits.
  change (2 ^ 8) with 256. intros; lia.
Qed.

Lemma wide_output_within_0_and_256_witness :
  exists lo,
    eval (env_data (int8_tensor [2%nat] [127; -128]))
      (Softmax.output (Var "data") (f32_const scale_1_16) (i32_const 0) 0)
    = Ok (VInt 64 (mkTensor [2%nat] lo))
    /\ List.length lo = numel [2%nat]
    /\ Forall (fun v => 0 <= v <= 2 ^ Softmax.bits) lo
    /\ eval (env_data (int8_tensor [2%nat] [127; -128]))
         (Cast (Softmax.output (Var "data") (f32_const scale_1_16) (i32_const 0) 0)
            (Int 32))
       = Ok (VInt 32 (mkTensor [2%nat] lo)).
Proof.
  apply (wide_output_within_0_and_256
           (env_data (int8_tensor [2%nat] [127; -128])) (Var "data")
           (f32_const scale_1_16) (i32_const 0) 0 [2%nat] [127; -128] 0 16
           0%nat 2%nat).
  - reflexivity.
  - reflexivity.
  - repeat constructor; discriminate.
  - reflexivity.
  - lia.
  - reflexivity.
  - reflexivity.
  - lia.
  - reflexivity.
  - lia.
  - simpl. lia.
Defined.

(** ** Lanes of the output *)

Lemma set_nth_set_nth {A : Type} k (a b : A) l :
  set_nth k a (set_nth k b l) = set_nth k a l.
Proof.
  revert k; induction l as [|x l IH]; intros [|k]; simpl; try reflexivity.
  now rewrite IH.
Qed.

Lemma Forall2_seq_map {A B : Type} (P : nat -> A -> Prop) (Q : nat -> B -> Prop)
    (h : A -> B) d vs :
  Forall2 P (seq 0 d) vs ->
  (forall j v, (j < d)%nat -> P j v -> Q j (h v)) ->
  Forall2 Q (seq 0 d) (map h vs).
Proof.
  intros Hf HPQ.
  assert (Hin : Forall (fun j => (j < d)%nat) (seq 0 d)).
  { apply Forall_forall. intros j Hj. apply in_seq in Hj. lia. }
  revert Hin. induction Hf as [|j v js vs Hjv _ IH]; intros Hin;
    cbn [map]; constructor.
  - inversion Hin; subst. apply HPQ; assumption.
  - apply IH. inversion Hin; assumption.
Qed.

Lemma Zsum_scaled_le c p vs :
  0 <= c -> 0 < p -> Forall (fun v => 0 <= v) vs ->
  0 <= Zsum (map (fun e => c * e / p) vs) <= c * Zsum vs / p.
Proof.
  intros Hc Hp. induction 1 as [|v vs Hv _ IH].
  - cbn [map Zsum fold_right]. rewrite Z.mul_0_r, Z.div_0_l by lia. lia.
  - cbn [map Zsum fold_right]. fold (Zsum vs).
    fold (Zsum (map (fun e => c * e / p) vs)).
    assert (H1 : 0 <= c * v / p) by (apply Z.div_pos; nia).
    assert (H2 : c * v / p + c * Zsum vs / p <= c * (v + Zsum vs) / p).
    { replace (c * (v + Zsum vs)) with (c * v + c * Zsum vs) by ring.
      generalize (c * v) (c * Zsum vs). intros a b.
      Z.to_euclidean_division_equations. nia. }
    lia.
Qed.

Lemma Zsum_output_le vs :
  Forall (fun v => 0 < v) vs -> 0 < Zsum vs ->
  0 <= Zsum (map (Exact.output (Zsum vs)) vs) <= 2 ^ Softmax.bits.
Proof.
  intros Hpos HS.
  assert (Hq : 0 <= 2 ^ Softmax.m / Zsum vs)
    by (apply Z.div_pos; [now unfold Softmax.m|lia]).
  assert (Hmul : 2 ^ Softmax.m / Zsum vs * Zsum vs <= 2 ^ Softmax.m).
  { rewrite Z.mul_comm. apply Z.mul_div_le. lia. }
  assert (E : map (Exact.output (Zsum vs)) vs
              = map (fun e => 2 ^ Softmax.m / Zsum vs * e
                              / 2 ^ (Softmax.m - Softmax.bits)) vs).
  { apply map_ext. intros e. unfold Exact.output.
    apply Z.shiftr_div_pow2. now unfold Softmax.m, Softmax.bits. }
  rewrite E.
  destruct (Zsum_scaled_le (2 ^ Softmax.m / Zsum vs)
              (2 ^ (Softmax.m - Softmax.bits)) vs Hq
              ltac:(now unfold Softmax.m, Softmax.bits)) as [H0 H1].
  { eapply Forall_impl; [|exact Hpos]. cbv beta. intros; lia. }
  split; [exact H0|].
  eapply Z.le_trans; [exact H1|].
  unfold Softmax.m, Softmax.bits in *.
  change (60 - 8) with 52. change (2 ^ 60) with 1152921504606846976 in *.
  change (2 ^ 52) with 4503599627370496. change (2 ^ 8) with 256.
  apply Z.div_le_upper_bound; lia.
Qed.

(** The lane of the output through an index, in terms of the lane of the
    exponent stage. *)
Lemma output_lane
    (s : list nat) (le ls lo : list Z) (k d : nat) (hi : Z) :
  nth_error s k = Some d ->
  (forall idx, valid_index s idx ->
     exists e vs,
       tget (mkTensor s le) idx = Ok e
       /\ In e vs /\ List.length vs = d
       /\ Forall (fun v => 0 < v <= hi) vs
       /\ Forall2 (fun j v => tget (mkTensor s le) (set_nth k j idx) = Ok v)
            (seq 0 d) vs
       /\ tget (mkTensor (set_nth k 1%nat s) ls) idx = Ok (Zsum vs)
       /\ tget (mkTensor s lo) idx = Ok (Exact.output (Zsum vs) e)) ->
  forall idx, valid_index s idx ->
    exists vs,
      Forall (fun v => 0 < v <= hi) vs /\ List.length vs = d
      /\ Forall2 (fun j v => tget (mkTensor s le) (set_nth k j idx) = Ok v)
           (seq 0 d) vs
      /\ Forall2 (fun j v => tget (mkTensor s lo) (set_nth k j idx) = Ok v)
           (seq 0 d) (map (Exact.output (Zsum vs)) vs).
Proof.
  intros Ek Hel idx Hv.
  destruct (Hel idx Hv) as [e [vs [_ [_ [Hlen [Hall [Hlane _]]]]]]].
  exists vs. repeat (split; [assumption|]).
  eapply Forall2_seq_map; [exact Hlane|]. cbv beta. intros j v Hj Hjv.
  pose proof (set_nth_valid k s idx d j Hv Ek Hj) as Hvj.
  destruct (Hel _ Hvj) as [e' [vs' [Het' [_ [_ [_ [Hlane' [_ Hto']]]]]]]].
  assert (Hsame : Forall2 (fun i w => tget (mkTensor s le) (set_nth k i idx) = Ok w)
                    (seq 0 d) vs').
  { eapply Forall2_impl; [|exact Hlane']. cbv beta. intros i w E.
    now rewrite set_nth_set_nth in E. }
  rewrite (Forall2_functional _ _ _ _ Hsame Hlane) in Hto'.
  assert (e' = v) by congruence. subst e'. exact Hto'.
Qed.

(** X11.  Normalization: for a valid input with x0 >= 12 and
    d * x0 < 2^33, the wide outputs along the reduced axis through any
    position are not negative and add up to at most 2^bits = 256, the
    fixed-point one. *)
Theorem outputs_along_axis_sum_to_at_most_256
    (env : Env) (operand input_scale input_zero_point : Expr) (axis : Z)
    (s : list nat) (l : list Z) (z x0 : Z) (k d : nat) :
  eval env operand = Ok (VInt 8 (mkTensor s l)) ->
  List.length l = numel s ->
  Forall (fun v => -128 <= v <= 127) l ->
  eval env input_zero_point = Ok (VInt 32 (scalar z)) ->
  - 2147483648 <= z < 2147483648 ->
  real_axis (List.length s) axis = Ok k ->
  nth_error s k = Some d -> (1 <= d)%nat ->
  eval env (Softmax.x_0 input_scale) = Ok (VInt 64 (scalar x0)) ->
  12 <= x0 -> Z.of_nat d * x0 < 8589934592 ->
  exists lo,
    eval env (Softmax.output operand input_scale input_zero_point axis)
    = Ok (VInt 64 (mkTensor s lo))
    /\ forall idx, valid_index s idx ->
         exists outs,
           Forall2 (fun j v => tget (mkTensor s lo) (set_nth k j idx) = Ok v)
             (seq 0 d) outs
           /\ Forall (fun v => 0 <= v) outs
           /\ Zsum outs <= 2 ^ Softmax.bits.
Proof.
  intros Hd Hl Hint8 Hz Hint32 Haxis Ek Hd1 Hx0 H12 Hdx.
  destruct (eval_fragment_elements env operand input_scale input_zero_point axis
              s l z x0 k d Hd Hl Hint8 Hz Hint32 Haxis Ek Hd1 Hx0 H12 Hdx)
    as [lx [ls [lo [_ [_ [_ [_ [_ [Hout [Hlo Hel]]]]]]]]]].
  exists lo. split; [exact Hout|]. intros idx Hv.
  destruct (output_lane s _ ls lo k d _ Ek Hel idx Hv)
    as [vs [Hall [Hlen [_ Hlane]]]].
  exists (map (Exact.output (Zsum vs)) vs). split; [exact Hlane|].
  assert (Hpos : Forall (fun v => 0 < v) vs)
    by (eapply Forall_impl; [|exact Hall]; cbv beta; intros; lia).
  assert (HS : 0 < Zsum vs).
  { destruct vs as [|v vs]; [simpl in Hlen; lia|].
    pose proof (lane_element_le_sum v (v :: vs) _ (or_introl eq_refl) Hall). lia. }
  split; [|apply Zsum_output_le; assumption].
  apply Forall_forall. intros b Hb. apply in_map_iff in Hb as [e [<- He]].
  apply Exact_output_range. eapply lane_element_le_sum; eassumption.
Qed.

Lemma outputs_along_axis_sum_to_at_most_256_witness :
  exists lo,
    eval (env_data (int8_tensor [2%nat] [127; -128]))
      (Softmax.output (Var "data") (f32_const scale_1_16) (i32_const 0) 0)
    = Ok (VInt 64 (mkTensor [2%nat] lo))
    /\ forall idx, valid_index [2%nat] idx ->
         exists outs,
           Forall2 (fun j v => tget (mkTensor [2%nat] lo) (set_nth 0 j idx) = Ok v)
             (seq 0 2) outs
           /\ Forall (fun v => 0 <= v) outs
           /\ Zsum outs <= 2 ^ Softmax.bits.
Proof.
  apply (outputs_along_axis_sum_to_at_most_256
           (env_data (int8_tensor [2%nat] [127; -128])) (Var "data")
           (f32_const scale_1_16) (i32_const 0) 0 [2%nat] [127; -128] 0 16
           0%nat 2%nat).
  - reflexivity.
  - reflexivity.
  - repeat constructor; discriminate.
  - reflexivity.
  - lia.
  - reflexivity.
  - reflexivity.
  - lia.
  - reflexivity.
  - lia.
  - simpl. lia.
Defined.

(** X12.  Rank order at the top: for a valid input with x0 >= 12 and
    d * x0 < 2^33, a position whose operand element is the largest of its
    lane along the reduced axis gets the exponent value x0 * 2^n, and no
    position of that lane has a larger exponent value or a larger wide
    output. *)
Theorem largest_operand_gets_largest_output
    (env : Env) (operand input_scale input_zero_point : Expr) (axis : Z)
    (s : list nat) (l : list Z) (z x0 : Z) (k d : nat) :
  eval env operand = Ok (VInt 8 (mkTensor s l)) ->
  List.length l = numel s ->
  Forall (fun v => -128 <= v <= 127) l ->
  eval env input_zero_point = Ok (VInt 32 (scalar z)) ->
  - 2147483648 <= z < 2147483648 ->
  real_axis (List.length s) axis = Ok k ->
  nth_error s k = Some d -> (1 <= d)%nat ->
  eval env (Softmax.x_0 input_scale) = Ok (VInt 64 (scalar x0)) ->
  12 <= x0 -> Z.of_nat d * x0 < 8589934592 ->
  exists le lo,
    eval env (Softmax.exps operand input_scale input_zero_point axis)
    = Ok (VInt 64 (mkTensor s le))
    /\ eval env (Softmax.output operand input_scale input_zero_point axis)
       = Ok (VInt 64 (mkTensor s lo))
    /\ forall idx a,
         valid_index s idx ->
         tget (mkTensor s l) idx = Ok a ->
         (forall i v, (i < d)%nat ->
                      tget (mkTensor s l) (set_nth k i idx) = Ok v -> v <= a) ->
         exists e b,
           tget (mkTensor s le) idx = Ok e
           /\ tget (mkTensor s lo) idx = Ok b
           /\ e = x0 * 2 ^ Softmax.n
           /\ forall j, (j < d)%nat ->
                exists e' b',
                  tget (mkTensor s le) (set_nth k j idx) = Ok e'
                  /\ tget (mkTensor s lo) (set_nth k j idx) = Ok b'
                  /\ e' <= e /\ b' <= b.
Proof.
  intros Hd Hl Hint8 Hz Hint32 Haxis Ek Hd1 Hx0 H12 Hdx.
  destruct (eval_fragment_elements env operand input_scale input_zero_point axis
              s l z x0 k d Hd Hl Hint8 Hz Hint32 Haxis Ek Hd1 Hx0 H12 Hdx)
    as [lx [ls [lo [Hx [Hlx [Hrx [He [_ [Hout [Hlo Hel]]]]]]]]]].
  destruct (eval_x_elements env operand input_zero_point axis s l z k d
              Hd Hl Hint8 Hz Hint32 Haxis Ek) as [lx' [Hx' [_ Hxel]]].
  assert (lx' = lx) by congruence. subst lx'.
  exists (map (Exact.exps x0) lx), lo.
  split; [exact He|]. split; [exact Hout|].
  intros idx a Hv Ha Hmax.
  (* the shifted operand is 0 at the largest element *)
  destruct (Hxel idx Hv) as [a' [ws [Ha' [_ [Hws Hxi]]]]].
  assert (a' = a) by congruence. subst a'.
  assert (Hfold : fold_left Z.max ws a = a).
  { apply Z.le_antisymm; [|apply fold_left_max_init].
    apply fold_left_max_le; [|lia].
    eapply Forall2_seq_bound; [exact Hws|]. cbv beta. intros i v Hi Hiv.
    exact (Hmax i v Hi Hiv). }
  rewrite Hfold, Z.sub_diag in Hxi.
  destruct (Hel idx Hv) as [e [vs [Het [Hin [Hlen [Hall [Hlane [_ Hto]]]]]]]].
  assert (Ee : e = x0 * 2 ^ Softmax.n).
  { rewrite tget_map, Hxi in Het. injection Het as <-.
    apply Exact_exps_at_max. lia. }
  exists e, (Exact.output (Zsum vs) e).
  split; [exact Het|]. split; [exact Hto|]. split; [exact Ee|].
  intros j Hj.
  pose proof (set_nth_valid k s idx d j Hv Ek Hj) as Hvj.
  destruct (Hel _ Hvj) as [e' [vs' [Het' [Hin' [_ [Hall' [Hlane' [_ Hto']]]]]]]].
  assert (Hsame : Forall2 (fun i w => tget (mkTensor s (map (Exact.exps x0) lx))
                                        (set_nth k i idx) = Ok w) (seq 0 d) vs').
  { eapply Forall2_impl; [|exact Hlane']. cbv beta. intros i w E.
    now rewrite set_nth_set_nth in E. }
  rewrite (Forall2_functional _ _ _ _ Hsame Hlane) in Hto', Hin'.
  exists e', (Exact.output (Zsum vs) e').
  split; [exact Het'|]. split; [exact Hto'|].
  assert (Hle : e' <= e).
  { pose proof (proj1 (Forall_forall _ _) Hall e' Hin') as Hb. cbv beta in Hb.
    lia. }
  split; [exact Hle|].
  apply Exact_output_mono; [|exact Hle].
  pose proof (lane_element_le_sum e vs _ Hin Hall). lia.
Qed.

Lemma largest_operand_gets_largest_output_witness :
  exists le lo e b,
    eval (env_data (int8_tensor [2%nat] [127; -128]))
      (Softmax.exps (Var "data") (f32_const scale_1_16) (i32_const 0) 0)
    = Ok (VInt 64 (mkTensor [2%nat] le))
    /\ eval (env_data (int8_tensor [2%nat] [127; -128]))
         (Softmax.output (Var "data") (f32_const scale_1_16) (i32_const 0) 0)
       = Ok (VInt 64 (mkTensor [2%nat] lo))
    /\ tget (mkTensor [2%nat] le) [0%nat] = Ok e
    /\ tget (mkTensor [2%nat] lo) [0%nat] = Ok b
    /\ e = 16 * 2 ^ Softmax.n
    /\ forall j, (j < 2)%nat ->
         exists e' b',
           tget (mkTensor [2%nat] le) (set_nth 0 j [0%nat]) = Ok e'
           /\ tget (mkTensor [2%nat] lo) (set_nth 0 j [0%nat]) = Ok b'
           /\ e' <= e /\ b' <= b.
Proof.
  destruct (largest_operand_gets_largest_output
              (env_data (int8_tensor [2%nat] [127; -128])) (Var "data")
              (f32_const scale_1_16) (i32_const 0) 0 [2%nat] [127; -128] 0 16
              0%nat 2%nat eq_refl eq_refl
              ltac:(repeat constructor; discriminate) eq_refl ltac:(lia)
              eq_refl eq_refl ltac:(lia) eq_refl ltac:(lia) ltac:(simpl; lia))
    as [le [lo [He [Ho Hel]]]].
  destruct (Hel [0%nat] 127) as [e [b [H1 [H2 [H3 H4]]]]].
  - constructor; [lia|constructor].
  - reflexivity.
  - intros i v Hi. destruct i as [|[|i]]; [| |lia]; cbn; intros [= <-]; lia.
  - exists le, lo, e, b. repeat (split; [assumption|]). exact H4.
Defined.

(** ** The zero point *)

(** X13.  The input zero point cancels: for an int8 operand, a valid axis
    and any two int32 scalar zero points, the wide output of the lowering
    is the same, whatever the scale is (also when the evaluation fails, it
    fails the same way).  The zero point is subtracted from every element
    and from the maximum alike. *)
Theorem output_does_not_depend_on_zero_point
    (env : Env) (operand input_scale zero_point1 zero_point2 : Expr) (axis : Z)
    (s : list nat) (l : list Z) (z1 z2 : Z) :
  eval env operand = Ok (VInt 8 (mkTensor s l)) ->
  List.length l = numel s ->
  Forall (fun v => -128 <= v <= 127) l ->
  eval env zero_point1 = Ok (VInt 32 (scalar z1)) ->
  - 2147483648 <= z1 < 2147483648 ->
  eval env zero_point2 = Ok (VInt 32 (scalar z2)) ->
  - 2147483648 <= z2 < 2147483648 ->
  - Z.of_nat (List.length s) <= axis < Z.of_nat (List.length s) ->
  eval env (Softmax.output operand input_scale zero_point1 axis)
  = eval env (Softmax.output operand input_scale zero_point2 axis).
Proof.
  intros Hd Hl Hint8 Hz1 Hr1 Hz2 Hr2 Haxis.
  destruct (real_axis_valid _ _ Haxis) as [k Hk].
  pose proof (eval_x_zero_point_free env operand zero_point1 zero_point2 axis
                s l z1 z2 k Hd Hl Hint8 Hz1 Hr1 Hz2 Hr2 Hk) as Ex.
  unfold Softmax.output, Softmax.sums, Softmax.exps, Softmax.x_b, Softmax.r,
    Softmax.q, Softmax.x_p.
  cbn [eval]. rewrite Ex. reflexivity.
Qed.

Lemma output_does_not_depend_on_zero_point_witness :
  eval (env_data (int8_tensor [2%nat] [127; -128]))
    (Softmax.output (Var "data") (f32_const scale_1_16) (i32_const 0) 0)
  = eval (env_data (int8_tensor [2%nat] [127; -128]))
      (Softmax.output (Var "data") (f32_const scale_1_16) (i32_const 5) 0).
Proof.
  apply (output_does_not_depend_on_zero_point
           (env_data (int8_tensor [2%nat] [127; -128])) (Var "data")
           (f32_const scale_1_16) (i32_const 0) (i32_const 5) 0
           [2%nat] [127; -128] 0 5).
  - reflexivity.
  - reflexivity.
  - repeat constructor; discriminate.
  - reflexivity.
  - lia.
  - reflexivity.
  - lia.
  - simpl. lia.
Defined.

(** ** Edge cases of the normalization *)

Lemma Elem_at_zero x0 :
  1 <= x0 < 8589934592 ->
  Elem.shift x0 0 = Softmax.n /\ Elem.exps x0 0 = x0 * 2 ^ Softmax.n.
Proof.
  intros Hx0.
  assert (Hq : Elem.q x0 0 = 0).
  { rewrite Elem_q_exact by lia. unfold Exact.q, Exact.x_p.
    change (- (0 + 0 / 2 - 0 / 16)) with 0. apply Z.div_0_l. lia. }
  assert (Hs : Elem.shift x0 0 = Softmax.n).
  { unfold Elem.shift. rewrite Hq. reflexivity. }
  split; [exact Hs|].
  unfold Elem.exps. rewrite Hs.
  assert (Hb : Elem.x_b x0 0 = x0).
  { rewrite Elem_x_b_exact by lia. unfold Exact.x_b, Exact.r.
    assert (Eq : Exact.q x0 0 = 0).
    { unfold Exact.q, Exact.x_p. change (- (0 + 0 / 2 - 0 / 16)) with 0.
      apply Z.div_0_l. lia. }
    rewrite Eq. unfold Exact.x_p. change (0 + 0 / 2 - 0 / 16 + 0 * x0) with 0.
    reflexivity. }
  rewrite Hb, Z.shiftl_mul_pow2 by (now unfold Softmax.n).
  apply wrap64_small. unfold Softmax.n. change (2 ^ 30) with 1073741824. lia.
Qed.

(** X14.  An operand whose elements are all equal gives a uniform output:
    for every reciprocal scale x0 >= 1 and a reduced axis of length d >= 1
    with d * x0 < 2^33, every exponent value is x0 * 2^n and every element
    of the wide output is ((2^m / (d * x0 * 2^n)) * (x0 * 2^n)) >> (m -
    bits), whatever the common operand value and the zero point are. *)
Theorem equal_operands_give_uniform_output
    (env : Env) (operand input_scale input_zero_point : Expr) (axis : Z)
    (s : list nat) (c z x0 : Z) (k d : nat) :
  eval env operand = Ok (VInt 8 (mkTensor s (repeat c (numel s)))) ->
  -128 <= c <= 127 ->
  eval env input_zero_point = Ok (VInt 32 (scalar z)) ->
  - 2147483648 <= z < 2147483648 ->
  real_axis (List.length s) axis = Ok k ->
  nth_error s k = Some d -> (1 <= d)%nat ->
  eval env (Softmax.x_0 input_scale) = Ok (VInt 64 (scalar x0)) ->
  1 <= x0 -> Z.of_nat d * x0 < 8589934592 ->
  eval env (Softmax.exps operand input_scale input_zero_point axis)
  = Ok (VInt 64 (mkTensor s (repeat (x0 * 2 ^ Softmax.n) (numel s))))
  /\ eval env (Softmax.output operand input_scale input_zero_point axis)
     = Ok (VInt 64
             (mkTensor s
                (repeat
                   (Z.shiftr
                      (2 ^ Softmax.m / (Z.of_nat d * (x0 * 2 ^ Softmax.n))
                       * (x0 * 2 ^ Softmax.n))
                      (Softmax.m - Softmax.bits))
                   (numel s)))).
Proof.
  intros Hd Hc Hz Hint32 Haxis Ek Hd1 Hx0 H1 Hdx.
  assert (Hx0r : 1 <= x0 < 8589934592) by nia.
  assert (Hl : List.length (repeat c (numel s)) = numel s) by apply repeat_length.
  assert (Hr : Forall (fun v => c <= v <= c) (repeat c (numel s))).
  { apply Forall_forall. intros v Hv. apply repeat_spec in Hv. lia. }
  destruct (eval_x_spread env operand input_zero_point axis s _ z c c k
              Hd Hl Hr ltac:(lia) ltac:(lia) Hz Hint32 Haxis)
    as [lx [Hx [Hlx Hrx]]].
  assert (Hzero : forall v, In v lx -> v = 0).
  { intros v Hv. pose proof (proj1 (Forall_forall _ _) Hrx v Hv) as Hb.
    cbv beta in Hb. lia. }
  destruct (Elem_at_zero x0 Hx0r) as [Hshift0 Hexps0].
  assert (Hdiv : forall v, In v lx -> wrap 64 (- x0) <> 0).
  { intros v _. rewrite wrap64_small by lia. lia. }
  assert (Hshift : forall v, In v lx -> 0 <= Elem.shift x0 v < 64).
  { intros v Hv. rewrite (Hzero v Hv), Hshift0. unfold Softmax.n. lia. }
  pose proof (eval_exps_general env operand input_scale input_zero_point axis
                s lx x0 Hx Hlx Hx0 Hdiv Hshift) as He.
  assert (Ele : map (Elem.exps x0) lx = repeat (x0 * 2 ^ Softmax.n) (numel s)).
  { rewrite <- Hlx, <- (length_map (Elem.exps x0) lx).
    apply Forall_eq_repeat. apply Forall_forall. intros e Hin.
    apply in_map_iff in Hin as [v [<- Hv]]. now rewrite (Hzero v Hv). }
  rewrite Ele in He. split; [exact He|].
  assert (Hpos : Forall (fun v => 0 < v <= x0 * 2 ^ Softmax.n)
                   (repeat (x0 * 2 ^ Softmax.n) (numel s))).
  { apply Forall_forall. intros v Hv. apply repeat_spec in Hv. subst v.
    unfold Softmax.n. change (2 ^ 30) with 1073741824. lia. }
  assert (Hhi : Z.of_nat d * (x0 * 2 ^ Softmax.n) < 9223372036854775808).
  { unfold Softmax.n. change (2 ^ 30) with 1073741824. lia. }
  destruct (eval_output_elements env operand input_scale input_zero_point axis
              s _ k d (x0 * 2 ^ Softmax.n) He (repeat_length _ _) Haxis Ek Hd1
              Hpos Hhi)
    as [ls [lo [_ [Hout [Hlo Hel]]]]].
  rewrite Hout. do 3 f_equal. rewrite <- Hlo.
  apply Forall_eq_repeat.
  apply (Forall_of_tget _ (mkTensor s lo) Hlo). cbn [shape].
  intros idx v Hv Hg.
  destruct (Hel idx Hv) as [e [vs [Het [_ [Hlen [Hall [_ [_ Hto]]]]]]]].
  rewrite Hto in Hg. injection Hg as <-.
  apply tget_In in Het. cbn [data] in Het. apply repeat_spec in Het. subst e.
  rewrite (Zsum_repeat (x0 * 2 ^ Softmax.n) vs), Hlen; [reflexivity|].
  eapply Forall_impl; [|exact Hall]. cbv beta. intros v Hvin.
  now apply repeat_spec in Hvin.
Qed.

Lemma equal_operands_give_uniform_output_witness :
  eval (env_data (int8_tensor [2%nat] [7; 7]))
    (Softmax.exps (Var "data") (f32_const scale_1) (i32_const 3) 0)
  = Ok (VInt 64 (mkTensor [2%nat] (repeat (1 * 2 ^ Softmax.n) (numel [2%nat]))))
  /\ eval (env_data (int8_tensor [2%nat] [7; 7]))
       (Softmax.output (Var "data") (f32_const scale_1) (i32_const 3) 0)
     = Ok (VInt 64
             (mkTensor [2%nat]
                (repeat
                   (Z.shiftr
                      (2 ^ Softmax.m / (Z.of_nat 2 * (1 * 2 ^ Softmax.n))
                       * (1 * 2 ^ Softmax.n))
                      (Softmax.m - Softmax.bits))
                   (numel [2%nat])))).
Proof.
  apply (equal_operands_give_uniform_output
           (env_data (int8_tensor [2%nat] [7; 7])) (Var "data")
           (f32_const scale_1) (i32_const 3) 0 [2%nat] 7 3 1 0%nat 2%nat).
  - reflexivity.
  - lia.
  - reflexivity.
  - lia.
  - reflexivity.
  - reflexivity.
  - lia.
  - reflexivity.
  - lia.
  - simpl. lia.
Defined.

(** X15.  A reduced axis of length zero is not guarded: when the operand's
    dimension along the axis is 0 while the other dimensions are not, every
    stage up to exps evaluates to an empty tensor, every lane sum is 0,
    and the reciprocal step (1 << m) / sums of the wide output is an
    integer division by zero, whatever the scale is. *)
Theorem empty_axis_divides_by_zero
    (env : Env) (operand input_scale input_zero_point : Expr) (axis : Z)
    (s : list nat) (l : list Z) (z x0 : Z) (k : nat) :
  eval env operand = Ok (VInt 8 (mkTensor s l)) ->
  List.length l = numel s ->
  eval env input_zero_point = Ok (VInt 32 (scalar z)) ->
  - 2147483648 <= z < 2147483648 ->
  real_axis (List.length s) axis = Ok k ->
  nth_error s k = Some 0%nat ->
  numel (set_nth k 1%nat s) <> 0%nat ->
  eval env (Softmax.x_0 input_scale) = Ok (VInt 64 (scalar x0)) ->
  eval env (Softmax.exps operand input_scale input_zero_point axis)
  = Ok (VInt 64 (mkTensor s []))
  /\ eval env (Softmax.sums operand input_scale input_zero_point axis)
     = Ok (VInt 64 (mkTensor (set_nth k 1%nat s)
                      (repeat 0 (numel (set_nth k 1%nat s)))))
  /\ eval env (Softmax.output operand input_scale input_zero_point axis)
     = Fatal DivideByZero.
Proof.
  intros Hd Hl Hz Hint32 Haxis Ek Hne Hx0.
  pose proof (numel_nth_zero s k Ek) as Hn0.
  rewrite Hn0 in Hl. destruct l as [|a l]; [|discriminate Hl].
  destruct (eval_x_spread env operand input_zero_point axis s [] z 0 0 k
              Hd ltac:(now rewrite Hn0) (Forall_nil _) ltac:(lia) ltac:(lia)
              Hz Hint32 Haxis)
    as [lx [Hx [Hlx _]]].
  rewrite Hn0 in Hlx. destruct lx as [|v lx]; [|discriminate Hlx].
  pose proof (eval_exps_general env operand input_scale input_zero_point axis
                s [] x0 Hx ltac:(now rewrite Hn0) Hx0
                (fun v (H : In v []) => match H with end)
                (fun v (H : In v []) => match H with end)) as He.
  cbn [map] in He.
  assert (Hwf : well_formed (mkTensor s (@nil Z)))
    by (unfold well_formed; cbn [shape data]; now rewrite Hn0).
  destruct (reduce_total (fun acc a => wrap 64 (acc + a)) 0 k (mkTensor s []) 0%nat
              Hwf Ek) as [ts Hred].
  destruct (reduce_shape _ _ _ _ _ Hred) as [Hss Hwfs]. cbn [shape] in Hss.
  assert (Hall : Forall (fun v => v = 0) (data ts)).
  { apply (reduce_Forall _ _ _ _ _ _ _ Hred Ek).
    intros vs Hlen _. destruct vs; [reflexivity|discriminate Hlen]. }
  destruct ts as [ss ls]. cbn [shape data] in *. subst ss.
  unfold well_formed in Hwfs. cbn [shape data] in Hwfs.
  assert (Els : ls = repeat 0 (numel (set_nth k 1%nat s))).
  { rewrite <- Hwfs. apply Forall_eq_repeat.
    eapply Forall_impl; [|exact Hall]. cbv beta. intros v E. now symmetry. }
  assert (Hsums : eval env (Softmax.sums operand input_scale input_zero_point axis)
                  = Ok (VInt 64 (mkTensor (set_nth k 1%nat s) ls))).
  { unfold Softmax.sums. cbn [eval]. rewrite He. cbn [bind].
    unfold reduce_value. cbn [shape]. rewrite Haxis. cbn [bind].
    rewrite Hred. reflexivity. }
  split; [exact He|]. split; [now rewrite <- Els|].
  unfold Softmax.output. cbn [eval].
  rewrite !eval_const_i64_small by (cbv; split; congruence).
  rewrite Hsums. cbn [bind]. unfold Spec.i64, binary at 1.
  rewrite Z.eqb_refl.
  rewrite broadcast2_scalar_l by exact Hwfs. cbn [data shape].
  destruct ls as [|y ls]; [simpl in Hwfs; congruence|].
  assert (y = 0) by (now inversion Hall). subst y.
  reflexivity.
Qed.

Lemma empty_axis_divides_by_zero_witness :
  eval (env_data (int8_tensor [0%nat; 3%nat] []))
    (Softmax.exps (Var "data") (f32_const scale_1_16) (i32_const 0) 0)
  = Ok (VInt 64 (mkTensor [0%nat; 3%nat] []))
  /\ eval (env_data (int8_tensor [0%nat; 3%nat] []))
       (Softmax.sums (Var "data") (f32_const scale_1_16) (i32_const 0) 0)
     = Ok (VInt 64 (mkTensor (set_nth 0 1%nat [0%nat; 3%nat])
                      (repeat 0 (numel (set_nth 0 1%nat [0%nat; 3%nat])))))
  /\ eval (env_data (int8_tensor [0%nat; 3%nat] []))
       (Softmax.output (Var "data") (f32_const scale_1_16) (i32_const 0) 0)
     = Fatal DivideByZero.
Proof.
  apply (empty_axis_divides_by_zero
           (env_data (int8_tensor [0%nat; 3%nat] [])) (Var "data")
           (f32_const scale_1_16) (i32_const 0) 0 [0%nat; 3%nat] [] 0 16 0%nat).
  - reflexivity.
  - reflexivity.
  - reflexivity.
  - lia.
  - reflexivity.
  - reflexivity.
  - simpl. lia.
  - reflexivity.
Defined.

(** ** Rank order *)

Lemma Exact_x_p_mono v w : v <= w -> Exact.x_p v <= Exact.x_p w.
Proof.
  intros Hvw. unfold Exact.x_p. Z.to_euclidean_division_equations. lia.
Qed.

Lemma Exact_exps_mono x0 v w :
  -255 <= v -> v <= w -> w <= 0 -> 12 <= x0 < 8589934592 ->
  Exact.exps x0 v <= Exact.exps x0 w.
Proof.
  intros Hv Hvw Hw Hx0.
  assert (Hrv : -255 <= v <= 0) by lia.
  assert (Hrw : -255 <= w <= 0) by lia.
  assert (Hx1 : 1 <= x0 < 8589934592) by lia.
  pose proof (Exact_x_p_mono v w Hvw) as Hp.
  pose proof (Exact_q_range_12 x0 v Hrv Hx0) as Hqv.
  pose proof (Exact_q_range_12 x0 w Hrw Hx0) as Hqw.
  pose proof (Exact_x_b_range x0 v Hrv Hx1) as Hbv.
  pose proof (Exact_x_b_range x0 w Hrw Hx1) as Hbw.
  assert (Hq : Exact.q x0 w <= Exact.q x0 v).
  { unfold Exact.q. apply Z.div_le_mono; lia. }
  unfold Exact.exps.
  destruct (Z.eq_dec (Exact.q x0 v) (Exact.q x0 w)) as [E|N].
  - assert (Hb : Exact.x_b x0 v <= Exact.x_b x0 w).
    { unfold Exact.x_b, Exact.r. rewrite E.
      apply Z.add_le_mono_r. apply Z.div_le_mono; lia. }
    rewrite E. apply Z.mul_le_mono_nonneg_r; [|exact Hb].
    apply Z.pow_nonneg. lia.
  - assert (Hq1 : Exact.q x0 w + 1 <= Exact.q x0 v) by lia.
    assert (Hpw : 2 ^ (Softmax.n - Exact.q x0 w)
                  = 2 * 2 ^ (Softmax.n - Exact.q x0 w - 1)).
    { rewrite <- Z.pow_succ_r by lia. f_equal. lia. }
    assert (Hpv : 0 < 2 ^ (Softmax.n - Exact.q x0 v)
                  <= 2 ^ (Softmax.n - Exact.q x0 w - 1)).
    { split; [apply Z.pow_pos_nonneg; lia|].
      apply Z.pow_le_mono_r; lia. }
    rewrite Hpw. nia.
Qed.

Lemma fold_left_max_any vs a b :
  In a vs -> In b vs -> fold_left Z.max vs a = fold_left Z.max vs b.
Proof.
  intros Ha Hb. apply Z.le_antisymm.
  - destruct (fold_left_max_mem vs a) as [->|Hin];
      apply fold_left_max_ge; assumption.
  - destruct (fold_left_max_mem vs b) as [->|Hin];
      apply fold_left_max_ge; assumption.
Qed.

Lemma In_lane {A : Type} (F : nat -> result A) d vs j v :
  Forall2 (fun i w => F i = Ok w) (seq 0 d) vs -> (j < d)%nat -> F j = Ok v ->
  In v vs.
Proof.
  intros Hf Hj Hv.
  assert (Hseq : nth_error (seq 0 d) j = Some j).
  { rewrite nth_error_nth' with (d := 0%nat) by (now rewrite length_seq).
    now rewrite seq_nth. }
  destruct (Forall2_nth_error_left _ _ _ _ _ Hf Hseq) as [w [Hw1 Hw2]].
  assert (w = v) by congruence. subst w.
  eapply nth_error_In; exact Hw1.
Qed.

(** X16.  Rank order is kept along the reduced axis: for a valid input
    with x0 >= 12 and d * x0 < 2^33, whenever one operand element is at
    most another of the same lane, its exponent value and its wide output
    are at most the other's. *)
Theorem rank_order_is_kept_along_axis
    (env : Env) (operand input_scale input_zero_point : Expr) (axis : Z)
    (s : list nat) (l : list Z) (z x0 : Z) (k d : nat) :
  eval env operand = Ok (VInt 8 (mkTensor s l)) ->
  List.length l = numel s ->
  Forall (fun v => -128 <= v <= 127) l ->
  eval env input_zero_point = Ok (VInt 32 (scalar z)) ->
  - 2147483648 <= z < 2147483648 ->
  real_axis (List.length s) axis = Ok k ->
  nth_error s k = Some d -> (1 <= d)%nat ->
  eval env (Softmax.x_0 input_scale) = Ok (VInt 64 (scalar x0)) ->
  12 <= x0 -> Z.of_nat d * x0 < 8589934592 ->
  exists le lo,
    eval env (Softmax.exps operand input_scale input_zero_point axis)
    = Ok (VInt 64 (mkTensor s le))
    /\ eval env (Softmax.output operand input_scale input_zero_point axis)
       = Ok (VInt 64 (mkTensor s lo))
    /\ forall idx j a b,
         valid_index s idx -> (j < d)%nat ->
         tget (mkTensor s l) (set_nth k j idx) = Ok a ->
         tget (mkTensor s l) idx = Ok b ->
         a <= b ->
         exists ea eb oa ob,
           tget (mkTensor s le) (set_nth k j idx) = Ok ea
           /\ tget (mkTensor s le) idx = Ok eb
           /\ tget (mkTensor s lo) (set_nth k j idx) = Ok oa
           /\ tget (mkTensor s lo) idx = Ok ob
           /\ ea <= eb /\ oa <= ob.
Proof.
  intros Hd Hl Hint8 Hz Hint32 Haxis Ek Hd1 Hx0 H12 Hdx.
  assert (Hx0r : 12 <= x0 < 8589934592) by nia.
  destruct (eval_fragment_elements env operand input_scale input_zero_point axis
              s l z x0 k d Hd Hl Hint8 Hz Hint32 Haxis Ek Hd1 Hx0 H12 Hdx)
    as [lx [ls [lo [Hx [Hlx [Hrx [He [_ [Hout [Hlo Hel]]]]]]]]]].
  destruct (eval_x_elements env operand input_zero_point axis s l z k d
              Hd Hl Hint8 Hz Hint32 Haxis Ek) as [lx' [Hx' [_ Hxel]]].
  assert (lx' = lx) by congruence. subst lx'.
  exists (map (Exact.exps x0) lx), lo.
  split; [exact He|]. split; [exact Hout|].
  intros idx j a b Hv Hj Ha Hb Hab.
  pose proof (set_nth_valid k s idx d j Hv Ek Hj) as Hvj.
  (* the shifted operand at the two positions *)
  destruct (Hxel idx Hv) as [b' [ws [Hb' [Hinb [Hws Hxb]]]]].
  assert (b' = b) by congruence. subst b'.
  destruct (Hxel _ Hvj) as [a' [ws' [Ha' [_ [Hws' Hxa]]]]].
  assert (a' = a) by congruence. subst a'.
  assert (Hsame : Forall2 (fun i w => tget (mkTensor s l) (set_nth k i idx) = Ok w)
                    (seq 0 d) ws').
  { eapply Forall2_impl; [|exact Hws']. cbv beta. intros i w E.
    now rewrite set_nth_set_nth in E. }
  rewrite (Forall2_functional _ _ _ _ Hsame Hws) in Hxa. clear Hsame Hws' ws'.
  assert (Hina : In a ws)
    by exact (In_lane (fun i => tget (mkTensor s l) (set_nth k i idx))
                d ws j a Hws Hj Ha).
  rewrite (fold_left_max_any ws a b Hina Hinb) in Hxa.
  pose proof (fold_left_max_init ws b) as Hmax.
  assert (Hra : -255 <= a - fold_left Z.max ws b).
  { apply tget_In in Hxa. cbn [data] in Hxa.
    pose proof (proj1 (Forall_forall _ _) Hrx _ Hxa) as Hr. cbv beta in Hr. lia. }
  (* the exponent stage and the output *)
  destruct (Hel idx Hv) as [eb [vs [Heb [Hinvs [_ [Hall [Hlane [_ Htob]]]]]]]].
  destruct (Hel _ Hvj) as [ea [vs' [Hea [_ [_ [_ [Hlane' [_ Htoa]]]]]]]].
  assert (Hsame : Forall2 (fun i w => tget (mkTensor s (map (Exact.exps x0) lx))
                                        (set_nth k i idx) = Ok w) (seq 0 d) vs').
  { eapply Forall2_impl; [|exact Hlane']. cbv beta. intros i w E.
    now rewrite set_nth_set_nth in E. }
  rewrite (Forall2_functional _ _ _ _ Hsame Hlane) in Htoa.
  assert (Hle : ea <= eb).
  { pose proof Hea as Hea'. pose proof Heb as Heb'.
    rewrite tget_map, Hxa in Hea'. rewrite tget_map, Hxb in Heb'.
    injection Hea' as <-. injection Heb' as <-.
    apply Exact_exps_mono; [exact Hra|lia|lia|exact Hx0r]. }
  exists ea, eb, (Exact.output (Zsum vs) ea), (Exact.output (Zsum vs) eb).
  repeat (split; [assumption|]).
  apply Exact_output_mono; [|exact Hle].
  pose proof (lane_element_le_sum eb vs _ Hinvs Hall). lia.
Qed.

Lemma rank_order_is_kept_along_axis_witness :
  exists le lo ea eb oa ob,
    eval (env_data (int8_tensor [2%nat] [127; -128]))
      (Softmax.exps (Var "data") (f32_const scale_1_16) (i32_const 0) 0)
    = Ok (VInt 64 (mkTensor [2%nat] le))
    /\ eval (env_data (int8_tensor [2%nat] [127; -128]))
         (Softmax.output (Var "data") (f32_const scale_1_16) (i32_const 0) 0)
       = Ok (VInt 64 (mkTensor [2%nat] lo))
    /\ tget (mkTensor [2%nat] le) (set_nth 0 1%nat [0%nat]) = Ok ea
    /\ tget (mkTensor [2%nat] le) [0%nat] = Ok eb
    /\ tget (mkTensor [2%nat] lo) (set_nth 0 1%nat [0%nat]) = Ok oa
    /\ tget (mkTensor [2%nat] lo) [0%nat] = Ok ob
    /\ ea <= eb /\ oa <= ob.
Proof.
  destruct (rank_order_is_kept_along_axis
              (env_data (int8_tensor [2%nat] [127; -128])) (Var "data")
              (f32_const scale_1_16) (i32_const 0) 0 [2%nat] [127; -128] 0 16
              0%nat 2%nat eq_refl eq_refl
              ltac:(repeat constructor; discriminate) eq_refl ltac:(lia)
              eq_refl eq_refl ltac:(lia) eq_refl ltac:(lia) ltac:(simpl; lia))
    as [le [lo [He [Ho Hel]]]].
  destruct (Hel [0%nat] 1%nat (-128) 127) as [ea [eb [oa [ob H]]]].
  - constructor; [lia|constructor].
  - lia.
  - reflexivity.
  - reflexivity.
  - lia.
  - exists le, lo, ea, eb, oa, ob. repeat (split; [assumption|]). exact H.
Defined.

(** ** Shifting the operand *)

Lemma fold_left_max_add vs a c :
  fold_left Z.max (map (fun v => v + c) vs) (a + c) = fold_left Z.max vs a + c.
Proof.
  revert a; induction vs as [|v vs IH]; intros a; [reflexivity|].
  cbn [map fold_left]. rewrite Z.add_max_distr_r. apply IH.
Qed.

(** X17.  Only differences between operand elements matter: two int8
    operands of the same shape that differ by a constant in every element
    give the same wide output (and fail the same way when the evaluation
    fails), whatever the scale and the zero point are. *)
Theorem output_is_invariant_under_operand_shift
    (env : Env) (operand1 operand2 input_scale input_zero_point : Expr)
    (axis : Z) (s : list nat) (l : list Z) (c z : Z) :
  eval env operand1 = Ok (VInt 8 (mkTensor s l)) ->
  eval env operand2 = Ok (VInt 8 (mkTensor s (map (fun v => v + c) l))) ->
  List.length l = numel s ->
  Forall (fun v => -128 <= v <= 127) l ->
  Forall (fun v => -128 <= v + c <= 127) l ->
  eval env input_zero_point = Ok (VInt 32 (scalar z)) ->
  - 2147483648 <= z < 2147483648 ->
  - Z.of_nat (List.length s) <= axis < Z.of_nat (List.length s) ->
  eval env (Softmax.output operand1 input_scale input_zero_point axis)
  = eval env (Softmax.output operand2 input_scale input_zero_point axis).
Proof.
  intros Hd1 Hd2 Hl Hint8 Hint8c Hz Hint32 Haxis.
  destruct (real_axis_valid _ _ Haxis) as [k Hk].
  pose proof (real_axis_lt _ _ _ Hk) as Hklt.
  destruct (nth_error s k) as [d|] eqn:Ek;
    [|apply nth_error_None in Ek; lia].
  assert (Hl2 : List.length (map (fun v => v + c) l) = numel s)
    by (now rewrite length_map).
  assert (Hr2 : Forall (fun v => -128 <= v <= 127) (map (fun v => v + c) l)).
  { apply Forall_forall. intros w Hw. apply in_map_iff in Hw as [v [<- Hv]].
    exact (proj1 (Forall_forall _ _) Hint8c v Hv). }
  destruct (eval_x_elements env operand1 input_zero_point axis s l z k d
              Hd1 Hl Hint8 Hz Hint32 Hk Ek) as [lx1 [E1 [Hl1 Hel1]]].
  destruct (eval_x_elements env operand2 input_zero_point axis s _ z k d
              Hd2 Hl2 Hr2 Hz Hint32 Hk Ek) as [lx2 [E2 [Hlx2 Hel2]]].
  assert (Ex : eval env (Softmax.x operand1 input_zero_point axis)
               = eval env (Softmax.x operand2 input_zero_point axis)).
  { rewrite E1, E2. do 2 f_equal.
    apply tensor_ext; try assumption; try reflexivity.
    cbn [shape]. intros idx Hv.
    destruct (Hel1 idx Hv) as [a1 [vs1 [Ha1 [_ [Hvs1 Ht1]]]]].
    destruct (Hel2 idx Hv) as [a2 [vs2 [Ha2 [_ [Hvs2 Ht2]]]]].
    rewrite tget_map, Ha1 in Ha2. injection Ha2 as <-.
    apply Forall2_tget_map in Hvs2 as [vs [Hvs ->]].
    rewrite (Forall2_functional _ _ _ _ Hvs Hvs1) in Ht2.
    rewrite fold_left_max_add in Ht2. rewrite Ht1, Ht2. f_equal. ring. }
  unfold Softmax.output, Softmax.sums, Softmax.exps, Softmax.x_b, Softmax.r,
    Softmax.q, Softmax.x_p.
  cbn [eval]. rewrite Ex. reflexivity.
Qed.

Lemma output_is_invariant_under_operand_shift_witness :
  eval (fun name => if String.eqb name "data"
                    then Some (int8_tensor [2%nat] [10; 20])
                    else Some (int8_tensor [2%nat] [13; 23]))
    (Softmax.output (Var "data") (f32_const scale_1_16) (i32_const 0) 0)
  = eval (fun name => if String.eqb name "data"
                      then Some (int8_tensor [2%nat] [10; 20])
                      else Some (int8_tensor [2%nat] [13; 23]))
      (Softmax.output (Var "shifted") (f32_const scale_1_16) (i32_const 0) 0).
Proof.
  apply (output_is_invariant_under_operand_shift
           (fun name => if String.eqb name "data"
                        then Some (int8_tensor [2%nat] [10; 20])
                        else Some (int8_tensor [2%nat] [13; 23]))
           (Var "data") (Var "shifted") (f32_const scale_1_16) (i32_const 0) 0
           [2%nat] [10; 20] 3 0).
  - reflexivity.
  - reflexivity.
  - reflexivity.
  - repeat constructor; discriminate.
  - repeat constructor; discriminate.
  - reflexivity.
  - lia.
  - simpl. lia.
Defined.

(** ** The lowering's own checks *)

(** X18.  The argument count is checked before anything else is read: with
    any number of arguments other than five the lowering fails on
    ICHECK_EQ(new_args.size(), 5), whatever the attributes and the argument
    types are (also when those would make the later accesses fail). *)
Theorem lowering_checks_argument_count_first
    (attrs : Attrs) (new_args : list Expr) (arg_types : list Type_) :
  List.length new_args <> 5%nat ->
  QnnSoftmaxCanonicalize attrs new_args arg_types
  = Fatal (CheckFailed "new_args.size() == 5").
Proof.
  intros Hn. unfold QnnSoftmaxCanonicalize.
  destruct (Nat.eqb_spec (List.length new_args) 5) as [E|_]; [contradiction|].
  reflexivity.
Qed.

Lemma lowering_checks_argument_count_first_witness :
  QnnSoftmaxCanonicalize OtherAttrs [Var "data"; f32_const scale_1] []
  = Fatal (CheckFailed "new_args.size() == 5").
Proof.
  apply (lowering_checks_argument_count_first
           OtherAttrs [Var "data"; f32_const scale_1] []).
  simpl. lia.
Defined.

(** X19.  Of the argument types the lowering reads only the shape of the
    first: the element type of the operand and the types of the four
    quantization parameters (or their absence) do not change its result.
    In particular it does not check that the operand is int8. *)
Theorem lowering_reads_only_the_operand_shape
    (attrs : Attrs) (new_args : list Expr) (input_shape : list IndexExpr)
    (dtype1 dtype2 : DataType) (rest1 rest2 : list Type_) :
  QnnSoftmaxCanonicalize attrs new_args (TensorType input_shape dtype1 :: rest1)
  = QnnSoftmaxCanonicalize attrs new_args (TensorType input_shape dtype2 :: rest2).
Proof. reflexivity. Qed.
